(** * Scope analysis: a shallow embedding of [parse_tree.h] and
      [scope_analyzer.h], and the properties of the analyzer.

    The C++ analyzer keeps three pieces of mutable state: the vector
    [errors], the pointer [current] into a chain of heap-allocated
    [Scope] objects linked by [parent], and the pointer [global] to the
    outermost scope.  It also writes one line per error to [std::cout].
    All of it is threaded explicitly here. *)

From stdpp Require Import gmap strings list fin_maps.
From Stdlib Require Import Lia.

(* String literals are [string]s; [++] and [≤] stay those of lists and
   numbers. *)
Open Scope string_scope.
Open Scope list_scope.
Open Scope nat_scope.

(** ** parse_tree.h *)

(** A [std::unique_ptr<ASTNode>] is an [option ASTNode]: [None] is the
    null pointer.  [OtherNode] stands for a node that none of the
    [dynamic_cast]s of [check_node] accepts apart from [LiteralNode]
    (a bare [ASTNode], or a [FunctionNode] or [ProgramNode] used as a
    child); the analyzer never looks inside such a node. *)
Unset Elimination Schemes.
Inductive ASTNode : Type :=
| VariableNode (type name : string) (value : option ASTNode)
| BlockNode (statements : list (option ASTNode))
| CallNode (name : string) (args : list (option ASTNode))
| NameNode (name : string)
| LiteralNode (type value : string)
| BinaryOpNode (op : string) (left right : option ASTNode)
| AssignmentNode (name : string) (value : option ASTNode)
| ReturnNode (value : option ASTNode)
| IfNode (condition then_branch else_branch : option ASTNode)
| WhileNode (condition body : option ASTNode)
| ForNode (initializer condition increment body : option ASTNode)
| OtherNode.
Set Elimination Schemes.

(** A [VariableNode] held by value, as the elements of
    [ProgramNode::globals] and [FunctionNode::params] are. *)
Record VarNode : Type := mkVar {
  var_type : string;
  var_name : string;
  var_value : option ASTNode
}.

Record FunctionNode : Type := mkFunction {
  return_type : string;
  fn_name : string;
  params : list VarNode;
  body : option ASTNode
}.

Record ProgramNode : Type := mkProgram {
  functions : list FunctionNode;
  globals : list VarNode
}.

(** ** scope_analyzer.h *)

Inductive ScopeError : Type :=
| UndeclaredVariable
| UndefinedFunction
| VariableRedefined
| FunctionRedefined.

(** *** class Scope

    A [Scope*] is the list of the symbol tables on its parent chain,
    the pointed-to scope first: [[]] is [nullptr], and
    [symbols :: parent] is a scope with that table and that parent.
    Scopes are created and deleted in strict stack order, so the list
    is exactly the heap structure reachable from the pointer. *)
Definition Scope : Type := list (gmap string string).

(** [Scope::add], on the symbol table of the scope. *)
Definition add (name type : string) (symbols : gmap string string)
  : bool * gmap string string :=
  match symbols !! name with
  | Some _ => (false, symbols)
  | None => (true, <[name := type]> symbols)
  end.

(** [Scope::in_scope]. *)
Definition in_scope (name : string) (symbols : gmap string string) : bool :=
  match symbols !! name with
  | Some _ => true
  | None => false
  end.

(** [Scope::find]: the table of this scope, then the parent's [find],
    then the empty string. *)
Fixpoint find (name : string) (sc : Scope) : string :=
  match sc with
  | [] => ""
  | symbols :: parent =>
      match symbols !! name with
      | Some type => type
      | None => find name parent
      end
  end.

(** *** class ScopeAnalyzer

    [current] is the chain from the current scope outwards; the scope
    [global] points to is its last element, so the two pointers alias
    when the chain has length one.  [cout] is the sequence of lines
    written to [std::cout]. *)
Record ScopeAnalyzer : Type := mkAnalyzer {
  errors : list ScopeError;
  current : Scope;
  cout : list string
}.

(** The symbol table [global] points to.  (With a null [current] there
    is no chain to take it from; [check] never is in that state.) *)
Definition global (s : ScopeAnalyzer) : gmap string string :=
  List.last (current s) ∅.

(** The text that [ScopeAnalyzer::error] builds for [err] and [name]. *)
Definition msg (err : ScopeError) (name : string) : string :=
  match err with
  | UndefinedFunction => "Undefined function: " +:+ name
  | UndeclaredVariable => "Undeclared variable: " +:+ name
  | VariableRedefined => "Variable redefined: " +:+ name
  | FunctionRedefined => "Function redefined: " +:+ name
  end.

(** [ScopeAnalyzer::error]: only the kind goes into [errors]; the name
    goes into the printed line. *)
Definition error (err : ScopeError) (name : string) (s : ScopeAnalyzer)
  : ScopeAnalyzer :=
  {| errors := errors s ++ [err];
     current := current s;
     cout := cout s ++ ["Error: " +:+ msg err name] |}.

(** [enter_scope] and [leave_scope].  Leaving with a null [current]
    would dereference it in C++; the model stays at the null chain
    there, and no run of [check] gets there. *)
Definition enter_scope (s : ScopeAnalyzer) : ScopeAnalyzer :=
  {| errors := errors s; current := ∅ :: current s; cout := cout s |}.

Definition leave_scope (s : ScopeAnalyzer) : ScopeAnalyzer :=
  {| errors := errors s; current := tail (current s); cout := cout s |}.

(** The constructor: one empty scope, which is both [global] and
    [current]. *)
Definition ScopeAnalyzer_new : ScopeAnalyzer :=
  {| errors := []; current := [∅]; cout := [] |}.

(** [current->add(name, type)].  A null [current] cannot be
    dereferenced in C++; the model leaves the state alone there, and
    [check] never reaches that case (see [check_node_chain]). *)
Definition current_add (name type : string) (s : ScopeAnalyzer)
  : bool * ScopeAnalyzer :=
  match current s with
  | [] => (false, s)
  | symbols :: parent =>
      let '(ok, symbols') := add name type symbols in
      (ok, {| errors := errors s; current := symbols' :: parent; cout := cout s |})
  end.

(** [current->in_scope(name)]. *)
Definition current_in_scope (name : string) (s : ScopeAnalyzer) : bool :=
  match current s with
  | [] => false
  | symbols :: _ => in_scope name symbols
  end.

(** Apply [f] to the last table of a chain, the one [global] points to. *)
Fixpoint on_global (f : gmap string string → gmap string string) (sc : Scope)
  : Scope :=
  match sc with
  | [] => []
  | [g] => [f g]
  | symbols :: parent => symbols :: on_global f parent
  end.

(** [global->add(name, type)]. *)
Definition global_add (name type : string) (s : ScopeAnalyzer)
  : bool * ScopeAnalyzer :=
  (fst (add name type (global s)),
   {| errors := errors s;
      current := on_global (fun g => snd (add name type g)) (current s);
      cout := cout s |}).

(** [ScopeAnalyzer::check_node] on a node that is not null: the chain of
    [dynamic_cast]s, in the order of the source (no node type derives
    from another, so at most one cast succeeds).  Where the source
    tests a pointer before the recursive call ([if (var->value) ...]),
    the call here is made on the pointer as it is: [check_node] returns
    at once on a null pointer, so the state is the same. *)
Fixpoint check_node_nonnull (node : ASTNode) (s : ScopeAnalyzer) {struct node}
  : ScopeAnalyzer :=
  let check_node (p : option ASTNode) (s : ScopeAnalyzer) : ScopeAnalyzer :=
    match p with
    | None => s
    | Some n => check_node_nonnull n s
    end in
  match node with
  | BlockNode statements =>
      leave_scope
        (fold_left (fun s stmt => check_node stmt s) statements (enter_scope s))
  | VariableNode type name value =>
      let s1 := if current_in_scope name s
                then error VariableRedefined name s
                else snd (current_add name type s) in
      check_node value s1
  | CallNode name args =>
      let s1 := if decide (find name [global s] = "function")
                then s
                else error UndefinedFunction name s in
      fold_left (fun s arg => check_node arg s) args s1
  | NameNode name =>
      if decide (find name (current s) = "")
      then error UndeclaredVariable name s
      else s
  | AssignmentNode name value =>
      let s1 := check_node value s in
      if decide (find name (current s1) = "")
      then error UndeclaredVariable name s1
      else s1
  | ReturnNode value => check_node value s
  | IfNode condition then_branch else_branch =>
      check_node else_branch (check_node then_branch (check_node condition s))
  | WhileNode condition body =>
      check_node body (check_node condition s)
  | ForNode initializer condition increment body =>
      leave_scope
        (check_node body
           (check_node increment
              (check_node condition
                 (check_node initializer (enter_scope s)))))
  | BinaryOpNode _ lhs rhs =>
      check_node rhs (check_node lhs s)
  | LiteralNode _ _ => s
  | OtherNode => s
  end.

(** [ScopeAnalyzer::check_node]: returns at once on a null pointer. *)
Definition check_node (node : option ASTNode) (s : ScopeAnalyzer)
  : ScopeAnalyzer :=
  match node with
  | None => s
  | Some n => check_node_nonnull n s
  end.

(** One turn of the loop over [func->params] in [check_function]. *)
Definition declare_param (s : ScopeAnalyzer) (param : VarNode) : ScopeAnalyzer :=
  let '(ok, s') := current_add (var_name param) (var_type param) s in
  if ok then s' else error VariableRedefined (var_name param) s'.

(** [ScopeAnalyzer::check_function]. *)
Definition check_function (func : FunctionNode) (s : ScopeAnalyzer)
  : ScopeAnalyzer :=
  leave_scope
    (check_node (body func)
       (fold_left declare_param (params func) (enter_scope s))).

(** One turn of each of the two loops of phase 1. *)
Definition declare_global (s : ScopeAnalyzer) (var : VarNode) : ScopeAnalyzer :=
  let '(ok, s') := global_add (var_name var) (var_type var) s in
  if ok then s' else error VariableRedefined (var_name var) s'.

Definition declare_function (s : ScopeAnalyzer) (func : FunctionNode)
  : ScopeAnalyzer :=
  let '(ok, s') := global_add (fn_name func) "function" s in
  if ok then s' else error FunctionRedefined (fn_name func) s'.

(** The three phases of [ScopeAnalyzer::check], as state transformers. *)
Definition phase1 (program : ProgramNode) (s : ScopeAnalyzer) : ScopeAnalyzer :=
  fold_left declare_function (functions program)
    (fold_left declare_global (globals program) s).

Definition phase2 (program : ProgramNode) (s : ScopeAnalyzer) : ScopeAnalyzer :=
  fold_left (fun s func => check_function func s) (functions program) s.

Definition phase3 (program : ProgramNode) (s : ScopeAnalyzer) : ScopeAnalyzer :=
  fold_left (fun s var => check_node (var_value var) s) (globals program) s.

(** [getErrors], [passed], [errorCount]. *)
Definition getErrors (s : ScopeAnalyzer) : list ScopeError := errors s.

Definition passed (s : ScopeAnalyzer) : bool :=
  match errors s with [] => true | _ => false end.

Definition errorCount (s : ScopeAnalyzer) : nat := length (errors s).

(** [ScopeAnalyzer::check]: the returned flag and the analyzer after
    the call. *)
Definition check (program : ProgramNode) (s : ScopeAnalyzer)
  : bool * ScopeAnalyzer :=
  let s' := phase3 program (phase2 program (phase1 program s)) in
  (passed s', s').

(** The analyzer after [check] on a freshly constructed instance. *)
Definition analyze (program : ProgramNode) : ScopeAnalyzer :=
  snd (check program ScopeAnalyzer_new).

(** ** Vocabulary of the properties *)

(** The line that [error] prints for a kind and a name. *)
Definition line (ev : ScopeError * string) : string :=
  "Error: " +:+ msg ev.1 ev.2.

(** How often a line occurs in the output. *)
Definition count_line (l : string) (out : list string) : nat :=
  length (filter (fun x => x = l) out).

(** How often "Undefined function: f" was printed. *)
Definition undefined_lines (f : string) (s : ScopeAnalyzer) : nat :=
  count_line (line (UndefinedFunction, f)) (cout s).

(** [extends sc sc']: [sc'] is the chain [sc] with, at most, more names
    in the table of its first scope. *)
Definition extends (sc sc' : Scope) : Prop :=
  match sc, sc' with
  | [], [] => True
  | symbols :: parent, symbols' :: parent' =>
      symbols ⊆ symbols' ∧ parent' = parent
  | _, _ => False
  end.

Definition chain_extends : relation ScopeAnalyzer :=
  fun s s' => extends (current s) (current s').

(** [emits_upto k s s']: from [s] to [s'] at most [k] errors were
    reported, each one appended to [errors] (its kind) and to [cout]
    (its line), and nothing else happened to either. *)
Definition emits_upto (k : nat) (s s' : ScopeAnalyzer) : Prop :=
  ∃ evs : list (ScopeError * string),
    length evs ≤ k ∧
    errors s' = errors s ++ evs.*1 ∧
    cout s' = cout s ++ (line <$> evs).

(** The same analyzer with [e] and [o] in front of what it has recorded
    and printed, and with nothing recorded or printed at all. *)
Definition with_log (e : list ScopeError) (o : list string) (s : ScopeAnalyzer)
  : ScopeAnalyzer :=
  {| errors := e ++ errors s; current := current s; cout := o ++ cout s |}.

Definition quiet (s : ScopeAnalyzer) : ScopeAnalyzer :=
  {| errors := []; current := current s; cout := [] |}.

(** For a loop over [l] started in [s]: for each element in turn, the
    errors its turn records when it starts, with an empty error vector,
    in the scopes that the turns before it left. *)
Fixpoint segments {A : Type} (step : ScopeAnalyzer → A → ScopeAnalyzer)
    (l : list A) (s : ScopeAnalyzer) : list (list ScopeError) :=
  match l with
  | [] => []
  | a :: l' => errors (step (quiet s) a) :: segments step l' (step s a)
  end.

(** The type tag of the first variable of [vars] called [name]. *)
Fixpoint declared_type (name : string) (vars : list VarNode) : option string :=
  match vars with
  | [] => None
  | v :: vars' =>
      if decide (var_name v = name) then Some (var_type v)
      else declared_type name vars'
  end.

(** The number of [CallNode]s for [f] among the nodes that [check_node]
    walks from a pointer. *)
Fixpoint calls_to_nonnull (f : string) (node : ASTNode) : nat :=
  let ptr (p : option ASTNode) : nat :=
    match p with
    | None => 0
    | Some n => calls_to_nonnull f n
    end in
  match node with
  | VariableNode _ _ value => ptr value
  | BlockNode statements => sum_list_with ptr statements
  | CallNode name args =>
      (if decide (name = f) then 1 else 0) + sum_list_with ptr args
  | NameNode _ => 0
  | LiteralNode _ _ => 0
  | BinaryOpNode _ lhs rhs => ptr lhs + ptr rhs
  | AssignmentNode _ value => ptr value
  | ReturnNode value => ptr value
  | IfNode c t e => ptr c + ptr t + ptr e
  | WhileNode c b => ptr c + ptr b
  | ForNode i c n b => ptr i + ptr c + ptr n + ptr b
  | OtherNode => 0
  end.

Definition calls_to (f : string) (p : option ASTNode) : nat :=
  match p with
  | None => 0
  | Some n => calls_to_nonnull f n
  end.

(** The same over the bodies and the global initializers, which are
    what [check] walks. *)
Definition program_calls (f : string) (program : ProgramNode) : nat :=
  sum_list_with (fun func => calls_to f (body func)) (functions program)
  + sum_list_with (fun var => calls_to f (var_value var)) (globals program).

(** The size of the tree under a pointer: one for the pointer itself,
    null or not, and the sizes of the pointers its node owns. *)
Fixpoint ast_size_nonnull (node : ASTNode) : nat :=
  let ptr (p : option ASTNode) : nat :=
    S (match p with
       | None => 0
       | Some n => ast_size_nonnull n
       end) in
  match node with
  | VariableNode _ _ value => ptr value
  | BlockNode statements => sum_list_with ptr statements
  | CallNode _ args => sum_list_with ptr args
  | NameNode _ => 0
  | LiteralNode _ _ => 0
  | BinaryOpNode _ lhs rhs => ptr lhs + ptr rhs
  | AssignmentNode _ value => ptr value
  | ReturnNode value => ptr value
  | IfNode c t e => ptr c + ptr t + ptr e
  | WhileNode c b => ptr c + ptr b
  | ForNode i c n b => ptr i + ptr c + ptr n + ptr b
  | OtherNode => 0
  end.

Definition ast_size (p : option ASTNode) : nat :=
  S (match p with
     | None => 0
     | Some n => ast_size_nonnull n
     end).

(** The size of a program: every variable, parameter and function
    counts for one, plus the trees they own. *)
Definition var_size (var : VarNode) : nat := 1 + ast_size (var_value var).

Definition function_size (func : FunctionNode) : nat :=
  1 + sum_list_with var_size (params func) + ast_size (body func).

Definition program_size (program : ProgramNode) : nat :=
  sum_list_with var_size (globals program)
  + sum_list_with function_size (functions program).

(** The nearest binding of [name] on a chain, if there is one. *)
Fixpoint nearest (name : string) (sc : Scope) : option string :=
  match sc with
  | [] => None
  | symbols :: parent =>
      match symbols !! name with
      | Some type => Some type
      | None => nearest name parent
      end
  end.

(** ** Sample programs *)

(** [int v = <name>;] as the only global: [name] is not declared. *)
Definition reads_undeclared (name : string) : ProgramNode :=
  {| functions := [];
     globals := [mkVar "int" "v" (Some (NameNode name))] |}.

(** [int f;] then [int g() { f(); }] and [int f();]. *)
Definition call_of_shadowed_function : ProgramNode :=
  {| functions :=
       [mkFunction "int" "g" [] (Some (BlockNode [Some (CallNode "f" [])]));
        mkFunction "int" "f" [] None];
     globals := [mkVar "int" "f" None] |}.

(** [void main() { helper(); }] before [void helper() {}]. *)
Definition forward_reference : ProgramNode :=
  {| functions :=
       [mkFunction "void" "main" []
          (Some (BlockNode [Some (CallNode "helper" [])]));
        mkFunction "void" "helper" [] (Some (BlockNode []))];
     globals := [] |}.

(** A function whose body declares [x] with an empty type tag and
    initializes it with [x]. *)
Definition untyped_self_initializer : ProgramNode :=
  {| functions :=
       [mkFunction "void" "g" []
          (Some (BlockNode [Some (VariableNode "" "x" (Some (NameNode "x")))]))];
     globals := [] |}.

(** A global variable [f] whose type tag is "function", called in [g]. *)
Definition call_of_function_typed_variable : ProgramNode :=
  {| functions :=
       [mkFunction "void" "g" [] (Some (BlockNode [Some (CallNode "f" [])]))];
     globals := [mkVar "function" "f" None] |}.

(** [for (<> i; i; ) ;] with an empty type tag for [i]. *)
Definition untyped_loop_variable : ProgramNode :=
  {| functions :=
       [mkFunction "void" "g" []
          (Some (BlockNode
             [Some (ForNode (Some (VariableNode "" "i" None))
                            (Some (NameNode "i")) None None)]))];
     globals := [] |}.

(** Scenario 6 of the specification: [int x = 1; { int x = 2; }]. *)
Definition shadowing_block : ProgramNode :=
  {| functions :=
       [mkFunction "void" "g" []
          (Some (BlockNode
             [Some (VariableNode "int" "x" (Some (LiteralNode "int" "1")));
              Some (BlockNode
                [Some (VariableNode "int" "x"
                         (Some (LiteralNode "int" "2")))])]))];
     globals := [] |}.

(** ** Further vocabulary *)

#[global] Instance ScopeError_eq_dec : EqDecision ScopeError.
Proof. solve_decision. Defined.

(** The symbol table of the scope [current] points to. *)
Definition current_table (s : ScopeAnalyzer) : gmap string string :=
  default ∅ (head (current s)).

(** [emits_only P s s']: from [s] to [s'] errors were only appended,
    kind and line together, and each of them satisfies [P]. *)
Definition emits_only (P : ScopeError * string → Prop) : relation ScopeAnalyzer :=
  fun s s' =>
    ∃ evs : list (ScopeError * string),
      Forall P evs ∧
      errors s' = errors s ++ evs.*1 ∧
      cout s' = cout s ++ (line <$> evs).

(** The errors of a node check: never [FunctionRedefined]. *)
Definition node_error (ev : ScopeError * string) : Prop :=
  ev.1 = UndeclaredVariable ∨ ev.1 = UndefinedFunction ∨
  ev.1 = VariableRedefined.

(** The errors of phase 1: redefinitions only. *)
Definition declaration_error (ev : ScopeError * string) : Prop :=
  ev.1 = VariableRedefined ∨ ev.1 = FunctionRedefined.

(** A tree in which nothing is declared, referred to, assigned or
    called: literals, operators and control structure only. *)
Fixpoint inert_nonnull (node : ASTNode) : bool :=
  let ptr (p : option ASTNode) : bool :=
    match p with
    | None => true
    | Some n => inert_nonnull n
    end in
  match node with
  | VariableNode _ _ _ => false
  | BlockNode statements => forallb ptr statements
  | CallNode _ _ => false
  | NameNode _ => false
  | LiteralNode _ _ => true
  | BinaryOpNode _ lhs rhs => ptr lhs && ptr rhs
  | AssignmentNode _ _ => false
  | ReturnNode value => ptr value
  | IfNode c t e => ptr c && ptr t && ptr e
  | WhileNode c b => ptr c && ptr b
  | ForNode i c n b => ptr i && ptr c && ptr n && ptr b
  | OtherNode => true
  end.

Definition inert (p : option ASTNode) : bool :=
  match p with
  | None => true
  | Some n => inert_nonnull n
  end.

(** No [VariableNode] of the tree declares [x] with the empty string as
    its type tag. *)
Fixpoint typed_nonnull (x : string) (node : ASTNode) : bool :=
  let ptr (p : option ASTNode) : bool :=
    match p with
    | None => true
    | Some n => typed_nonnull x n
    end in
  match node with
  | VariableNode type name value =>
      negb (bool_decide (name = x) && bool_decide (type = "")) && ptr value
  | BlockNode statements => forallb ptr statements
  | CallNode _ args => forallb ptr args
  | NameNode _ => true
  | LiteralNode _ _ => true
  | BinaryOpNode _ lhs rhs => ptr lhs && ptr rhs
  | AssignmentNode _ value => ptr value
  | ReturnNode value => ptr value
  | IfNode c t e => ptr c && ptr t && ptr e
  | WhileNode c b => ptr c && ptr b
  | ForNode i c n b => ptr i && ptr c && ptr n && ptr b
  | OtherNode => true
  end.

Definition typed (x : string) (p : option ASTNode) : bool :=
  match p with
  | None => true
  | Some n => typed_nonnull x n
  end.

(** The same for a variable held by value (a global or a parameter),
    its own tag included, and for a whole program. *)
Definition typed_var (x : string) (var : VarNode) : bool :=
  negb (bool_decide (var_name var = x) && bool_decide (var_type var = ""))
  && typed x (var_value var).

Definition typed_param (x : string) (param : VarNode) : bool :=
  negb (bool_decide (var_name param = x) && bool_decide (var_type param = "")).

Definition typed_function (x : string) (func : FunctionNode) : bool :=
  forallb (typed_param x) (params func) && typed x (body func).

Definition typed_program (x : string) (program : ProgramNode) : bool :=
  forallb (typed_var x) (globals program)
  && forallb (typed_function x) (functions program).

(** How often "Undeclared variable: x" was printed. *)
Definition undeclared_lines (x : string) (s : ScopeAnalyzer) : nat :=
  count_line (line (UndeclaredVariable, x)) (cout s).

(** Every scope of the chain that binds [x] binds it to a type tag that
    is not empty, and the global scope binds it. *)
Definition visible (x : string) (s : ScopeAnalyzer) : Prop :=
  Forall (fun symbols => symbols !! x ≠ Some "") (current s) ∧
  is_Some (global s !! x).

(** From [s] to [s'] the name [x] stays visible in that sense and is
    not reported as undeclared. *)
Definition keeps_visible (x : string) : relation ScopeAnalyzer :=
  fun s s' =>
    visible x s →
    visible x s' ∧ undeclared_lines x s' = undeclared_lines x s.

(** No [VariableNode] of the tree declares [f] with the type tag
    "function". *)
Fixpoint not_function_tagged_nonnull (f : string) (node : ASTNode) : bool :=
  let ptr (p : option ASTNode) : bool :=
    match p with
    | None => true
    | Some n => not_function_tagged_nonnull f n
    end in
  match node with
  | VariableNode type name value =>
      negb (bool_decide (name = f) && bool_decide (type = "function"))
      && ptr value
  | BlockNode statements => forallb ptr statements
  | CallNode _ args => forallb ptr args
  | NameNode _ => true
  | LiteralNode _ _ => true
  | BinaryOpNode _ lhs rhs => ptr lhs && ptr rhs
  | AssignmentNode _ value => ptr value
  | ReturnNode value => ptr value
  | IfNode c t e => ptr c && ptr t && ptr e
  | WhileNode c b => ptr c && ptr b
  | ForNode i c n b => ptr i && ptr c && ptr n && ptr b
  | OtherNode => true
  end.

Definition not_function_tagged (f : string) (p : option ASTNode) : bool :=
  match p with
  | None => true
  | Some n => not_function_tagged_nonnull f n
  end.

(** The global scope does not bind [f] to "function": a call of [f] is
    an error. *)
Definition unresolved (f : string) (s : ScopeAnalyzer) : Prop :=
  find f [global s] ≠ "function".

(** [int total = sum(1);] and a function that calls [sum] twice, with
    nothing called [sum] declared. *)
Definition calls_unknown : ProgramNode :=
  {| functions :=
       [mkFunction "void" "main" []
          (Some (BlockNode
             [Some (VariableNode "int" "sum" None);
              Some (CallNode "sum" [Some (CallNode "sum" [])])]))];
     globals := [mkVar "int" "total"
                   (Some (CallNode "sum" [Some (LiteralNode "int" "1")]))] |}.

(** [int limit = 10;] and two functions that read it, one of them
    through a block that declares a [limit] of its own. *)
Definition reads_global : ProgramNode :=
  {| functions :=
       [mkFunction "int" "first" [] (Some (BlockNode [Some (NameNode "limit")]));
        mkFunction "int" "second" [mkVar "int" "n" None]
          (Some (BlockNode
             [Some (BlockNode [Some (VariableNode "float" "limit" None);
                               Some (NameNode "limit")]);
              Some (ReturnNode (Some (NameNode "limit")))]))];
     globals := [mkVar "int" "limit" (Some (LiteralNode "int" "10"))] |}.

(** ** The analysis as the specification words it

    Section 4.2 of the specification describes the analysis as a walk
    that yields faults: which constructs are examined, in which order,
    in which scope, and which fault each one yields.  The definitions
    below follow those words and nothing of [ScopeAnalyzer]: there is
    no error vector and no output, a step is a function from the scope
    chain it starts in to the faults it finds, in order, and the chain
    it leaves.  Whether a name is bound is asked of the scope chain as
    the [Scope] class answers ([in_scope], [find], with the empty
    string for "not found"). *)

Definition Fault : Type := ScopeError * string.

Definition Pass : Type := Scope → list Fault * Scope.

(** Nothing to examine. *)
Definition spec_skip : Pass := fun sc => ([], sc).

(** First [p], then [q] in the scopes [p] leaves, whatever [p] found. *)
Definition spec_then (p q : Pass) : Pass :=
  fun sc =>
    let '(found1, sc1) := p sc in
    let '(found2, sc2) := q sc1 in
    (found1 ++ found2, sc2).

(** Each element of a sequence in order. *)
Definition spec_each {A : Type} (p : A → Pass) : list A → Pass :=
  fix each (l : list A) : Pass :=
    match l with
    | [] => spec_skip
    | a :: l' => spec_then (p a) (each l')
    end.

(** "Opens a new child scope, ..., closes the scope." *)
Definition spec_scoped (p : Pass) : Pass :=
  fun sc =>
    let '(found, sc') := p (∅ :: sc) in
    (found, tail sc').

(** "Attempt [declare] into the scope; on failure, record": a name that
    the current scope has already is a fault of the given kind and the
    binding is kept; otherwise the name is bound. *)
Definition spec_declare (kind : ScopeError) (name type : string) : Pass :=
  fun sc =>
    match sc with
    | [] => ([], [])
    | symbols :: parent =>
        if in_scope name symbols
        then ([(kind, name)], symbols :: parent)
        else ([], <[name := type]> symbols :: parent)
    end.

(** "Resolves the name against the current scope chain; absence yields
    [UndeclaredVariable]." *)
Definition spec_resolve (name : string) : Pass :=
  fun sc =>
    if decide (find name sc = "")
    then ([(UndeclaredVariable, name)], sc)
    else ([], sc).

(** "Resolves [name] against the global scope only and requires its
    bound type to equal "function"; mismatch or absence yields
    [UndefinedFunction]." *)
Definition spec_call (name : string) : Pass :=
  fun sc =>
    if decide (List.last sc ∅ !! name = Some "function")
    then ([], sc)
    else ([(UndefinedFunction, name)], sc).

(** The generic recursive node check, kind by kind. *)
Fixpoint spec_node_nonnull (node : ASTNode) : Pass :=
  let ptr (p : option ASTNode) : Pass :=
    match p with
    | None => spec_skip
    | Some n => spec_node_nonnull n
    end in
  match node with
  | BlockNode statements => spec_scoped (spec_each ptr statements)
  | VariableNode type name value =>
      spec_then (spec_declare VariableRedefined name type) (ptr value)
  | CallNode name args => spec_then (spec_call name) (spec_each ptr args)
  | NameNode name => spec_resolve name
  | AssignmentNode name value => spec_then (ptr value) (spec_resolve name)
  | ReturnNode value => ptr value
  | IfNode c t e => spec_then (ptr c) (spec_then (ptr t) (ptr e))
  | WhileNode c b => spec_then (ptr c) (ptr b)
  | ForNode i c n b =>
      spec_scoped
        (spec_then (ptr i) (spec_then (ptr c) (spec_then (ptr n) (ptr b))))
  | BinaryOpNode _ lhs rhs => spec_then (ptr lhs) (ptr rhs)
  | LiteralNode _ _ => spec_skip
  | OtherNode => spec_skip
  end.

Definition spec_node (p : option ASTNode) : Pass :=
  match p with
  | None => spec_skip
  | Some n => spec_node_nonnull n
  end.

(** Phase 2 for one function: a new scope, the parameters, the body. *)
Definition spec_function (func : FunctionNode) : Pass :=
  spec_scoped
    (spec_then
       (spec_each
          (fun param =>
             spec_declare VariableRedefined (var_name param) (var_type param))
          (params func))
       (spec_node (body func))).

(** The four loops of the three phases, each over its sequence in
    declaration order. *)
Definition spec_globals (program : ProgramNode) : Pass :=
  spec_each
    (fun var => spec_declare VariableRedefined (var_name var) (var_type var))
    (globals program).

Definition spec_functions (program : ProgramNode) : Pass :=
  spec_each
    (fun func => spec_declare FunctionRedefined (fn_name func) "function")
    (functions program).

Definition spec_bodies (program : ProgramNode) : Pass :=
  spec_each spec_function (functions program).

Definition spec_initializers (program : ProgramNode) : Pass :=
  spec_each (fun var => spec_node (var_value var)) (globals program).

Definition spec_program (program : ProgramNode) : Pass :=
  spec_then (spec_globals program)
    (spec_then (spec_functions program)
       (spec_then (spec_bodies program) (spec_initializers program))).

(** Every fault of a program, in the order of the specification,
    starting from the empty global scope. *)
Definition expected_faults (program : ProgramNode) : list Fault :=
  (spec_program program [∅]).1.

(** The analyzer [s] after the faults [found] have been recorded and
    printed and the scopes have become [sc]. *)
Definition recorded (found : list Fault) (sc : Scope) (s : ScopeAnalyzer)
  : ScopeAnalyzer :=
  {| errors := errors s ++ found.*1;
     current := sc;
     cout := cout s ++ (line <$> found) |}.

(** The code [f] does what the pass [p] says: from every analyzer with
    a current scope it records and prints exactly the faults of [p], in
    order, after what was there, and ends in the scopes of [p]. *)
Definition implements (f : ScopeAnalyzer → ScopeAnalyzer) (p : Pass) : Prop :=
  ∀ s, current s ≠ [] →
    f s = recorded (p (current s)).1 (p (current s)).2 s.

(** [if (c) { int a = u; } else { v(); }  w = 1;] with [u], [v] and [w]
    undeclared: faults in the condition, both branches and the
    statement after them. *)
Definition faults_everywhere : ProgramNode :=
  {| functions :=
       [mkFunction "void" "main" [mkVar "int" "c" None; mkVar "int" "c" None]
          (Some (BlockNode
             [Some (IfNode (Some (BinaryOpNode "<" (Some (NameNode "c"))
                                    (Some (NameNode "d"))))
                      (Some (BlockNode
                         [Some (VariableNode "int" "a" (Some (NameNode "u")))]))
                      (Some (BlockNode [Some (CallNode "v" [])])));
              Some (AssignmentNode "w" (Some (LiteralNode "int" "1")))]))];
     globals := [mkVar "int" "g" None; mkVar "int" "g" (Some (NameNode "h"))] |}.

(** ** The call stack and the work of a run

    [check_node] and [Scope::find] call themselves: [check_node] once
    per level of the tree, [find] once per scope of the chain.  The
    definitions below run the analyzer as the source does while
    keeping account of both: [frames] is the number of nested calls of
    [check], [check_function], [check_node] and [find] that the call
    stack can still hold, and the number returned with the analyzer is
    the number of calls of these four functions that were made.  A run
    that needs a call when no frame is left is [None]: the stack
    overflows and nothing is returned.  (The calls that do not recurse,
    [add], [in_scope], [error], [enter_scope] and [leave_scope], take
    one more frame at most at any time and are not counted.) *)

Definition Run : Type := ScopeAnalyzer → option (ScopeAnalyzer * nat).

(** A step that calls none of the four functions. *)
Definition run_pure (f : ScopeAnalyzer → ScopeAnalyzer) : Run :=
  fun s => Some (f s, 0).

Definition run_then (c1 c2 : Run) : Run :=
  fun s =>
    match c1 s with
    | None => None
    | Some (s1, n1) =>
        match c2 s1 with
        | None => None
        | Some (s2, n2) => Some (s2, n1 + n2)
        end
    end.

Definition run_each {A : Type} (c : A → Run) : list A → Run :=
  fix each (l : list A) : Run :=
    match l with
    | [] => run_pure (fun s => s)
    | a :: l' => run_then (c a) (each l')
    end.

(** [Scope::find] on the chain [sc], with the number of its calls: one
    for the scope itself, and those of [parent->find] if the name is
    not there and there is a parent. *)
Fixpoint find_run (name : string) (sc : Scope) (frames : nat)
  : option (string * nat) :=
  match sc with
  | [] => Some ("", 0)
  | symbols :: parent =>
      match frames with
      | 0 => None
      | S frames' =>
          match symbols !! name with
          | Some type => Some (type, 1)
          | None =>
              match find_run name parent frames' with
              | None => None
              | Some (type, n) => Some (type, S n)
              end
          end
      end
  end.

(** The test of a [NameNode] or of the target of an [AssignmentNode],
    and the test of a [CallNode]. *)
Definition run_resolve (frames : nat) (name : string) : Run :=
  fun s =>
    match find_run name (current s) frames with
    | None => None
    | Some (type, n) =>
        Some (if decide (type = "")
              then error UndeclaredVariable name s
              else s, n)
    end.

Definition run_resolve_call (frames : nat) (name : string) : Run :=
  fun s =>
    match find_run name [global s] frames with
    | None => None
    | Some (type, n) =>
        Some (if decide (type = "function")
              then s
              else error UndefinedFunction name s, n)
    end.

(** The body of [check_node] for a node that is not null, when
    [frames] nested calls can still be made from it.  [call] is
    [check_node(p.get())], which takes a frame also when [p] is null;
    [guarded] is the same behind [if (p)]. *)
Fixpoint check_node_run_nonnull (node : ASTNode) (frames : nat) : Run :=
  let call (p : option ASTNode) : Run :=
    fun s =>
      match frames with
      | 0 => None
      | S frames' =>
          match p with
          | None => Some (s, 1)
          | Some n =>
              match check_node_run_nonnull n frames' s with
              | None => None
              | Some (s', c) => Some (s', S c)
              end
          end
      end in
  let guarded (p : option ASTNode) : Run :=
    match p with
    | None => run_pure (fun s => s)
    | Some _ => call p
    end in
  match node with
  | BlockNode statements =>
      run_then (run_pure enter_scope)
        (run_then (run_each call statements) (run_pure leave_scope))
  | VariableNode type name value =>
      run_then
        (run_pure (fun s => if current_in_scope name s
                            then error VariableRedefined name s
                            else (current_add name type s).2))
        (guarded value)
  | CallNode name args =>
      run_then (run_resolve_call frames name) (run_each call args)
  | NameNode name => run_resolve frames name
  | AssignmentNode name value =>
      run_then (call value) (run_resolve frames name)
  | ReturnNode value => guarded value
  | IfNode c t e => run_then (call c) (run_then (call t) (guarded e))
  | WhileNode c b => run_then (call c) (call b)
  | ForNode i c n b =>
      run_then (run_pure enter_scope)
        (run_then (guarded i)
           (run_then (guarded c)
              (run_then (guarded n)
                 (run_then (guarded b) (run_pure leave_scope)))))
  | BinaryOpNode _ lhs rhs => run_then (call lhs) (call rhs)
  | LiteralNode _ _ => run_pure (fun s => s)
  | OtherNode => run_pure (fun s => s)
  end.

(** A call of [check_node] when [frames] frames are left. *)
Definition check_node_run (p : option ASTNode) (frames : nat) : Run :=
  fun s =>
    match frames with
    | 0 => None
    | S frames' =>
        match p with
        | None => Some (s, 1)
        | Some n =>
            match check_node_run_nonnull n frames' s with
            | None => None
            | Some (s', c) => Some (s', S c)
            end
        end
    end.

Definition check_node_run_guarded (p : option ASTNode) (frames : nat) : Run :=
  match p with
  | None => run_pure (fun s => s)
  | Some _ => check_node_run p frames
  end.

(** A call of [check_function]. *)
Definition check_function_run (func : FunctionNode) (frames : nat) : Run :=
  fun s =>
    match frames with
    | 0 => None
    | S frames' =>
        match run_then (run_pure enter_scope)
                (run_then (run_pure (fold_left declare_param (params func)))
                   (run_then (check_node_run_guarded (body func) frames')
                      (run_pure leave_scope))) s with
        | None => None
        | Some (s', c) => Some (s', S c)
        end
    end.

(** A call of [check]: the flag, the analyzer and the number of calls,
    or nothing if the stack did not hold. *)
Definition check_run (program : ProgramNode) (frames : nat) (s : ScopeAnalyzer)
  : option (bool * ScopeAnalyzer * nat) :=
  match frames with
  | 0 => None
  | S frames' =>
      match run_then (run_pure (phase1 program))
              (run_then
                 (run_each (fun func => check_function_run func frames')
                    (functions program))
                 (run_each
                    (fun var => check_node_run_guarded (var_value var) frames')
                    (globals program))) s with
      | None => None
      | Some (s', c) => Some (passed s', s', S c)
      end
  end.

(** The height of the tree under a pointer: one for the pointer, null
    or not, and the height of the tallest pointer its node owns. *)
Fixpoint ast_height_nonnull (node : ASTNode) : nat :=
  let ptr (p : option ASTNode) : nat :=
    S (match p with
       | None => 0
       | Some n => ast_height_nonnull n
       end) in
  match node with
  | VariableNode _ _ value => ptr value
  | BlockNode statements => max_list_with ptr statements
  | CallNode _ args => max_list_with ptr args
  | NameNode _ => 0
  | LiteralNode _ _ => 0
  | BinaryOpNode _ lhs rhs => Nat.max (ptr lhs) (ptr rhs)
  | AssignmentNode _ value => ptr value
  | ReturnNode value => ptr value
  | IfNode c t e => Nat.max (Nat.max (ptr c) (ptr t)) (ptr e)
  | WhileNode c b => Nat.max (ptr c) (ptr b)
  | ForNode i c n b =>
      Nat.max (Nat.max (Nat.max (ptr i) (ptr c)) (ptr n)) (ptr b)
  | OtherNode => 0
  end.

Definition ast_height (p : option ASTNode) : nat :=
  S (match p with
     | None => 0
     | Some n => ast_height_nonnull n
     end).

Definition program_height (program : ProgramNode) : nat :=
  Nat.max
    (max_list_with (fun func => ast_height (body func)) (functions program))
    (max_list_with (fun var => ast_height (var_value var)) (globals program)).

(** A run from [s] returns [s'] after at most [bound] calls. *)
Definition returns (c : Run) (s s' : ScopeAnalyzer) (bound : nat) : Prop :=
  ∃ n, c s = Some (s', n) ∧ n ≤ bound.

(** What a call of [check_node] needs and costs: it returns what
    [check_node] returns if the stack holds twice the height of the
    tree plus the length of the scope chain, after at most one call per
    pointer of the tree and one walk of [find] for each. *)
Definition within (p : option ASTNode) : Prop :=
  ∀ frames s W,
    2 * ast_height p + length (current s) ≤ frames →
    length (current s) + ast_height p ≤ W →
    returns (check_node_run p frames) s (check_node p s) (ast_size p * S W).

(** [n + 1] blocks, one inside the other, as the body of a function. *)
Fixpoint nested_blocks (n : nat) : ASTNode :=
  match n with
  | 0 => BlockNode []
  | S n' => BlockNode [Some (nested_blocks n')]
  end.

Definition deep_program (n : nat) : ProgramNode :=
  {| functions := [mkFunction "void" "deep" [] (Some (nested_blocks n))];
     globals := [] |}.

(** Three names read inside three blocks, none of them declared. *)
Definition reads_in_depth : ProgramNode :=
  {| functions :=
       [mkFunction "void" "f" []
          (Some (BlockNode [Some (BlockNode [Some (BlockNode
             [Some (NameNode "a"); Some (NameNode "b");
              Some (NameNode "c")])])]))];
     globals := [] |}.

(** [depth + 1] blocks, one inside the other, around [reads]. *)
Fixpoint reads_under (depth : nat) (reads : list (option ASTNode)) : ASTNode :=
  match depth with
  | 0 => BlockNode reads
  | S depth' => BlockNode [Some (reads_under depth' reads)]
  end.

(** A global [x], and a function that reads it [n] times inside
    [n + 1] blocks. *)
Definition deep_reads (n : nat) : ProgramNode :=
  {| functions :=
       [mkFunction "void" "f" []
          (Some (reads_under n (replicate n (Some (NameNode "x")))))];
     globals := [mkVar "int" "x" None] |}.
(** ** Reasoning principles *)

(** Induction over a node pointer: the null pointer, and each kind of
    node given the property of the pointers it owns. *)
Section ASTNode_pointer_induction.
Variable Q : option ASTNode → Prop.
Hypothesis Hnull : Q None.
Hypothesis Hvariable : ∀ type name value,
    Q value → Q (Some (VariableNode type name value)).
Hypothesis Hblock : ∀ statements,
    Forall Q statements → Q (Some (BlockNode statements)).
Hypothesis Hcall : ∀ name args,
    Forall Q args → Q (Some (CallNode name args)).
Hypothesis Hname : ∀ name, Q (Some (NameNode name)).
Hypothesis Hliteral : ∀ type value, Q (Some (LiteralNode type value)).
Hypothesis Hbinary : ∀ op lhs rhs,
    Q lhs → Q rhs → Q (Some (BinaryOpNode op lhs rhs)).
Hypothesis Hassignment : ∀ name value,
    Q value → Q (Some (AssignmentNode name value)).
Hypothesis Hreturn : ∀ value, Q value → Q (Some (ReturnNode value)).
Hypothesis Hif : ∀ c t e, Q c → Q t → Q e → Q (Some (IfNode c t e)).
Hypothesis Hwhile : ∀ c b, Q c → Q b → Q (Some (WhileNode c b)).
Hypothesis Hfor : ∀ i c n b,
    Q i → Q c → Q n → Q b → Q (Some (ForNode i c n b)).
Hypothesis Hother : Q (Some OtherNode).

Fixpoint ASTNode_nonnull_ind (node : ASTNode) : Q (Some node) :=
  let ptr (p : option ASTNode) : Q p :=
    match p return Q p with
    | None => Hnull
    | Some n => ASTNode_nonnull_ind n
    end in
  let ptrs :=
    fix ptrs (l : list (option ASTNode)) : Forall Q l :=
      match l return Forall Q l with
      | [] => List.Forall_nil Q
      | p :: l' => List.Forall_cons Q p l' (ptr p) (ptrs l')
      end in
  match node with
  | VariableNode type name value => Hvariable type name value (ptr value)
  | BlockNode statements => Hblock statements (ptrs statements)
  | CallNode name args => Hcall name args (ptrs args)
  | NameNode name => Hname name
  | LiteralNode type value => Hliteral type value
  | BinaryOpNode op lhs rhs => Hbinary op lhs rhs (ptr lhs) (ptr rhs)
  | AssignmentNode name value => Hassignment name value (ptr value)
  | ReturnNode value => Hreturn value (ptr value)
  | IfNode c t e => Hif c t e (ptr c) (ptr t) (ptr e)
  | WhileNode c b => Hwhile c b (ptr c) (ptr b)
  | ForNode i c n b => Hfor i c n b (ptr i) (ptr c) (ptr n) (ptr b)
  | OtherNode => Hother
  end.

Lemma ASTNode_pointer_ind (p : option ASTNode) : Q p.
Proof. destruct p; [apply ASTNode_nonnull_ind | exact Hnull]. Qed.
End ASTNode_pointer_induction.

(** The defining equations of [check_node], one per cast. *)
Section check_node_equations.
Variable s : ScopeAnalyzer.

Lemma check_node_null : check_node None s = s.
Proof. reflexivity. Qed.

Lemma check_node_block statements :
  check_node (Some (BlockNode statements)) s =
  leave_scope
    (fold_left (fun s stmt => check_node stmt s) statements (enter_scope s)).
Proof. reflexivity. Qed.

Lemma check_node_variable type name value :
  check_node (Some (VariableNode type name value)) s =
  check_node value
    (if current_in_scope name s
     then error VariableRedefined name s
     else snd (current_add name type s)).
Proof. reflexivity. Qed.

Lemma check_node_call name args :
  check_node (Some (CallNode name args)) s =
  fold_left (fun s arg => check_node arg s) args
    (if decide (find name [global s] = "function")
     then s
     else error UndefinedFunction name s).
Proof. reflexivity. Qed.

Lemma check_node_name name :
  check_node (Some (NameNode name)) s =
  if decide (find name (current s) = "")
  then error UndeclaredVariable name s
  else s.
Proof. reflexivity. Qed.

Lemma check_node_assignment name value :
  check_node (Some (AssignmentNode name value)) s =
  if decide (find name (current (check_node value s)) = "")
  then error UndeclaredVariable name (check_node value s)
  else check_node value s.
Proof. reflexivity. Qed.

Lemma check_node_return value :
  check_node (Some (ReturnNode value)) s = check_node value s.
Proof. reflexivity. Qed.

Lemma check_node_if c t e :
  check_node (Some (IfNode c t e)) s =
  check_node e (check_node t (check_node c s)).
Proof. reflexivity. Qed.

Lemma check_node_while c b :
  check_node (Some (WhileNode c b)) s = check_node b (check_node c s).
Proof. reflexivity. Qed.

Lemma check_node_for i c n b :
  check_node (Some (ForNode i c n b)) s =
  leave_scope
    (check_node b (check_node n (check_node c (check_node i (enter_scope s))))).
Proof. reflexivity. Qed.

Lemma check_node_binary op lhs rhs :
  check_node (Some (BinaryOpNode op lhs rhs)) s =
  check_node rhs (check_node lhs s).
Proof. reflexivity. Qed.

Lemma check_node_literal type value :
  check_node (Some (LiteralNode type value)) s = s.
Proof. reflexivity. Qed.

Lemma check_node_other : check_node (Some OtherNode) s = s.
Proof. reflexivity. Qed.
End check_node_equations.

Create Rewrite HintDb check_node_eq.
#[global] Hint Rewrite check_node_null check_node_block check_node_variable
  check_node_call check_node_name check_node_assignment check_node_return
  check_node_if check_node_while check_node_for check_node_binary
  check_node_literal check_node_other : check_node_eq.

(** Induction over a node pointer, with [check_node] unfolded one step
    in every case. *)
Ltac node_induction p :=
  induction p as
    [ | type name value IHvalue | statements IHstatements
    | name args IHargs | name | type value
    | op lhs rhs IHlhs IHrhs | name value IHvalue | value IHvalue
    | cond thn els IHcond IHthn IHels | cond body IHcond IHbody
    | init cond incr body IHinit IHcond IHincr IHbody | ]
    using ASTNode_pointer_ind;
  intros; autorewrite with check_node_eq.

(** A loop keeps what each of its turns keeps. *)
Lemma fold_left_preserves {A : Type} (R : relation ScopeAnalyzer)
    `{!PreOrder R} (step : ScopeAnalyzer → A → ScopeAnalyzer) (l : list A) :
  Forall (fun a => ∀ s, R s (step s a)) l →
  ∀ s, R s (fold_left step l s).
Proof.
  induction 1 as [|a l Ha _ IH]; intros s; simpl.
  - reflexivity.
  - etransitivity; [apply Ha | apply IH].
Qed.

(** ** The scope chain is a stack *)

#[global] Instance extends_preorder : PreOrder extends.
Proof.
  split.
  - intros [|c r]; simpl; auto.
  - intros [|c1 r1] [|c2 r2] [|c3 r3]; simpl; try tauto.
    intros [H12 ->] [H23 ->]. split; [by etrans | done].
Qed.

#[global] Instance chain_extends_preorder : PreOrder chain_extends.
Proof.
  split.
  - intros s. unfold chain_extends. reflexivity.
  - intros s1 s2 s3. unfold chain_extends. apply transitivity.
Qed.

Lemma add_subseteq name type symbols : symbols ⊆ snd (add name type symbols).
Proof.
  unfold add. destruct (symbols !! name) eqn:E; simpl.
  - done.
  - by apply insert_subseteq.
Qed.

Lemma chain_extends_error err name s : chain_extends s (error err name s).
Proof. unfold chain_extends. simpl. reflexivity. Qed.

Lemma chain_extends_current_add name type s :
  chain_extends s (snd (current_add name type s)).
Proof.
  unfold chain_extends, current_add.
  destruct (current s) as [|c r] eqn:E.
  - simpl. by rewrite E.
  - pose proof (add_subseteq name type c) as Hsub.
    destruct (add name type c) as [ok c']. simpl in *. done.
Qed.

(** Leaving a scope that was entered gives back the chain one had. *)
Lemma chain_extends_scoped s s' :
  chain_extends (enter_scope s) s' → chain_extends s (leave_scope s').
Proof.
  unfold chain_extends. simpl.
  destruct (current s') as [|c' r']; simpl; [done|].
  intros [_ ->]. reflexivity.
Qed.

Lemma scoped_current s s' :
  chain_extends (enter_scope s) s' → current (leave_scope s') = current s.
Proof.
  unfold chain_extends. simpl.
  destruct (current s') as [|c' r']; simpl; [done|]. by intros [_ ->].
Qed.

(** [check_node] leaves the chain as it found it, but for the names it
    declared in the current scope. *)
Lemma check_node_chain (node : option ASTNode) :
  ∀ s, chain_extends s (check_node node s).
Proof.
  node_induction node; try reflexivity; auto.
  - etransitivity; [|apply IHvalue].
    destruct (current_in_scope name s).
    + apply chain_extends_error.
    + apply chain_extends_current_add.
  - apply chain_extends_scoped. by apply (fold_left_preserves chain_extends).
  - etransitivity; [|by apply (fold_left_preserves chain_extends)].
    destruct (decide _); [reflexivity | apply chain_extends_error].
  - destruct (decide _); [apply chain_extends_error | reflexivity].
  - etransitivity; [apply IHlhs | apply IHrhs].
  - destruct (decide _); [|apply IHvalue].
    etransitivity; [apply IHvalue | apply chain_extends_error].
  - etransitivity; [apply IHcond |]. etransitivity; [apply IHthn | apply IHels].
  - etransitivity; [apply IHcond | apply IHbody].
  - apply chain_extends_scoped.
    etransitivity; [apply IHinit |]. etransitivity; [apply IHcond |].
    etransitivity; [apply IHincr | apply IHbody].
Qed.

(** ** Errors are appended, kind and line together *)

Lemma emits_upto_refl s : emits_upto 0 s s.
Proof. exists []. simpl. by rewrite !app_nil_r. Qed.

Lemma emits_upto_trans k1 k2 s1 s2 s3 :
  emits_upto k1 s1 s2 → emits_upto k2 s2 s3 → emits_upto (k1 + k2) s1 s3.
Proof.
  intros (ev1 & Hl1 & He1 & Ho1) (ev2 & Hl2 & He2 & Ho2).
  exists (ev1 ++ ev2). rewrite length_app, !fmap_app, !app_assoc.
  rewrite He2, He1, Ho2, Ho1. split; [lia | done].
Qed.

Lemma emits_upto_weaken k k' s s' :
  k ≤ k' → emits_upto k s s' → emits_upto k' s s'.
Proof. intros Hk (evs & Hl & H). exists evs. split; [lia | done]. Qed.

Lemma emits_upto_error err name s : emits_upto 1 s (error err name s).
Proof. by exists [(err, name)]. Qed.

Lemma emits_upto_enter_scope s : emits_upto 0 s (enter_scope s).
Proof. exists []. simpl. by rewrite !app_nil_r. Qed.

Lemma emits_upto_leave_scope s : emits_upto 0 s (leave_scope s).
Proof. exists []. simpl. by rewrite !app_nil_r. Qed.

Lemma emits_upto_current_add name type s :
  emits_upto 0 s (snd (current_add name type s)).
Proof.
  unfold current_add. destruct (current s); [apply emits_upto_refl|].
  destruct (add name type g). exists []. simpl. by rewrite !app_nil_r.
Qed.

Lemma emits_upto_global_add name type s :
  emits_upto 0 s (snd (global_add name type s)).
Proof. exists []. simpl. by rewrite !app_nil_r. Qed.

(** Composition with the bound left to be settled by arithmetic. *)
Lemma emits_upto_step k1 k2 k s1 s2 s3 :
  emits_upto k1 s1 s2 → emits_upto k2 s2 s3 → k1 + k2 ≤ k →
  emits_upto k s1 s3.
Proof.
  intros H1 H2 Hk. eapply emits_upto_weaken; [exact Hk|].
  by eapply emits_upto_trans.
Qed.

Lemma fold_left_emits {A : Type} (w : A → nat)
    (step : ScopeAnalyzer → A → ScopeAnalyzer) (l : list A) :
  Forall (fun a => ∀ s, emits_upto (w a) s (step s a)) l →
  ∀ s, emits_upto (sum_list_with w l) s (fold_left step l s).
Proof.
  induction 1 as [|a l Ha _ IH]; intros s; simpl.
  - apply emits_upto_refl.
  - eapply emits_upto_trans; [apply Ha | apply IH].
Qed.

(** Each call of [check_node] reports at most one error per node. *)
Lemma check_node_emits (node : option ASTNode) :
  ∀ s, emits_upto (ast_size node) s (check_node node s).
Proof.
  node_induction node; unfold ast_size in *; simpl.
  - eapply emits_upto_weaken; [|apply emits_upto_refl]. lia.
  - eapply emits_upto_step; [|apply IHvalue|].
    + destruct (current_in_scope name s);
        [apply emits_upto_error
        | eapply emits_upto_weaken; [|apply emits_upto_current_add]; lia].
    + unfold ast_size. lia.
  - eapply emits_upto_step; [apply emits_upto_enter_scope| |].
    + eapply emits_upto_step;
        [apply (fold_left_emits ast_size); exact IHstatements
        | apply emits_upto_leave_scope | reflexivity].
    + unfold ast_size. lia.
  - eapply emits_upto_step; [|apply (fold_left_emits ast_size); exact IHargs|].
    + destruct (decide _);
        [eapply emits_upto_weaken; [|apply emits_upto_refl]; lia
        | apply emits_upto_error].
    + unfold ast_size. lia.
  - destruct (decide _);
      [apply emits_upto_error
      | eapply emits_upto_weaken; [|apply emits_upto_refl]; lia].
  - eapply emits_upto_weaken; [|apply emits_upto_refl]. lia.
  - eapply emits_upto_step; [apply IHlhs | apply IHrhs |].
    unfold ast_size. lia.
  - destruct (decide _).
    + eapply emits_upto_step; [apply IHvalue | apply emits_upto_error |].
      unfold ast_size. lia.
    + eapply emits_upto_weaken; [|apply IHvalue]. unfold ast_size. lia.
  - eapply emits_upto_weaken; [|apply IHvalue]. unfold ast_size. lia.
  - eapply emits_upto_step; [apply IHcond | |].
    + eapply emits_upto_trans; [apply IHthn | apply IHels].
    + unfold ast_size. lia.
  - eapply emits_upto_step; [apply IHcond | apply IHbody |].
    unfold ast_size. lia.
  - eapply emits_upto_step; [apply emits_upto_enter_scope| |].
    + eapply emits_upto_step; [|apply emits_upto_leave_scope|reflexivity].
      eapply emits_upto_trans; [apply IHinit|].
      eapply emits_upto_trans; [apply IHcond|].
      eapply emits_upto_trans; [apply IHincr | apply IHbody].
    + unfold ast_size. lia.
  - eapply emits_upto_weaken; [|apply emits_upto_refl]. lia.
Qed.

(** ** What was recorded before does not matter to what comes after *)

Lemma with_log_quiet s : with_log (errors s) (cout s) (quiet s) = s.
Proof. destruct s. unfold with_log, quiet. simpl. by rewrite !app_nil_r. Qed.

Lemma error_frame e o err name s :
  error err name (with_log e o s) = with_log e o (error err name s).
Proof. unfold error, with_log. simpl. by rewrite !app_assoc. Qed.

Lemma enter_scope_frame e o s :
  enter_scope (with_log e o s) = with_log e o (enter_scope s).
Proof. reflexivity. Qed.

Lemma leave_scope_frame e o s :
  leave_scope (with_log e o s) = with_log e o (leave_scope s).
Proof. reflexivity. Qed.

Lemma current_add_frame e o name type s :
  current_add name type (with_log e o s) =
  ((current_add name type s).1, with_log e o (current_add name type s).2).
Proof.
  unfold current_add. simpl. destruct (current s); [done|].
  by destruct (add name type g).
Qed.

Lemma global_add_frame e o name type s :
  global_add name type (with_log e o s) =
  ((global_add name type s).1, with_log e o (global_add name type s).2).
Proof. reflexivity. Qed.

Lemma fold_left_frame {A : Type} e o
    (step : ScopeAnalyzer → A → ScopeAnalyzer) (l : list A) :
  Forall (fun a => ∀ s, step (with_log e o s) a = with_log e o (step s a)) l →
  ∀ s, fold_left step l (with_log e o s) = with_log e o (fold_left step l s).
Proof.
  induction 1 as [|a l Ha _ IH]; intros s; simpl; [done|].
  by rewrite Ha, IH.
Qed.

Lemma check_node_frame e o (node : option ASTNode) :
  ∀ s, check_node node (with_log e o s) = with_log e o (check_node node s).
Proof.
  node_induction node; try done.
  - rewrite <- IHvalue. f_equal.
    change (current_in_scope name (with_log e o s))
      with (current_in_scope name s).
    destruct (current_in_scope name s).
    + apply error_frame.
    + by rewrite current_add_frame.
  - rewrite enter_scope_frame, fold_left_frame by done.
    apply leave_scope_frame.
  - change (global (with_log e o s)) with (global s).
    destruct (decide _).
    + by apply fold_left_frame.
    + rewrite error_frame. by apply fold_left_frame.
  - simpl. destruct (decide _); [apply error_frame | done].
  - by rewrite IHlhs, IHrhs.
  - rewrite IHvalue. simpl.
    destruct (decide _); [apply error_frame | done].
  - by rewrite IHcond, IHthn, IHels.
  - by rewrite IHcond, IHbody.
  - by rewrite enter_scope_frame, IHinit, IHcond, IHincr, IHbody.
Qed.

Lemma declare_param_frame e o s param :
  declare_param (with_log e o s) param = with_log e o (declare_param s param).
Proof.
  unfold declare_param. rewrite current_add_frame.
  destruct (current_add _ _ s) as [[] s']; simpl; [done | apply error_frame].
Qed.

Lemma check_function_frame e o func s :
  check_function func (with_log e o s) = with_log e o (check_function func s).
Proof.
  unfold check_function.
  rewrite enter_scope_frame, fold_left_frame, check_node_frame.
  - apply leave_scope_frame.
  - apply Forall_forall. intros. apply declare_param_frame.
Qed.

Lemma declare_global_frame e o s var :
  declare_global (with_log e o s) var = with_log e o (declare_global s var).
Proof.
  unfold declare_global. rewrite global_add_frame.
  destruct (global_add _ _ s) as [[] s']; simpl; [done | apply error_frame].
Qed.

Lemma declare_function_frame e o s func :
  declare_function (with_log e o s) func =
  with_log e o (declare_function s func).
Proof.
  unfold declare_function. rewrite global_add_frame.
  destruct (global_add _ _ s) as [[] s']; simpl; [done | apply error_frame].
Qed.

(** The errors after a loop are the errors before it followed by the
    segment of each of its turns, in order. *)
Lemma fold_left_segments {A : Type}
    (step : ScopeAnalyzer → A → ScopeAnalyzer) (l : list A) :
  (∀ e o s a, step (with_log e o s) a = with_log e o (step s a)) →
  ∀ s, errors (fold_left step l s) = errors s ++ concat (segments step l s).
Proof.
  intros Hframe. induction l as [|a l IH]; intros s; simpl.
  - by rewrite app_nil_r.
  - rewrite IH, app_assoc. f_equal.
    rewrite <- (with_log_quiet s) at 1. by rewrite Hframe.
Qed.

(** ** The global scope *)

Lemma extends_last sc sc' : extends sc sc' → List.last sc ∅ ⊆ List.last sc' ∅.
Proof.
  destruct sc as [|c r], sc' as [|c' r']; simpl; try done.
  intros [Hsub ->]. by destruct r.
Qed.

Lemma global_mono s s' : chain_extends s s' → global s ⊆ global s'.
Proof. apply extends_last. Qed.

(** A binding of the global scope stays what it is during [check_node]. *)
Lemma global_kept f t node s :
  global s !! f = Some t → global (check_node node s) !! f = Some t.
Proof.
  intros Hf. eapply lookup_weaken; [exact Hf|].
  apply global_mono, check_node_chain.
Qed.

Lemma global_non_null s f t : global s !! f = Some t → current s ≠ [].
Proof. unfold global. by destruct (current s). Qed.

Lemma global_enter_scope s : current s ≠ [] → global (enter_scope s) = global s.
Proof. unfold global. simpl. by destruct (current s). Qed.

Lemma find_global name s :
  find name [global s] = default "" (global s !! name).
Proof. simpl. by destruct (global s !! name). Qed.

Lemma on_global_last f sc :
  sc ≠ [] → List.last (on_global f sc) ∅ = f (List.last sc ∅).
Proof.
  induction sc as [|c r IH]; [done|]. intros _.
  destruct r as [|c' r]; [done|].
  change (on_global f (c :: c' :: r)) with (c :: on_global f (c' :: r)).
  change (List.last (c :: c' :: r) ∅) with (List.last (c' :: r) ∅).
  rewrite <- IH by done. simpl. by destruct r.
Qed.

Lemma on_global_non_null f sc : sc ≠ [] → on_global f sc ≠ [].
Proof. destruct sc as [|c [|c' r]]; done. Qed.

Lemma global_add_global name type s :
  current s ≠ [] →
  global (global_add name type s).2 = (add name type (global s)).2.
Proof. intros H. unfold global. simpl. by rewrite on_global_last. Qed.

Lemma global_add_non_null name type s :
  current s ≠ [] → current (global_add name type s).2 ≠ [].
Proof. intros H. simpl. by apply on_global_non_null. Qed.

Lemma add_lookup name type symbols x :
  (add name type symbols).2 !! x =
  match symbols !! x with
  | Some t => Some t
  | None => if decide (name = x) then Some type else None
  end.
Proof.
  unfold add. destruct (symbols !! name) eqn:E; simpl.
  - destruct (symbols !! x) eqn:Ex; [done|].
    destruct (decide (name = x)) as [->|]; [congruence | done].
  - rewrite lookup_insert. destruct (decide (name = x)) as [->|]; simpl.
    + by rewrite E.
    + by destruct (symbols !! x).
Qed.

(** ** Lines of the output *)

Lemma line_inj ev1 ev2 : line ev1 = line ev2 → ev1 = ev2.
Proof.
  destruct ev1 as [[] n1], ev2 as [[] n2];
    intros H; cbv in H; inversion H; reflexivity.
Qed.

Lemma count_line_app l out1 out2 :
  count_line l (out1 ++ out2) = count_line l out1 + count_line l out2.
Proof. unfold count_line. by rewrite filter_app, length_app. Qed.

Lemma count_line_error l err name s :
  count_line l (cout (error err name s)) =
  count_line l (cout s) + (if decide (line (err, name) = l) then 1 else 0).
Proof.
  simpl. rewrite count_line_app. f_equal.
  unfold count_line. change ("Error: " +:+ msg err name) with (line (err, name)).
  destruct (decide (line (err, name) = l)).
  - by rewrite filter_cons_True.
  - by rewrite filter_cons_False.
Qed.

Lemma count_line_zero l out : count_line l out = 0 ↔ l ∉ out.
Proof.
  unfold count_line. induction out as [|x out IH]; simpl.
  - split; [intros _; apply not_elem_of_nil | done].
  - rewrite not_elem_of_cons. destruct (decide (x = l)) as [->|Hne].
    + rewrite filter_cons_True by done. simpl. split; [lia | tauto].
    + rewrite filter_cons_False by done. rewrite IH. split; [auto | tauto].
Qed.

(** A loop adds up what its turns add, as long as each turn keeps the
    invariant [I]. *)
Lemma fold_left_measure {A : Type} (I : ScopeAnalyzer → Prop)
    (m : ScopeAnalyzer → nat) (w : A → nat)
    (step : ScopeAnalyzer → A → ScopeAnalyzer) (l : list A) :
  Forall (fun a => ∀ s, I s → I (step s a) ∧ m (step s a) = m s + w a) l →
  ∀ s, I s →
    I (fold_left step l s) ∧
    m (fold_left step l s) = m s + sum_list_with w l.
Proof.
  induction 1 as [|a l Ha _ IH]; intros s Hs; simpl.
  - split; [done | lia].
  - destruct (Ha s Hs) as [Hs' Hm]. destruct (IH _ Hs') as [Hs'' Hm'].
    split; [done | lia].
Qed.

Lemma sum_list_with_scale {A : Type} (c : nat) (g : A → nat) (l : list A) :
  sum_list_with (fun a => c * g a) l = c * sum_list_with g l.
Proof. induction l as [|a l IH]; simpl; [lia | rewrite IH; lia]. Qed.

(** ** Calls against the global scope *)

Lemma undefined_lines_error f err name s :
  (err, name) ≠ (UndefinedFunction, f) →
  undefined_lines f (error err name s) = undefined_lines f s.
Proof.
  intros Hne. unfold undefined_lines. rewrite count_line_error.
  destruct (decide (line (err, name) = line (UndefinedFunction, f))) as [E|];
    [by apply line_inj in E | lia].
Qed.

Lemma undefined_lines_error_self f s :
  undefined_lines f (error UndefinedFunction f s) = S (undefined_lines f s).
Proof.
  unfold undefined_lines. rewrite count_line_error, decide_True by done. lia.
Qed.

Lemma undefined_lines_enter_scope f s :
  undefined_lines f (enter_scope s) = undefined_lines f s.
Proof. reflexivity. Qed.

Lemma undefined_lines_leave_scope f s :
  undefined_lines f (leave_scope s) = undefined_lines f s.
Proof. reflexivity. Qed.

Lemma undefined_lines_current_add f name type s :
  undefined_lines f (current_add name type s).2 = undefined_lines f s.
Proof.
  unfold current_add. destruct (current s); [done|].
  by destruct (add name type g).
Qed.

Lemma global_kept_enter_scope f t s :
  global s !! f = Some t → global (enter_scope s) !! f = Some t.
Proof.
  intros H. rewrite global_enter_scope; [done|]. by eapply global_non_null.
Qed.

Section undefined_function_lines.
Variables (f t : string) (c : nat).
Hypothesis Hc : c = if decide (t = "function") then 0 else 1.

(** While the global scope binds [f] to [t], the lines
    "Undefined function: f" that [check_node] prints are one per call
    of [f] it walks if [t] is not "function", and none if it is. *)
Lemma check_node_undefined (node : option ASTNode) :
  ∀ s, global s !! f = Some t →
    undefined_lines f (check_node node s) =
    undefined_lines f s + c * calls_to f node.
Proof using Hc.
  assert (Hloop : ∀ l : list (option ASTNode),
            Forall (fun p => ∀ s, global s !! f = Some t →
              undefined_lines f (check_node p s) =
              undefined_lines f s + c * calls_to f p) l →
            ∀ s, global s !! f = Some t →
              undefined_lines f (fold_left (fun s p => check_node p s) l s) =
              undefined_lines f s + c * sum_list_with (calls_to f) l).
  { intros l Hl s Hs. rewrite <- sum_list_with_scale.
    apply (fold_left_measure (fun s => global s !! f = Some t)
             (undefined_lines f)); [|done].
    eapply Forall_impl; [exact Hl|]. intros p Hp s' Hs'.
    split; [by apply global_kept | by apply Hp]. }
  node_induction node.
  - simpl. lia.
  - rewrite IHvalue.
    + change (calls_to f (Some (VariableNode type name value)))
        with (calls_to f value).
      destruct (current_in_scope name s);
        [by rewrite undefined_lines_error
        | by rewrite undefined_lines_current_add].
    + by apply (global_kept f t (Some (VariableNode type name None))).
  - rewrite undefined_lines_leave_scope, Hloop, undefined_lines_enter_scope;
      [done..|by apply global_kept_enter_scope].
  - change (calls_to f (Some (CallNode name args)))
      with ((if decide (name = f) then 1 else 0)
            + sum_list_with (calls_to f) args).
    rewrite find_global. destruct (decide (name = f)) as [->|Hne].
    + rewrite H. simpl.
      destruct (decide (t = "function")); subst c.
      * rewrite Hloop by done. lia.
      * rewrite Hloop by done. rewrite undefined_lines_error_self. lia.
    + destruct (decide (default "" (global s !! name) = "function")).
      * rewrite Hloop by done. lia.
      * rewrite Hloop by done.
        rewrite undefined_lines_error by congruence. lia.
  - destruct (decide (find name (current s) = ""));
      [rewrite undefined_lines_error by done|]; simpl; lia.
  - simpl. lia.
  - rewrite IHrhs, IHlhs by (try apply global_kept; done).
    change (calls_to f (Some (BinaryOpNode op lhs rhs)))
      with (calls_to f lhs + calls_to f rhs). lia.
  - change (calls_to f (Some (AssignmentNode name value)))
      with (calls_to f value).
    destruct (decide (find name (current (check_node value s)) = ""));
      [rewrite undefined_lines_error by done|]; by rewrite IHvalue.
  - by rewrite IHvalue.
  - rewrite IHels, IHthn, IHcond by (repeat apply global_kept; done).
    change (calls_to f (Some (IfNode cond thn els)))
      with (calls_to f cond + calls_to f thn + calls_to f els). lia.
  - rewrite IHbody, IHcond by (try apply global_kept; done).
    change (calls_to f (Some (WhileNode cond body)))
      with (calls_to f cond + calls_to f body). lia.
  - rewrite undefined_lines_leave_scope, IHbody, IHincr, IHcond, IHinit
      by (repeat apply global_kept; by apply global_kept_enter_scope).
    rewrite undefined_lines_enter_scope.
    change (calls_to f (Some (ForNode init cond incr body)))
      with (calls_to f init + calls_to f cond + calls_to f incr
            + calls_to f body). lia.
  - simpl. lia.
Qed.
End undefined_function_lines.

(** ** The three phases *)

Lemma declare_global_global s var :
  current s ≠ [] →
  current (declare_global s var) ≠ [] ∧
  global (declare_global s var) =
  (add (var_name var) (var_type var) (global s)).2.
Proof.
  intros H. unfold declare_global.
  pose proof (global_add_global (var_name var) (var_type var) s H) as Hg.
  pose proof (global_add_non_null (var_name var) (var_type var) s H) as Hn.
  destruct (global_add _ _ s) as [[] s']; simpl in *; done.
Qed.

Lemma declare_function_global s func :
  current s ≠ [] →
  current (declare_function s func) ≠ [] ∧
  global (declare_function s func) =
  (add (fn_name func) "function" (global s)).2.
Proof.
  intros H. unfold declare_function.
  pose proof (global_add_global (fn_name func) "function" s H) as Hg.
  pose proof (global_add_non_null (fn_name func) "function" s H) as Hn.
  destruct (global_add _ _ s) as [[] s']; simpl in *; done.
Qed.

(** After the first loop of phase 1 a name that was free is bound to
    the type tag of the first global variable of that name. *)
Lemma declare_globals_lookup vars : ∀ s x,
  current s ≠ [] →
  current (fold_left declare_global vars s) ≠ [] ∧
  global (fold_left declare_global vars s) !! x =
  match global s !! x with
  | Some t => Some t
  | None => declared_type x vars
  end.
Proof.
  induction vars as [|v vars IH]; intros s x Hs; simpl.
  - split; [done | by destruct (global s !! x)].
  - destruct (declare_global_global s v Hs) as [Hs' Hg].
    destruct (IH (declare_global s v) x Hs') as [Hs'' ->].
    split; [done|]. rewrite Hg, add_lookup.
    destruct (global s !! x); [done|]. by destruct (decide (var_name v = x)).
Qed.

(** After the second one a name that was still free is bound to
    "function" if a function has that name. *)
Lemma declare_functions_lookup funcs : ∀ s x,
  current s ≠ [] →
  current (fold_left declare_function funcs s) ≠ [] ∧
  global (fold_left declare_function funcs s) !! x =
  match global s !! x with
  | Some t => Some t
  | None => if decide (x ∈ fn_name <$> funcs) then Some "function" else None
  end.
Proof.
  induction funcs as [|fn funcs IH]; intros s x Hs; simpl.
  - split; [done|]. destruct (global s !! x); [done|].
    destruct (decide (x ∈ [])) as [Hin|]; [|done].
    by apply not_elem_of_nil in Hin.
  - destruct (declare_function_global s fn Hs) as [Hs' Hg].
    destruct (IH (declare_function s fn) x Hs') as [Hs'' ->].
    split; [done|]. rewrite Hg, add_lookup.
    destruct (global s !! x); [done|].
    destruct (decide (fn_name fn = x)) as [<-|Hne].
    + rewrite decide_True; [done | apply elem_of_cons; by left].
    + destruct (decide (x ∈ fn_name <$> funcs)) as [Hin|Hnin].
      * rewrite decide_True; [done | apply elem_of_cons; by right].
      * rewrite decide_False; [done|].
        rewrite elem_of_cons. intros [->|]; done.
Qed.

Lemma phase1_lookup program x :
  global (phase1 program ScopeAnalyzer_new) !! x =
  match declared_type x (globals program) with
  | Some t => Some t
  | None =>
      if decide (x ∈ fn_name <$> functions program) then Some "function"
      else None
  end.
Proof.
  unfold phase1.
  destruct (declare_globals_lookup (globals program) ScopeAnalyzer_new x)
    as [Hs Hg]; [done|].
  destruct (declare_functions_lookup (functions program) _ x Hs) as [_ ->].
  rewrite Hg. done.
Qed.

Lemma phase1_non_null program :
  current (phase1 program ScopeAnalyzer_new) ≠ [].
Proof.
  unfold phase1.
  destruct (declare_globals_lookup (globals program) ScopeAnalyzer_new "")
    as [Hs _]; [done|].
  by destruct (declare_functions_lookup (functions program) _ "" Hs).
Qed.

Lemma declared_type_Some x vars t :
  declared_type x vars = Some t →
  ∃ v, v ∈ vars ∧ var_name v = x ∧ var_type v = t.
Proof.
  induction vars as [|v vars IH]; simpl; [done|].
  destruct (decide (var_name v = x)) as [E|].
  - intros [= <-]. exists v. split; [apply elem_of_cons; by left | done].
  - intros H. destruct (IH H) as (v' & Hin & Hv'). exists v'.
    split; [apply elem_of_cons; by right | done].
Qed.

(** Phase 1 prints no "Undefined function" line. *)
Lemma phase1_undefined_lines f program :
  undefined_lines f (phase1 program ScopeAnalyzer_new) = 0.
Proof.
  unfold phase1.
  assert (Hg : ∀ vars s, undefined_lines f (fold_left declare_global vars s)
                         = undefined_lines f s).
  { induction vars as [|v vars IH]; intros s; simpl; [done|].
    rewrite IH. unfold declare_global.
    destruct (global_add _ _ s) as [[] s'] eqn:E;
      [|rewrite undefined_lines_error by done];
      by injection E as _ <-. }
  assert (Hf : ∀ funcs s, undefined_lines f (fold_left declare_function funcs s)
                          = undefined_lines f s).
  { induction funcs as [|fn funcs IH]; intros s; simpl; [done|].
    rewrite IH. unfold declare_function.
    destruct (global_add _ _ s) as [[] s'] eqn:E;
      [|rewrite undefined_lines_error by done];
      by injection E as _ <-. }
  by rewrite Hf, Hg.
Qed.

(** [check_function] gives back the chain it was called with. *)
Lemma declare_param_chain s param : chain_extends s (declare_param s param).
Proof.
  unfold declare_param.
  pose proof (chain_extends_current_add (var_name param) (var_type param) s).
  destruct (current_add _ _ s) as [[] s']; simpl in *; [done|].
  etransitivity; [eassumption | apply chain_extends_error].
Qed.

Lemma check_function_inner_chain func s :
  chain_extends (enter_scope s)
    (check_node (body func)
       (fold_left declare_param (params func) (enter_scope s))).
Proof.
  etransitivity; [|apply check_node_chain].
  apply (fold_left_preserves chain_extends).
  apply Forall_forall. intros p _ s'. apply declare_param_chain.
Qed.

Lemma check_function_current func s :
  current (check_function func s) = current s.
Proof. apply scoped_current, check_function_inner_chain. Qed.

(** The chain is never null once it is not. *)
Lemma chain_extends_non_null s s' :
  chain_extends s s' → current s ≠ [] → current s' ≠ [].
Proof. unfold chain_extends. by destruct (current s), (current s'). Qed.

Lemma phase2_current program s : current (phase2 program s) = current s.
Proof.
  unfold phase2. revert s.
  induction (functions program) as [|fn funcs IH]; intros s; simpl; [done|].
  by rewrite IH, check_function_current.
Qed.

Lemma declare_param_undefined_lines f s param :
  undefined_lines f (declare_param s param) = undefined_lines f s.
Proof.
  unfold declare_param.
  pose proof (undefined_lines_current_add f (var_name param) (var_type param) s).
  destruct (current_add _ _ s) as [[] s']; simpl in *; [done|].
  by rewrite undefined_lines_error.
Qed.

Lemma declare_params_undefined_lines f ps : ∀ s,
  undefined_lines f (fold_left declare_param ps s) = undefined_lines f s.
Proof.
  induction ps as [|p ps IH]; intros s; simpl; [done|].
  by rewrite IH, declare_param_undefined_lines.
Qed.

Section undefined_function_lines_program.
Variables (f t : string) (c : nat).
Hypothesis Hc : c = if decide (t = "function") then 0 else 1.

Lemma check_function_undefined func s :
  global s !! f = Some t →
  undefined_lines f (check_function func s) =
  undefined_lines f s + c * calls_to f (body func).
Proof using Hc.
  intros Hs. unfold check_function.
  rewrite undefined_lines_leave_scope.
  rewrite (check_node_undefined f t c Hc).
  - by rewrite declare_params_undefined_lines, undefined_lines_enter_scope.
  - eapply lookup_weaken; [by apply global_kept_enter_scope|].
    apply global_mono. apply (fold_left_preserves chain_extends).
    apply Forall_forall. intros p _ s'. apply declare_param_chain.
Qed.

Lemma check_undefined program :
  global (phase1 program ScopeAnalyzer_new) !! f = Some t →
  undefined_lines f (analyze program) = c * program_calls f program.
Proof using Hc.
  intros H1. unfold analyze, check, program_calls. simpl.
  set (s1 := phase1 program ScopeAnalyzer_new) in *.
  destruct (fold_left_measure (fun s => global s !! f = Some t)
              (undefined_lines f) (fun fn => c * calls_to f (body fn))
              (fun s fn => check_function fn s) (functions program))
    with (s := s1) as [H2 E2]; [|done|].
  { apply Forall_forall. intros fn _ s Hs. split.
    - unfold global. by rewrite check_function_current.
    - by apply check_function_undefined. }
  destruct (fold_left_measure (fun s => global s !! f = Some t)
              (undefined_lines f) (fun v => c * calls_to f (var_value v))
              (fun s v => check_node (var_value v) s) (globals program))
    with (s := phase2 program s1) as [_ E3]; [|done|].
  { apply Forall_forall. intros v _ s Hs. split.
    - by apply global_kept.
    - by apply (check_node_undefined f t c Hc). }
  unfold phase3. rewrite E3. unfold phase2 at 1. rewrite E2.
  unfold s1. rewrite phase1_undefined_lines, !sum_list_with_scale. lia.
Qed.
End undefined_function_lines_program.

(** ** The whole check *)

Lemma declare_params_emits ps : ∀ s,
  emits_upto (sum_list_with var_size ps) s (fold_left declare_param ps s).
Proof.
  apply (fold_left_emits var_size). apply Forall_forall. intros p _ s.
  unfold declare_param, var_size.
  pose proof (emits_upto_current_add (var_name p) (var_type p) s) as H.
  destruct (current_add _ _ s) as [[] s']; simpl in H.
  - eapply emits_upto_weaken; [|exact H]. lia.
  - eapply emits_upto_step; [exact H | apply emits_upto_error | unfold ast_size; lia].
Qed.

Lemma check_function_emits func s :
  emits_upto (sum_list_with var_size (params func) + ast_size (body func))
    s (check_function func s).
Proof.
  unfold check_function. eapply emits_upto_weaken; cycle 1.
  - eapply emits_upto_trans; [apply emits_upto_enter_scope|].
    eapply emits_upto_trans; [apply declare_params_emits|].
    eapply emits_upto_trans;
      [apply check_node_emits | apply emits_upto_leave_scope].
  - lia.
Qed.

Lemma declare_global_emits s var : emits_upto 1 s (declare_global s var).
Proof.
  unfold declare_global.
  pose proof (emits_upto_global_add (var_name var) (var_type var) s) as H.
  destruct (global_add _ _ s) as [[] s']; simpl in H.
  - eapply emits_upto_weaken; [|exact H]. lia.
  - eapply emits_upto_step; [exact H | apply emits_upto_error | lia].
Qed.

Lemma declare_function_emits s func : emits_upto 1 s (declare_function s func).
Proof.
  unfold declare_function.
  pose proof (emits_upto_global_add (fn_name func) "function" s) as H.
  destruct (global_add _ _ s) as [[] s']; simpl in H.
  - eapply emits_upto_weaken; [|exact H]. lia.
  - eapply emits_upto_step; [exact H | apply emits_upto_error | lia].
Qed.

Lemma program_size_by_phase program :
  sum_list_with (fun _ => 1) (globals program)
  + sum_list_with (fun _ => 1) (functions program)
  + sum_list_with (fun fn => sum_list_with var_size (params fn)
                             + ast_size (body fn)) (functions program)
  + sum_list_with (fun v => ast_size (var_value v)) (globals program)
  = program_size program.
Proof.
  unfold program_size.
  assert (Hg : ∀ l : list VarNode,
            sum_list_with (fun _ => 1) l
            + sum_list_with (fun v => ast_size (var_value v)) l
            = sum_list_with var_size l).
  { induction l as [|v l IH]; [done|].
    cbn [sum_list_with]. rewrite <- IH. unfold var_size. lia. }
  assert (Hf : ∀ l : list FunctionNode,
            sum_list_with (fun _ => 1) l
            + sum_list_with (fun fn => sum_list_with var_size (params fn)
                                       + ast_size (body fn)) l
            = sum_list_with function_size l).
  { induction l as [|fn l IH]; [done|].
    cbn [sum_list_with]. rewrite <- IH. unfold function_size. lia. }
  rewrite <- Hg, <- Hf. lia.
Qed.

(** Every error of a run is appended to [errors] and to [cout], and
    there are at most as many as the program is large. *)
Lemma check_emits program s :
  emits_upto (program_size program) s (check program s).2.
Proof.
  rewrite <- program_size_by_phase.
  unfold check, phase3, phase2, phase1. simpl.
  eapply emits_upto_trans; [eapply emits_upto_trans; [eapply emits_upto_trans|]|].
  - apply (fold_left_emits (fun _ : VarNode => 1)). apply Forall_forall.
    intros v _ s'. apply declare_global_emits.
  - apply (fold_left_emits (fun _ : FunctionNode => 1)). apply Forall_forall.
    intros fn _ s'. apply declare_function_emits.
  - apply (fold_left_emits (fun fn => sum_list_with var_size (params fn)
                                      + ast_size (body fn))).
    apply Forall_forall. intros fn _ s'. apply check_function_emits.
  - apply (fold_left_emits (fun v => ast_size (var_value v))).
    apply Forall_forall. intros v _ s'. apply check_node_emits.
Qed.

(** ** The error records *)

(** C1, as the specification has it, fails: the returned records do not
    determine the offending names.  Reading the undeclared [a] and
    reading the undeclared [b] return the same vector, and the lines
    printed for them, which do carry the names, differ; so no function
    of the returned vector yields what was printed. *)
Lemma error_records_do_not_name_the_symbol :
  getErrors (analyze (reads_undeclared "a")) = [UndeclaredVariable] ∧
  getErrors (analyze (reads_undeclared "b")) = [UndeclaredVariable] ∧
  cout (analyze (reads_undeclared "a")) = ["Error: Undeclared variable: a"] ∧
  cout (analyze (reads_undeclared "b")) = ["Error: Undeclared variable: b"] ∧
  ¬ ∃ recover : list ScopeError → list string,
      ∀ program, recover (getErrors (analyze program)) = cout (analyze program).
Proof.
  assert (Ha : getErrors (analyze (reads_undeclared "a"))
               = [UndeclaredVariable]) by (vm_compute; reflexivity).
  assert (Hb : getErrors (analyze (reads_undeclared "b"))
               = [UndeclaredVariable]) by (vm_compute; reflexivity).
  assert (Hca : cout (analyze (reads_undeclared "a"))
                = ["Error: Undeclared variable: a"])
    by (vm_compute; reflexivity).
  assert (Hcb : cout (analyze (reads_undeclared "b"))
                = ["Error: Undeclared variable: b"])
    by (vm_compute; reflexivity).
  split; [done|]. split; [done|]. split; [done|]. split; [done|].
  intros [recover Hr].
  pose proof (Hr (reads_undeclared "a")) as Hra.
  pose proof (Hr (reads_undeclared "b")) as Hrb.
  rewrite Ha, Hca in Hra. rewrite Hb, Hcb in Hrb.
  rewrite Hra in Hrb. discriminate Hrb.
Qed.

(** C1, amended: every record returned by [getErrors] is one of the four
    kinds and nothing more; the offending names are in the lines written
    to [std::cout], one line per record and in the same order. *)
Theorem error_records_are_kinds (program : ProgramNode) :
  (∀ err, err ∈ getErrors (analyze program) →
     err = UndeclaredVariable ∨ err = UndefinedFunction ∨
     err = VariableRedefined ∨ err = FunctionRedefined) ∧
  ∃ names : list string,
    length names = errorCount (analyze program) ∧
    cout (analyze program) = line <$> zip (getErrors (analyze program)) names.
Proof.
  split.
  - intros [] _; auto.
  - destruct (check_emits program ScopeAnalyzer_new) as (evs & _ & He & Ho).
    fold (analyze program) in He, Ho. simpl in He, Ho.
    exists (evs.*2). unfold errorCount, getErrors. rewrite He, Ho.
    split.
    + by rewrite !length_fmap.
    + by rewrite zip_fst_snd.
Qed.

(** ** The verdict *)

(** C8: [check] on a fresh analyzer returns true exactly when the run
    recorded no error (and then printed none either), [passed] agrees
    with it, and [errorCount] is the length of the returned vector. *)
Theorem check_true_iff_no_errors (program : ProgramNode) :
  ((check program ScopeAnalyzer_new).1 = true ↔
   getErrors (analyze program) = []) ∧
  (getErrors (analyze program) = [] ↔ cout (analyze program) = []) ∧
  passed (analyze program) = (check program ScopeAnalyzer_new).1 ∧
  errorCount (analyze program) = length (getErrors (analyze program)).
Proof.
  repeat split; try reflexivity.
  - unfold analyze, check, passed, getErrors. simpl.
    by destruct (errors _).
  - unfold analyze, check, passed, getErrors. simpl. by intros ->.
  - destruct (check_emits program ScopeAnalyzer_new) as (evs & _ & He & Ho).
    fold (analyze program) in He, Ho. unfold getErrors.
    rewrite He, Ho. simpl. by destruct evs.
  - destruct (check_emits program ScopeAnalyzer_new) as (evs & _ & He & Ho).
    fold (analyze program) in He, Ho. unfold getErrors.
    rewrite He, Ho. simpl. by destruct evs.
Qed.

(** ** Calls *)

(** C2, as the specification has it, fails: functions and global
    variables share the global scope and the globals are declared
    first, so in [int f; int g() { f(); } int f();] the name [f] is
    bound to "int", the declaration of the function [f] is rejected,
    and the call in [g] is reported. *)
Lemma forward_call_of_shadowed_function_fails :
  "f" ∈ fn_name <$> functions call_of_shadowed_function ∧
  program_calls "f" call_of_shadowed_function = 1 ∧
  getErrors (analyze call_of_shadowed_function)
  = [FunctionRedefined; UndefinedFunction] ∧
  cout (analyze call_of_shadowed_function)
  = ["Error: Function redefined: f"; "Error: Undefined function: f"] ∧
  ¬ ∀ program f,
      f ∈ fn_name <$> functions program →
      line (UndefinedFunction, f) ∉ cout (analyze program).
Proof.
  assert (Hc : cout (analyze call_of_shadowed_function)
               = ["Error: Function redefined: f";
                  "Error: Undefined function: f"])
    by (vm_compute; reflexivity).
  assert (Hin : "f" ∈ fn_name <$> functions call_of_shadowed_function).
  { simpl. apply elem_of_cons. right. apply elem_of_cons. by left. }
  split; [done|]. split; [by vm_compute|].
  split; [by vm_compute|]. split; [done|].
  intros H. apply (H call_of_shadowed_function "f" Hin).
  rewrite Hc. apply elem_of_cons. right. apply elem_of_cons. by left.
Qed.

(** C2, amended: a call of a name that some function of the program
    bears, before or after the caller, is never reported as an
    undefined function, provided that no global variable bears the same
    name with a type tag other than "function". *)
Theorem forward_calls_resolve (program : ProgramNode) (f : string) :
  f ∈ fn_name <$> functions program →
  (∀ var, var ∈ globals program → var_name var = f →
          var_type var = "function") →
  global (phase1 program ScopeAnalyzer_new) !! f = Some "function" ∧
  line (UndefinedFunction, f) ∉ cout (analyze program).
Proof.
  intros Hf Hvars.
  assert (Hbound : global (phase1 program ScopeAnalyzer_new) !! f
                   = Some "function").
  { rewrite phase1_lookup.
    destruct (declared_type f (globals program)) as [t|] eqn:E.
    - apply declared_type_Some in E as (v & Hv & Hname & <-).
      f_equal. by apply Hvars.
    - by rewrite decide_True. }
  split; [done|]. apply count_line_zero.
  change (undefined_lines f (analyze program) = 0).
  by rewrite (check_undefined f "function" 0).
Qed.

Lemma forward_calls_resolve_witness :
  program_calls "helper" forward_reference = 1 ∧
  global (phase1 forward_reference ScopeAnalyzer_new) !! "helper"
  = Some "function" ∧
  line (UndefinedFunction, "helper") ∉ cout (analyze forward_reference).
Proof.
  split; [reflexivity|].
  apply (forward_calls_resolve forward_reference "helper").
  - simpl. apply elem_of_cons. right. apply elem_of_cons. by left.
  - simpl. intros var Hvar. by apply not_elem_of_nil in Hvar.
Defined.

(** C4, as the specification has it, fails: the type tag of a variable
    is any string, and a global variable declared with the tag
    "function" passes for a function; the call of [f] in [g] is walked
    and nothing is reported. *)
Lemma call_of_function_typed_variable_passes :
  declared_type "f" (globals call_of_function_typed_variable)
  = Some "function" ∧
  ("f" ∉ fn_name <$> functions call_of_function_typed_variable) ∧
  program_calls "f" call_of_function_typed_variable = 1 ∧
  getErrors (analyze call_of_function_typed_variable) = [] ∧
  cout (analyze call_of_function_typed_variable) = [].
Proof.
  split; [by vm_compute|]. split.
  - simpl. rewrite elem_of_cons. intros [H|H]; [done|].
    by apply not_elem_of_nil in H.
  - split; [by vm_compute|]. split; by vm_compute.
Qed.

(** C4, amended: when the first global variable called [name] has a type
    tag other than "function", the global scope binds [name] to that
    tag, and every call of [name] that [check] walks (in a function
    body or in a global initializer) is reported as an undefined
    function: there are as many such lines as such calls. *)
Theorem call_of_global_variable_is_undefined
    (program : ProgramNode) (name type : string) :
  declared_type name (globals program) = Some type →
  type ≠ "function" →
  global (phase1 program ScopeAnalyzer_new) !! name = Some type ∧
  count_line (line (UndefinedFunction, name)) (cout (analyze program))
  = program_calls name program.
Proof.
  intros Hdecl Htype.
  assert (Hbound : global (phase1 program ScopeAnalyzer_new) !! name
                   = Some type) by (by rewrite phase1_lookup, Hdecl).
  split; [done|].
  change (undefined_lines name (analyze program) = program_calls name program).
  rewrite (check_undefined name type 1); [lia | | done].
  by rewrite decide_False.
Qed.

Lemma call_of_global_variable_is_undefined_witness :
  global (phase1 call_of_shadowed_function ScopeAnalyzer_new) !! "f"
  = Some "int" ∧
  count_line (line (UndefinedFunction, "f"))
    (cout (analyze call_of_shadowed_function))
  = program_calls "f" call_of_shadowed_function.
Proof.
  apply (call_of_global_variable_is_undefined call_of_shadowed_function
           "f" "int").
  - reflexivity.
  - discriminate.
Defined.

(** ** Name resolution *)

Lemma find_nearest name sc : find name sc = default "" (nearest name sc).
Proof.
  induction sc as [|symbols parent IH]; simpl; [done|].
  by destruct (symbols !! name).
Qed.

(** A name bound in the current scope stays bound to the same type for
    as long as the chain only extends. *)
Lemma chain_extends_find s s' symbols parent x t :
  current s = symbols :: parent → symbols !! x = Some t →
  chain_extends s s' → find x (current s') = t.
Proof.
  unfold chain_extends. intros -> Hx.
  destruct (current s') as [|symbols' parent']; simpl; [done|].
  intros [Hsub _]. by rewrite (lookup_weaken _ _ _ _ Hx Hsub).
Qed.

Lemma current_add_fresh name type s symbols parent :
  current s = symbols :: parent → symbols !! name = None →
  current_in_scope name s = false ∧
  (current_add name type s).2 =
  {| errors := errors s;
     current := <[name := type]> symbols :: parent;
     cout := cout s |}.
Proof.
  intros Hs Hname. unfold current_in_scope, current_add, in_scope, add.
  by rewrite Hs, Hname.
Qed.

(** C3, as the specification has it, fails when the type tag of the
    declaration is the empty string, which is what [Scope::find]
    returns for a name that is not bound: the declaration binds [x] to
    "", and the initializer [x] is reported as undeclared. *)
Lemma untyped_self_initializer_is_undeclared :
  getErrors (analyze untyped_self_initializer) = [UndeclaredVariable] ∧
  cout (analyze untyped_self_initializer) = ["Error: Undeclared variable: x"].
Proof. split; by vm_compute. Qed.

(** C3, amended: the declaration is attempted before the initializer is
    checked, so a declaration of [x] with a non-empty type tag, in a
    scope where [x] is not declared yet, and initialized with [x]
    itself, reports nothing at all: the initializer resolves to the
    binding just made. *)
Theorem self_initializer_resolves
    (s : ScopeAnalyzer) (type x : string) (symbols : gmap string string)
    (parent : Scope) :
  type ≠ "" →
  current s = symbols :: parent →
  symbols !! x = None →
  let declared := (current_add x type s).2 in
  (∀ value, check_node (Some (VariableNode type x value)) s
            = check_node value declared) ∧
  find x (current declared) = type ∧
  check_node (Some (VariableNode type x (Some (NameNode x)))) s = declared ∧
  errors declared = errors s ∧
  cout declared = cout s.
Proof.
  intros Htype Hs Hx declared.
  destruct (current_add_fresh x type s symbols parent Hs Hx) as [Hin Hadd].
  assert (Hfind : find x (current declared) = type).
  { unfold declared. rewrite Hadd. simpl. by rewrite lookup_insert_eq. }
  assert (Hstep : ∀ value, check_node (Some (VariableNode type x value)) s
                           = check_node value declared).
  { intros value. by rewrite check_node_variable, Hin. }
  split; [done|]. split; [done|]. split.
  - rewrite Hstep, check_node_name, Hfind. by rewrite decide_False.
  - unfold declared. by rewrite Hadd.
Qed.

Lemma self_initializer_resolves_witness :
  let declared := (current_add "x" "int" ScopeAnalyzer_new).2 in
  (∀ value, check_node (Some (VariableNode "int" "x" value)) ScopeAnalyzer_new
            = check_node value declared) ∧
  find "x" (current declared) = "int" ∧
  check_node (Some (VariableNode "int" "x" (Some (NameNode "x"))))
    ScopeAnalyzer_new = declared ∧
  errors declared = errors ScopeAnalyzer_new ∧
  cout declared = cout ScopeAnalyzer_new.
Proof.
  apply (self_initializer_resolves ScopeAnalyzer_new "int" "x" ∅ []).
  - discriminate.
  - reflexivity.
  - reflexivity.
Defined.

(** C5, as the specification has it, fails for the same reason: a loop
    variable declared in the initializer with an empty type tag does
    not resolve in the condition. *)
Lemma untyped_loop_variable_is_undeclared :
  getErrors (analyze untyped_loop_variable) = [UndeclaredVariable] ∧
  cout (analyze untyped_loop_variable) = ["Error: Undeclared variable: i"].
Proof. split; by vm_compute. Qed.

(** C5, amended: a [ForNode] opens one scope, checks initializer,
    condition, increment and body in it, in that order, and leaves it.
    A variable that the initializer declares with a non-empty type tag
    resolves to that tag where the condition, the increment and the
    body are checked, and a reference to it there is accepted.  After
    the node the scope chain is the one before it, so the variable is
    visible afterwards only as far as it was before. *)
Theorem for_is_one_scope
    (s : ScopeAnalyzer) (type x : string)
    (value cond incr body : option ASTNode) :
  type ≠ "" →
  let init := Some (VariableNode type x value) in
  let s1 := check_node init (enter_scope s) in
  let s2 := check_node cond s1 in
  let s3 := check_node incr s2 in
  let s4 := check_node body s3 in
  check_node (Some (ForNode init cond incr body)) s = leave_scope s4 ∧
  (find x (current s1) = type ∧ check_node (Some (NameNode x)) s1 = s1) ∧
  (find x (current s2) = type ∧ check_node (Some (NameNode x)) s2 = s2) ∧
  (find x (current s3) = type ∧ check_node (Some (NameNode x)) s3 = s3) ∧
  current (leave_scope s4) = current s ∧
  find x (current (leave_scope s4)) = find x (current s).
Proof.
  intros Htype init s1 s2 s3 s4.
  destruct (current_add_fresh x type (enter_scope s) ∅ (current s))
    as [Hin Hadd]; [done..|].
  set (declared := (current_add x type (enter_scope s)).2) in *.
  assert (H01 : chain_extends declared s1).
  { unfold s1, init. rewrite check_node_variable, Hin.
    apply check_node_chain. }
  assert (H12 : chain_extends s1 s2) by apply check_node_chain.
  assert (H23 : chain_extends s2 s3) by apply check_node_chain.
  assert (H34 : chain_extends s3 s4) by apply check_node_chain.
  assert (Hdecl : ∀ s', chain_extends declared s' →
            find x (current s') = type ∧ check_node (Some (NameNode x)) s' = s').
  { intros s' Hs'.
    assert (find x (current s') = type) as Hfind.
    { eapply (chain_extends_find declared s'); [|apply lookup_insert_eq|done].
      by rewrite Hadd. }
    split; [done|]. rewrite check_node_name, Hfind. by rewrite decide_False. }
  assert (Hback : current (leave_scope s4) = current s).
  { apply scoped_current.
    transitivity declared; [apply chain_extends_current_add|].
    transitivity s1; [done|]. transitivity s2; [done|].
    by transitivity s3. }
  split; [done|].
  split; [by apply Hdecl|].
  split; [apply Hdecl; by transitivity s1|].
  split; [apply Hdecl; transitivity s1; [done|]; by transitivity s2|].
  split; [done | by rewrite Hback].
Qed.

Lemma for_is_one_scope_witness :
  let s := ScopeAnalyzer_new in
  let init := Some (VariableNode "int" "i" (Some (LiteralNode "int" "0"))) in
  let cond := Some (BinaryOpNode "<" (Some (NameNode "i"))
                      (Some (LiteralNode "int" "10"))) in
  let incr := Some (AssignmentNode "i" (Some (NameNode "i"))) in
  let body := Some (BlockNode [Some (NameNode "i")]) in
  let s1 := check_node init (enter_scope s) in
  let s2 := check_node cond s1 in
  let s3 := check_node incr s2 in
  let s4 := check_node body s3 in
  check_node (Some (ForNode init cond incr body)) s = leave_scope s4 ∧
  (find "i" (current s1) = "int" ∧ check_node (Some (NameNode "i")) s1 = s1) ∧
  (find "i" (current s2) = "int" ∧ check_node (Some (NameNode "i")) s2 = s2) ∧
  (find "i" (current s3) = "int" ∧ check_node (Some (NameNode "i")) s3 = s3) ∧
  current (leave_scope s4) = current s ∧
  find "i" (current (leave_scope s4)) = find "i" (current s).
Proof.
  apply (for_is_one_scope ScopeAnalyzer_new "int" "i").
  discriminate.
Defined.

(** ** Shadowing *)

(** C7: take a name [x] that some scope on the chain binds, the
    current scope or any scope its parent chain reaches, and open a
    scope directly inside the current one, as a block does.  Declaring
    [x] again in the new scope records and prints nothing; inside it
    [x] resolves to the type of the inner binding; and once the scope
    is left [x] resolves to the outer binding again. *)
Theorem shadowing_is_legal
    (s : ScopeAnalyzer) (x t_outer t_inner : string)
    (rest : list (option ASTNode)) :
  nearest x (current s) = Some t_outer →
  let inner := check_node (Some (VariableNode t_inner x None)) (enter_scope s) in
  errors inner = errors s ∧
  cout inner = cout s ∧
  current inner = {[x := t_inner]} :: current s ∧
  nearest x (current inner) = Some t_inner ∧
  find x (current inner) = t_inner ∧
  find x (current (leave_scope inner)) = t_outer ∧
  check_node (Some (BlockNode (Some (VariableNode t_inner x None) :: rest))) s
  = leave_scope (fold_left (fun s stmt => check_node stmt s) rest inner).
Proof.
  intros Hx inner.
  destruct (current_add_fresh x t_inner (enter_scope s) ∅ (current s))
    as [Hin Hadd]; [done..|].
  assert (Hinner : inner =
            {| errors := errors s;
               current := {[x := t_inner]} :: current s;
               cout := cout s |}).
  { unfold inner. rewrite check_node_variable, Hin, check_node_null, Hadd.
    simpl. by rewrite insert_empty. }
  rewrite Hinner. simpl.
  rewrite lookup_singleton_eq, find_nearest, Hx. by repeat split.
Qed.

Lemma shadowing_is_legal_witness :
  let s := {| errors := []; current := [∅; {["x" := "int"]}]; cout := [] |} in
  let inner :=
    check_node (Some (VariableNode "float" "x" None)) (enter_scope s) in
  errors inner = errors s ∧
  cout inner = cout s ∧
  current inner = {["x" := "float"]} :: current s ∧
  nearest "x" (current inner) = Some "float" ∧
  find "x" (current inner) = "float" ∧
  find "x" (current (leave_scope inner)) = "int" ∧
  check_node (Some (BlockNode (Some (VariableNode "float" "x" None)
                               :: [Some (NameNode "x")]))) s
  = leave_scope
      (fold_left (fun s stmt => check_node stmt s) [Some (NameNode "x")] inner).
Proof.
  apply (shadowing_is_legal
           {| errors := []; current := [∅; {["x" := "int"]}]; cout := [] |}
           "x" "int" "float" [Some (NameNode "x")]).
  reflexivity.
Defined.

(** Scenario 6 of the specification runs without an error. *)
Example shadowing_block_passes :
  (check shadowing_block ScopeAnalyzer_new).1 = true ∧
  getErrors (analyze shadowing_block) = [] ∧
  cout (analyze shadowing_block) = [].
Proof. by vm_compute. Qed.

(** ** The empty string as "not found" *)

(** C10: [find] returns the empty string both for a name that no scope
    of the chain binds and for a name whose nearest binding has the
    empty string as its type tag.  So where a name is resolved with
    such a binding nearest, the analyzer reports an undeclared
    variable: for a reference in the state [r] it is checked in, and
    for an assignment in the state [r] that checking the assigned value
    leaves. *)
Theorem empty_type_tag_reads_as_undeclared
    (s : ScopeAnalyzer) (x : string) (value : option ASTNode) :
  let r := check_node value s in
  nearest x (current r) = None ∨ nearest x (current r) = Some "" →
  find x (current r) = "" ∧
  check_node (Some (NameNode x)) r = error UndeclaredVariable x r ∧
  check_node (Some (AssignmentNode x value)) s = error UndeclaredVariable x r ∧
  errors (check_node (Some (AssignmentNode x value)) s)
  = errors r ++ [UndeclaredVariable].
Proof.
  intros r Hnear.
  assert (Hfind : find x (current r) = "").
  { rewrite find_nearest. by destruct Hnear as [-> | ->]. }
  split; [done|]. split; [|split].
  - by rewrite check_node_name, decide_True.
  - rewrite check_node_assignment. fold r. by rewrite decide_True.
  - rewrite check_node_assignment. fold r. by rewrite decide_True.
Qed.

Lemma empty_type_tag_reads_as_undeclared_witness :
  let s := check_node (Some (VariableNode "" "x" None)) ScopeAnalyzer_new in
  let value := Some (LiteralNode "int" "1") in
  let r := check_node value s in
  errors s = [] ∧
  nearest "x" (current r) = Some "" ∧
  find "x" (current r) = "" ∧
  check_node (Some (NameNode "x")) r = error UndeclaredVariable "x" r ∧
  check_node (Some (AssignmentNode "x" value)) s
  = error UndeclaredVariable "x" r ∧
  errors (check_node (Some (AssignmentNode "x" value)) s)
  = errors r ++ [UndeclaredVariable].
Proof.
  split; [reflexivity|]. split; [reflexivity|].
  apply (empty_type_tag_reads_as_undeclared
           (check_node (Some (VariableNode "" "x" None)) ScopeAnalyzer_new)
           "x" (Some (LiteralNode "int" "1"))).
  right. reflexivity.
Defined.

(** ** Scenarios of the specification *)

(** Scenario 4: [int x = 5; int x = 10;] in one body. *)
Example redefinition_in_one_scope :
  cout (analyze
          {| functions :=
               [mkFunction "void" "test_redefinition" []
                  (Some (BlockNode
                     [Some (VariableNode "int" "x" (Some (LiteralNode "int" "5")));
                      Some (VariableNode "int" "x"
                              (Some (LiteralNode "int" "10")))]))];
             globals := [] |})
  = ["Error: Variable redefined: x"].
Proof. by vm_compute. Qed.

(** Scenarios 3 and 5: a call of a function that does not exist in a
    global initializer, and two functions called [calculate]. *)
Example undefined_and_redefined_function :
  cout (analyze
          {| functions :=
               [mkFunction "int" "calculate" [mkVar "int" "a" None] None;
                mkFunction "void" "calculate" [] None];
             globals :=
               [mkVar "int" "value" (Some (CallNode "unknown_func" []))] |})
  = ["Error: Function redefined: calculate";
     "Error: Undefined function: unknown_func"].
Proof. by vm_compute. Qed.

(** * Further properties of the analyzer *)

(** ** The symbol table of one scope *)

(** [Scope::add] succeeds exactly when the name is not in the scope
    yet.  Either way the name is in the scope afterwards, a second
    [add] of it is rejected, and no other name is touched.  When it
    succeeds [find] then returns the new type; when it is rejected the
    table is left as it was, so the first binding is kept. *)
Theorem add_then_lookup
    (name type : string) (symbols : gmap string string) (parent : Scope) :
  let ok := (add name type symbols).1 in
  let symbols' := (add name type symbols).2 in
  ok = negb (in_scope name symbols) ∧
  in_scope name symbols' = true ∧
  (∀ type', (add name type' symbols').1 = false ∧
            (add name type' symbols').2 = symbols') ∧
  find name (symbols' :: parent)
  = (if ok then type else find name (symbols :: parent)) ∧
  (ok = false → symbols' = symbols) ∧
  (∀ other, other ≠ name →
     symbols' !! other = symbols !! other ∧
     in_scope other symbols' = in_scope other symbols ∧
     find other (symbols' :: parent) = find other (symbols :: parent)).
Proof.
  unfold add, in_scope. simpl.
  destruct (symbols !! name) as [t|] eqn:E; simpl.
  - rewrite E. repeat split; intros; rewrite ?E; done.
  - rewrite lookup_insert_eq.
    repeat split; intros;
      rewrite ?lookup_insert_eq, ?lookup_insert_ne by done; done.
Qed.

(** [Scope::find] passes through every scope that does not bind the
    name: seen from any depth of nesting, a name resolves as it does in
    the nearest scope that binds it. *)
Theorem find_skips_scopes_without_the_name
    (name : string) (inner sc : Scope) :
  Forall (fun symbols => symbols !! name = None) inner →
  find name (inner ++ sc) = find name sc.
Proof.
  induction 1 as [|symbols inner Hnone _ IH]; simpl; [done|].
  by rewrite Hnone.
Qed.

Lemma find_skips_scopes_without_the_name_witness :
  find "x" ([{["y" := "int"]}; ∅] ++ [{["x" := "float"]}; {["x" := "int"]}])
  = find "x" [{["x" := "float"]}; {["x" := "int"]}].
Proof.
  apply (find_skips_scopes_without_the_name "x" [{["y" := "int"]}; ∅]).
  repeat constructor.
Defined.

(** ** Declarations *)

(** Declaring again a name that the current scope already has records
    one [VariableRedefined], goes on to check the initializer, and
    leaves the first binding in place: the name still resolves to the
    type it was first declared with. *)
Theorem redeclaration_keeps_first_binding
    (s : ScopeAnalyzer) (symbols : gmap string string) (parent : Scope)
    (x t1 t2 : string) (value : option ASTNode) :
  current s = symbols :: parent →
  symbols !! x = Some t1 →
  let s' := check_node (Some (VariableNode t2 x value)) s in
  s' = check_node value (error VariableRedefined x s) ∧
  find x (current s') = t1 ∧
  (value = None →
   errors s' = errors s ++ [VariableRedefined] ∧ current s' = current s).
Proof.
  intros Hs Hx s'.
  assert (Hin : current_in_scope x s = true).
  { unfold current_in_scope, in_scope. by rewrite Hs, Hx. }
  assert (Hs' : s' = check_node value (error VariableRedefined x s)).
  { unfold s'. by rewrite check_node_variable, Hin. }
  split; [done|]. split.
  - rewrite Hs'.
    apply (chain_extends_find (error VariableRedefined x s) _ symbols parent);
      [done | done | apply check_node_chain].
  - intros ->. by rewrite Hs'.
Qed.

Lemma redeclaration_keeps_first_binding_witness :
  let s := {| errors := []; current := [{["x" := "int"]}]; cout := [] |} in
  let value := Some (NameNode "x") in
  let s' := check_node (Some (VariableNode "float" "x" value)) s in
  s' = check_node value (error VariableRedefined "x" s) ∧
  find "x" (current s') = "int" ∧
  (value = None →
   errors s' = errors s ++ [VariableRedefined] ∧ current s' = current s).
Proof.
  apply (redeclaration_keeps_first_binding
           {| errors := []; current := [{["x" := "int"]}]; cout := [] |}
           {["x" := "int"]} [] "x" "int" "float" (Some (NameNode "x"))).
  - reflexivity.
  - reflexivity.
Defined.

(** ** Scopes are closed where they were opened *)

Lemma check_node_block_current statements s :
  current (check_node (Some (BlockNode statements)) s) = current s.
Proof.
  rewrite check_node_block. apply scoped_current.
  apply (fold_left_preserves chain_extends).
  apply Forall_forall. intros p _ s'. apply check_node_chain.
Qed.

Lemma check_node_for_current init cond incr body s :
  current (check_node (Some (ForNode init cond incr body)) s) = current s.
Proof.
  rewrite check_node_for. apply scoped_current.
  etransitivity; [apply check_node_chain|].
  etransitivity; [apply check_node_chain|].
  etransitivity; apply check_node_chain.
Qed.

(** A block and a for loop give back the scope chain exactly as they
    found it, whatever they contain and whatever errors they record:
    nothing declared inside is left behind, not even in the table of
    the enclosing scope, and every name resolves after them as it did
    before. *)
Theorem block_and_for_restore_the_chain
    (statements : list (option ASTNode))
    (init cond incr body : option ASTNode) (s : ScopeAnalyzer) :
  let after_block := check_node (Some (BlockNode statements)) s in
  let after_for := check_node (Some (ForNode init cond incr body)) s in
  current after_block = current s ∧
  current after_for = current s ∧
  ∀ x, find x (current after_block) = find x (current s) ∧
       find x (current after_for) = find x (current s).
Proof.
  intros after_block after_for. unfold after_block, after_for.
  rewrite check_node_block_current, check_node_for_current. by repeat split.
Qed.

(** A name that does not resolve before a block does not resolve after
    it either, whatever the block declares: a reference to it that
    follows the block is reported as undeclared. *)
Theorem name_of_sibling_scope_is_undeclared
    (s : ScopeAnalyzer) (x : string) (statements : list (option ASTNode)) :
  find x (current s) = "" →
  let after := check_node (Some (BlockNode statements)) s in
  check_node (Some (NameNode x)) after = error UndeclaredVariable x after ∧
  errors (check_node (Some (NameNode x)) after)
  = errors after ++ [UndeclaredVariable].
Proof.
  intros Hx after.
  assert (H : check_node (Some (NameNode x)) after
              = error UndeclaredVariable x after).
  { rewrite check_node_name. rewrite decide_True; [done|].
    unfold after. by rewrite check_node_block_current. }
  split; [done | by rewrite H].
Qed.

Lemma name_of_sibling_scope_is_undeclared_witness :
  let s := enter_scope ScopeAnalyzer_new in
  let after :=
    check_node (Some (BlockNode [Some (VariableNode "int" "x" None);
                                 Some (NameNode "x")])) s in
  errors after = [] ∧
  check_node (Some (NameNode "x")) after
  = error UndeclaredVariable "x" after ∧
  errors (check_node (Some (NameNode "x")) after)
  = errors after ++ [UndeclaredVariable].
Proof.
  split; [reflexivity|].
  apply (name_of_sibling_scope_is_undeclared (enter_scope ScopeAnalyzer_new)
           "x" [Some (VariableNode "int" "x" None); Some (NameNode "x")]).
  reflexivity.
Defined.

(** ** Loops that declare *)

(** The three declaring loops of the analyzer (globals, functions,
    parameters) have the same shape: each turn tries [add] on one table
    and records one error of a fixed kind if the name is taken. *)
Section declare_loop.
Context {A : Type}.
Variable table : ScopeAnalyzer → gmap string string.
Variable step : ScopeAnalyzer → A → ScopeAnalyzer.
Variables key type_of : A → string.
Variable kind : ScopeError.
Hypothesis step_errors : ∀ s a, current s ≠ [] →
  errors (step s a)
  = errors s ++ match table s !! key a with Some _ => [kind] | None => [] end.
Hypothesis step_table : ∀ s a, current s ≠ [] →
  current (step s a) ≠ [] ∧
  table (step s a) = (add (key a) (type_of a) (table s)).2.

Lemma declare_loop_prefix l : ∀ s, current s ≠ [] →
  ∃ more, errors (fold_left step l s) = errors s ++ more.
Proof using step_errors step_table.
  induction l as [|a l IH]; intros s Hs; simpl.
  - exists []. by rewrite app_nil_r.
  - destruct (step_table s a Hs) as [Hs' _].
    destruct (IH _ Hs') as [more ->]. rewrite step_errors by done.
    eexists. by rewrite <- app_assoc.
Qed.

Lemma declare_loop_clean l : ∀ s, current s ≠ [] →
  errors (fold_left step l s) = errors s ↔
  NoDup (key <$> l) ∧ ∀ x, x ∈ key <$> l → table s !! x = None.
Proof using step_errors step_table.
  induction l as [|a l IH]; intros s Hs; simpl.
  - split; [|done]. intros _. split; [constructor|].
    intros x Hx. by apply not_elem_of_nil in Hx.
  - destruct (step_table s a Hs) as [Hs' Ht].
    pose proof (step_errors s a Hs) as He.
    destruct (table s !! key a) as [t|] eqn:E.
    + split.
      * intros H. destruct (declare_loop_prefix l _ Hs') as [more Hm].
        rewrite Hm, He, <- app_assoc in H.
        apply (f_equal length) in H. rewrite !length_app in H.
        simpl in H. lia.
      * intros [_ H]. specialize (H (key a)). rewrite E in H.
        discriminate H. apply elem_of_cons. by left.
    + rewrite app_nil_r in He. rewrite <- He, (IH _ Hs'), NoDup_cons, Ht.
      split.
      * intros [Hnd Hfree]. split.
        -- split; [|done]. intros Hin. specialize (Hfree _ Hin).
           rewrite add_lookup, E, decide_True in Hfree by done. done.
        -- intros x Hx. apply elem_of_cons in Hx as [->|Hx]; [done|].
           specialize (Hfree _ Hx). rewrite add_lookup in Hfree.
           by destruct (table s !! x).
      * intros [[Hnotin Hnd] Hfree]. split; [done|].
        intros x Hx. rewrite add_lookup.
        rewrite (Hfree x) by (apply elem_of_cons; by right).
        rewrite decide_False; [done|]. by intros <-.
Qed.

Lemma declare_loop_bound l : ∀ s, current s ≠ [] →
  (∀ a, a ∈ l → is_Some (table s !! key a)) →
  errors (fold_left step l s) = errors s ++ replicate (length l) kind ∧
  table (fold_left step l s) = table s ∧
  current (fold_left step l s) ≠ [].
Proof using step_errors step_table.
  induction l as [|a l IH]; intros s Hs Hbound; simpl.
  - by rewrite app_nil_r.
  - destruct (step_table s a Hs) as [Hs' Ht].
    destruct (Hbound a) as [t E]; [apply elem_of_cons; by left|].
    assert (Ht' : table (step s a) = table s).
    { rewrite Ht. unfold add. by rewrite E. }
    destruct (IH (step s a) Hs') as (He & Htab & Hcur).
    { intros b Hb. rewrite Ht'. apply Hbound. apply elem_of_cons. by right. }
    rewrite He, Htab, Ht', step_errors, E by done.
    by rewrite <- app_assoc.
Qed.

Lemma declare_loop_count l : ∀ s, current s ≠ [] →
  length (errors (fold_left step l s)) + size (table (fold_left step l s))
  = length (errors s) + size (table s) + length l.
Proof using step_errors step_table.
  induction l as [|a l IH]; intros s Hs; simpl; [lia|].
  destruct (step_table s a Hs) as [Hs' Ht].
  rewrite (IH _ Hs'), Ht, step_errors by done. unfold add.
  destruct (table s !! key a) eqn:E; simpl.
  - rewrite length_app. simpl. lia.
  - rewrite map_size_insert_None by done. rewrite app_nil_r. lia.
Qed.
End declare_loop.

Lemma declare_global_errors s var :
  errors (declare_global s var)
  = errors s ++ match global s !! var_name var with
                | Some _ => [VariableRedefined]
                | None => []
                end.
Proof.
  unfold declare_global, global_add, add.
  destruct (global s !! var_name var); simpl; [done | by rewrite app_nil_r].
Qed.

Lemma declare_function_errors s func :
  errors (declare_function s func)
  = errors s ++ match global s !! fn_name func with
                | Some _ => [FunctionRedefined]
                | None => []
                end.
Proof.
  unfold declare_function, global_add, add.
  destruct (global s !! fn_name func); simpl; [done | by rewrite app_nil_r].
Qed.

Lemma declare_param_errors s param :
  current s ≠ [] →
  errors (declare_param s param)
  = errors s ++ match current_table s !! var_name param with
                | Some _ => [VariableRedefined]
                | None => []
                end.
Proof.
  unfold declare_param, current_add, current_table, add.
  destruct (current s) as [|symbols parent]; [done|]. intros _. simpl.
  destruct (symbols !! var_name param); simpl; [done | by rewrite app_nil_r].
Qed.

Lemma declare_param_table s param :
  current s ≠ [] →
  current (declare_param s param) ≠ [] ∧
  current_table (declare_param s param)
  = (add (var_name param) (var_type param) (current_table s)).2.
Proof.
  unfold declare_param, current_add, current_table.
  destruct (current s) as [|symbols parent]; [done|]. intros _. simpl.
  by destruct (add _ _ symbols) as [[] symbols'].
Qed.

Lemma declared_type_None x vars :
  declared_type x vars = None ↔ x ∉ var_name <$> vars.
Proof.
  induction vars as [|v vars IH]; simpl.
  - split; [intros _; apply not_elem_of_nil | done].
  - rewrite not_elem_of_cons. destruct (decide (var_name v = x)) as [E|E].
    + split; [done | intros [H _]; by destruct H].
    + rewrite IH. split; [intros H; split; [by intros ->|done] | tauto].
Qed.

(** ** Phase 1 *)

(** After phase 1 on a fresh analyzer the global scope binds exactly
    the names of the global variables and of the functions: a variable
    name to the type tag of the first global of that name, and a name
    that only functions bear to "function". *)
Theorem phase1_binds_the_declared_names (program : ProgramNode) (x : string) :
  let g := global (phase1 program ScopeAnalyzer_new) in
  (is_Some (g !! x) ↔
   x ∈ var_name <$> globals program ∨ x ∈ fn_name <$> functions program) ∧
  (∀ t, declared_type x (globals program) = Some t → g !! x = Some t) ∧
  (x ∉ var_name <$> globals program →
   x ∈ fn_name <$> functions program → g !! x = Some "function").
Proof.
  intros g. unfold g. rewrite phase1_lookup.
  destruct (declared_type x (globals program)) as [t|] eqn:E.
  - apply declared_type_Some in E as Hv.
    destruct Hv as (v & Hv & Hname & _).
    split; [|split].
    + split; [|done]. intros _. left. rewrite <- Hname.
      by apply list_elem_of_fmap_2.
    + by intros t' [= ->].
    + intros Hnot. destruct Hnot. rewrite <- Hname.
      by apply list_elem_of_fmap_2.
  - apply declared_type_None in E.
    destruct (decide (x ∈ fn_name <$> functions program)) as [Hf|Hf].
    + split; [|split]; [|done|done]. split; [by right | done].
    + split; [|split]; [|done|done].
      split; [by intros [? ?] | by intros [?|?]].
Qed.

(** Phase 1 on a fresh analyzer records no error exactly when the names
    of the global variables and of the functions, taken together, are
    pairwise distinct. *)
Theorem phase1_is_clean_iff_names_are_distinct (program : ProgramNode) :
  errors (phase1 program ScopeAnalyzer_new) = [] ↔
  NoDup ((var_name <$> globals program) ++ (fn_name <$> functions program)).
Proof.
  unfold phase1.
  set (s1 := fold_left declare_global (globals program) ScopeAnalyzer_new).
  assert (Hnew : current ScopeAnalyzer_new ≠ []) by done.
  destruct (declare_globals_lookup (globals program) ScopeAnalyzer_new "" Hnew)
    as [Hs1 _]. fold s1 in Hs1.
  pose proof (declare_loop_clean global declare_global var_name var_type
                VariableRedefined
                (fun s a _ => declare_global_errors s a)
                declare_global_global (globals program)
                ScopeAnalyzer_new Hnew) as Hg.
  pose proof (declare_loop_clean global declare_function fn_name
                (fun _ => "function") FunctionRedefined
                (fun s a _ => declare_function_errors s a)
                declare_function_global (functions program) s1 Hs1) as Hf.
  destruct (declare_loop_prefix global declare_function fn_name
              (fun _ => "function") FunctionRedefined
              (fun s a _ => declare_function_errors s a)
              declare_function_global (functions program) s1 Hs1)
    as [more Hmore].
  fold s1 in Hg. simpl in Hg.
  assert (Hfree : ∀ x, global s1 !! x = None ↔ x ∉ var_name <$> globals program).
  { intros x. unfold s1.
    destruct (declare_globals_lookup (globals program) ScopeAnalyzer_new x Hnew)
      as [_ ->]. apply declared_type_None. }
  rewrite NoDup_app. split.
  - intros H. rewrite Hmore in H. apply app_eq_nil in H as [H1 ->].
    rewrite app_nil_r in Hmore. apply Hf in Hmore as [Hndf Hff].
    apply Hg in H1 as [Hndg _].
    split; [done|]. split; [|done].
    intros x Hxg Hxf. by apply (Hfree x) in Hxg; [|apply Hff].
  - intros (Hndg & Hdisj & Hndf).
    assert (H1 : errors s1 = []).
    { apply Hg. split; [done|]. intros x _. apply lookup_empty. }
    assert (H2 : errors (fold_left declare_function (functions program) s1)
                 = errors s1).
    { apply Hf. split; [done|]. intros x Hx. apply Hfree.
      intros Hxg. by apply (Hdisj x). }
    by rewrite H2.
Qed.

(** Every declaration of phase 1 either binds a name in the global
    scope or records an error, never both and never neither: errors and
    bindings together are as many as the globals and functions. *)
Theorem phase1_accounts_for_every_declaration (program : ProgramNode) :
  let s := phase1 program ScopeAnalyzer_new in
  errorCount s + size (global s)
  = length (globals program) + length (functions program).
Proof.
  unfold phase1, errorCount.
  set (s1 := fold_left declare_global (globals program) ScopeAnalyzer_new).
  assert (Hnew : current ScopeAnalyzer_new ≠ []) by done.
  destruct (declare_globals_lookup (globals program) ScopeAnalyzer_new "" Hnew)
    as [Hs1 _]. fold s1 in Hs1.
  pose proof (declare_loop_count global declare_global var_name var_type
                VariableRedefined
                (fun s a _ => declare_global_errors s a)
                declare_global_global (globals program)
                ScopeAnalyzer_new Hnew) as Hg.
  pose proof (declare_loop_count global declare_function fn_name
                (fun _ => "function") FunctionRedefined
                (fun s a _ => declare_function_errors s a)
                declare_function_global (functions program) s1 Hs1) as Hf.
  fold s1 in Hg. simpl. rewrite Hf.
  change (global ScopeAnalyzer_new) with (∅ : gmap string string) in Hg.
  rewrite map_size_empty in Hg. simpl in Hg. lia.
Qed.

(** ** Functions *)

(** The parameter loop of [check_function] records no error exactly
    when the parameter names are pairwise distinct, whatever the
    enclosing scopes bind: a parameter may bear the name of a global
    variable or of a function.  So a function without a body passes
    exactly when its parameters are distinct. *)
Theorem parameters_are_clean_iff_distinct
    (func : FunctionNode) (s : ScopeAnalyzer) :
  (errors (fold_left declare_param (params func) (enter_scope s)) = errors s ↔
   NoDup (var_name <$> params func)) ∧
  (body func = None →
   (errors (check_function func s) = errors s ↔
    NoDup (var_name <$> params func))).
Proof.
  assert (Hloop : errors (fold_left declare_param (params func) (enter_scope s))
                  = errors s ↔ NoDup (var_name <$> params func)).
  { change (errors s) with (errors (enter_scope s)).
    rewrite (declare_loop_clean current_table declare_param var_name var_type
               VariableRedefined declare_param_errors declare_param_table
               (params func) (enter_scope s)) by done.
    split; [by intros [? _]|]. intros H. split; [done|].
    intros x _. unfold current_table. simpl. by rewrite lookup_empty. }
  split; [done|]. intros Hbody. unfold check_function. by rewrite Hbody.
Qed.

(** [check_function] gives back the scope chain it was called with,
    and so does the whole of phase 2: parameters and locals of a
    function are visible neither in the global scope nor in the
    functions checked after it. *)
Theorem functions_leave_no_binding
    (func : FunctionNode) (program : ProgramNode) (s : ScopeAnalyzer) :
  current (check_function func s) = current s ∧
  global (check_function func s) = global s ∧
  current (phase2 program s) = current s ∧
  ∀ x, find x (current (phase2 program s)) = find x (current s).
Proof.
  unfold global. rewrite check_function_current, phase2_current.
  by repeat split.
Qed.

(** ** The end of a run *)

Lemma on_global_length f sc : length (on_global f sc) = length sc.
Proof.
  induction sc as [|c r IH]; [done|]. destruct r as [|c' r]; [done|].
  change (on_global f (c :: c' :: r)) with (c :: on_global f (c' :: r)).
  simpl in *. by rewrite IH.
Qed.

Lemma phase1_length program s :
  length (current (phase1 program s)) = length (current s).
Proof.
  unfold phase1.
  assert (Hg : ∀ vars s, length (current (fold_left declare_global vars s))
                         = length (current s)).
  { induction vars as [|v vars IH]; intros s'; simpl; [done|].
    rewrite IH. unfold declare_global.
    destruct (global_add _ _ s') as [[] s''] eqn:E; injection E as _ <-;
      simpl; apply on_global_length. }
  assert (Hf : ∀ funcs s, length (current (fold_left declare_function funcs s))
                          = length (current s)).
  { induction funcs as [|fn funcs IH]; intros s'; simpl; [done|].
    rewrite IH. unfold declare_function.
    destruct (global_add _ _ s') as [[] s''] eqn:E; injection E as _ <-;
      simpl; apply on_global_length. }
  by rewrite Hf, Hg.
Qed.

Lemma phase3_chain program s : chain_extends s (phase3 program s).
Proof.
  unfold phase3. apply (fold_left_preserves chain_extends).
  apply Forall_forall. intros v _ s'. apply check_node_chain.
Qed.

Lemma check_ends_in_global_scope_aux program :
  ∃ g, current (analyze program) = [g].
Proof.
  unfold analyze, check. simpl.
  set (s1 := phase1 program ScopeAnalyzer_new).
  pose proof (phase1_length program ScopeAnalyzer_new) as Hlen.
  fold s1 in Hlen.
  pose proof (phase3_chain program (phase2 program s1)) as H3.
  unfold chain_extends in H3. rewrite phase2_current in H3.
  destruct (current s1) as [|g1 [|? ?]]; try done.
  destruct (current (phase3 program (phase2 program s1))) as [|g3 r];
    [done|]. destruct H3 as [_ ->]. by exists g3.
Qed.

(** What phase 1 has recorded stays in front of what phases 2 and 3
    record. *)
Lemma check_emits_from_phase1 program s :
  ∃ more, errors (phase3 program (phase2 program (phase1 program s)))
          = errors (phase1 program s) ++ more.
Proof.
  unfold phase3, phase2.
  rewrite fold_left_segments by (intros; apply check_node_frame).
  rewrite fold_left_segments by (intros; apply check_function_frame).
  eexists. by rewrite <- app_assoc.
Qed.

(** When [check] returns on a fresh analyzer every scope that was
    entered has been left: [current] is the global scope again and has
    no parent.  The global scope still has every binding of phase 1;
    phase 2 did not touch it, and phase 3 can only have added to it. *)
Theorem check_ends_in_the_global_scope (program : ProgramNode) :
  current (analyze program) = [global (analyze program)] ∧
  global (phase2 program (phase1 program ScopeAnalyzer_new))
  = global (phase1 program ScopeAnalyzer_new) ∧
  global (phase1 program ScopeAnalyzer_new) ⊆ global (analyze program).
Proof.
  unfold analyze, check. simpl.
  set (s1 := phase1 program ScopeAnalyzer_new).
  assert (H1 : ∃ g1, current s1 = [g1]).
  { pose proof (phase1_length program ScopeAnalyzer_new) as Hlen.
    fold s1 in Hlen. destruct (current s1) as [|g1 [|? ?]]; try done.
    by exists g1. }
  destruct H1 as [g1 H1].
  assert (H2 : current (phase2 program s1) = [g1])
    by (by rewrite phase2_current).
  pose proof (phase3_chain program (phase2 program s1)) as H3.
  split; [|split].
  - unfold global. unfold chain_extends in H3. rewrite H2 in H3.
    destruct (current (phase3 program (phase2 program s1))) as [|g3 r];
      [done|]. destruct H3 as [_ ->]. done.
  - unfold global. by rewrite phase2_current.
  - etransitivity; [|apply global_mono, H3].
    unfold global. by rewrite phase2_current.
Qed.

(** ** Using an analyzer twice *)

Lemma check_keeps_global_names program x :
  x ∈ var_name <$> globals program ∨ x ∈ fn_name <$> functions program →
  is_Some (global (analyze program) !! x).
Proof.
  intros Hx.
  assert (H1 : is_Some (global (phase1 program ScopeAnalyzer_new) !! x)).
  { rewrite phase1_lookup.
    destruct (declared_type x (globals program)) eqn:E; [done|].
    apply declared_type_None in E. destruct Hx as [Hx|Hx]; [done|].
    by rewrite decide_True. }
  destruct H1 as [t H1]. exists t.
  eapply lookup_weaken; [exact H1|].
  unfold analyze, check. simpl.
  etransitivity; [|apply global_mono, phase3_chain].
  unfold global. by rewrite phase2_current.
Qed.

(** An analyzer keeps its global scope and its errors after [check]:
    a second [check] of the same program on the same instance finds
    every name taken, and records [VariableRedefined] for each global
    and [FunctionRedefined] for each function on top of the errors of
    the first run.  So it fails on any program that declares
    anything, also on one that passed the first time. *)
Theorem second_check_redeclares_everything (program : ProgramNode) :
  let s1 := analyze program in
  errors (phase1 program s1)
  = errors s1
    ++ replicate (length (globals program)) VariableRedefined
    ++ replicate (length (functions program)) FunctionRedefined ∧
  (globals program ≠ [] ∨ functions program ≠ [] →
   (check program s1).1 = false).
Proof.
  intros s1.
  assert (Hs1 : current s1 ≠ []).
  { unfold s1. by destruct (check_ends_in_global_scope_aux program) as [g ->]. }
  destruct (declare_loop_bound global declare_global var_name var_type
              VariableRedefined (fun s a _ => declare_global_errors s a)
              declare_global_global (globals program) s1 Hs1)
    as (Heg & Htg & Hcg).
  { intros v Hv. apply check_keeps_global_names. left.
    by apply list_elem_of_fmap_2. }
  destruct (declare_loop_bound global declare_function fn_name
              (fun _ => "function") FunctionRedefined
              (fun s a _ => declare_function_errors s a)
              declare_function_global (functions program) _ Hcg)
    as (Hef & _ & _).
  { intros fn Hfn. rewrite Htg. apply check_keeps_global_names. right.
    by apply list_elem_of_fmap_2. }
  assert (Herr : errors (phase1 program s1)
                 = errors s1
                   ++ replicate (length (globals program)) VariableRedefined
                   ++ replicate (length (functions program)) FunctionRedefined).
  { unfold phase1. by rewrite Hef, Heg, <- app_assoc. }
  split; [done|]. intros Hne.
  destruct (check_emits_from_phase1 program s1) as [more Hmore].
  unfold check, passed. simpl. rewrite Hmore, Herr.
  destruct Hne as [Hne|Hne].
  - destruct (globals program); [done|]. simpl.
    by destruct (errors s1).
  - destruct (functions program); [done|]. simpl.
    destruct (errors s1); simpl; [|done].
    by destruct (replicate _ _).
Qed.

(** ** Records that are already there *)

(** The records and lines an analyzer holds when [check] is called stay
    where they are, in front and in order, and have no influence on the
    run: what [check] appends, and the scopes it ends in, are what it
    produces from the same scopes with nothing recorded. *)
Theorem check_keeps_earlier_records
    (program : ProgramNode) (s : ScopeAnalyzer) :
  let fresh := (check program (quiet s)).2 in
  errors (check program s).2 = errors s ++ errors fresh ∧
  cout (check program s).2 = cout s ++ cout fresh ∧
  current (check program s).2 = current fresh.
Proof.
  assert (H : ∀ e o s', (check program (with_log e o s')).2
                        = with_log e o (check program s').2).
  { intros e o s'. unfold check, phase3, phase2, phase1. simpl.
    rewrite (fold_left_frame e o declare_global)
      by (apply Forall_forall; intros; apply declare_global_frame).
    rewrite (fold_left_frame e o declare_function)
      by (apply Forall_forall; intros; apply declare_function_frame).
    rewrite (fold_left_frame e o (fun s fn => check_function fn s))
      by (apply Forall_forall; intros; apply check_function_frame).
    rewrite (fold_left_frame e o (fun s v => check_node (var_value v) s))
      by (apply Forall_forall; intros; apply check_node_frame).
    done. }
  intros fresh.
  assert (Hs : (check program s).2 = with_log (errors s) (cout s) fresh).
  { unfold fresh. rewrite <- H. by rewrite with_log_quiet. }
  by rewrite Hs.
Qed.

(** ** Trees with nothing to resolve *)

Lemma forallb_Forall_true {A : Type} (f : A → bool) (l : list A) :
  forallb f l = true → Forall (fun a => f a = true) l.
Proof.
  induction l as [|a l IH]; simpl; [constructor|].
  intros H. apply andb_true_iff in H as [Ha Hl]. constructor; auto.
Qed.

Lemma leave_enter_scope s : leave_scope (enter_scope s) = s.
Proof. by destruct s. Qed.

Lemma fold_left_unchanged (l : list (option ASTNode)) :
  Forall (fun p => ∀ s, check_node p s = s) l →
  ∀ s, fold_left (fun s p => check_node p s) l s = s.
Proof.
  induction 1 as [|p l Hp _ IH]; intros s; simpl; [done|]. by rewrite Hp, IH.
Qed.

(** A tree of literals, operators, returns, branches, loops and blocks
    only, with no declaration, reference, assignment or call in it, is
    always valid: checking it leaves the analyzer exactly as it was,
    errors, output and scopes. *)
Theorem inert_trees_change_nothing (node : option ASTNode) :
  inert node = true → ∀ s, check_node node s = s.
Proof.
  induction node as
    [ | type name value IHvalue | statements IHstatements
    | name args IHargs | name | type value
    | op lhs rhs IHlhs IHrhs | name value IHvalue | value IHvalue
    | cond thn els IHcond IHthn IHels | cond body IHcond IHbody
    | init cond incr body IHinit IHcond IHincr IHbody | ]
    using ASTNode_pointer_ind; intros Hinert s;
    autorewrite with check_node_eq; try done.
  - change (forallb inert statements = true) in Hinert.
    rewrite fold_left_unchanged; [apply leave_enter_scope|].
    apply forallb_Forall_true in Hinert.
    clear -IHstatements Hinert.
    induction IHstatements as [|p l Hp _ IH]; constructor;
      inversion Hinert; subst; auto.
  - change (inert lhs && inert rhs = true) in Hinert.
    apply andb_true_iff in Hinert as [H1 H2].
    by rewrite IHlhs, IHrhs.
  - by apply IHvalue.
  - change (inert cond && inert thn && inert els = true) in Hinert.
    apply andb_true_iff in Hinert as [H12 H3].
    apply andb_true_iff in H12 as [H1 H2].
    by rewrite IHcond, IHthn, IHels.
  - change (inert cond && inert body = true) in Hinert.
    apply andb_true_iff in Hinert as [H1 H2].
    by rewrite IHcond, IHbody.
  - change (inert init && inert cond && inert incr && inert body = true)
      in Hinert.
    apply andb_true_iff in Hinert as [H123 H4].
    apply andb_true_iff in H123 as [H12 H3].
    apply andb_true_iff in H12 as [H1 H2].
    rewrite IHinit, IHcond, IHincr, IHbody by done.
    apply leave_enter_scope.
Qed.

Lemma inert_trees_change_nothing_witness :
  let loop :=
    Some (WhileNode (Some (LiteralNode "bool" "true"))
            (Some (BlockNode
               [Some (IfNode (Some (BinaryOpNode "<"
                                      (Some (LiteralNode "int" "1"))
                                      (Some (LiteralNode "int" "2"))))
                        (Some (ReturnNode None)) None);
                None]))) in
  check_node loop (error UndefinedFunction "f" ScopeAnalyzer_new)
  = error UndefinedFunction "f" ScopeAnalyzer_new.
Proof.
  apply (inert_trees_change_nothing
           (Some (WhileNode (Some (LiteralNode "bool" "true"))
                    (Some (BlockNode
                       [Some (IfNode (Some (BinaryOpNode "<"
                                              (Some (LiteralNode "int" "1"))
                                              (Some (LiteralNode "int" "2"))))
                                (Some (ReturnNode None)) None);
                        None]))))).
  reflexivity.
Defined.

(** ** Which errors come from where *)

#[global] Instance emits_only_preorder P : PreOrder (emits_only P).
Proof.
  split.
  - intros s. exists []. simpl. by rewrite !app_nil_r.
  - intros s1 s2 s3 (ev1 & HP1 & He1 & Ho1) (ev2 & HP2 & He2 & Ho2).
    exists (ev1 ++ ev2). rewrite !fmap_app, !app_assoc, He2, He1, Ho2, Ho1.
    split; [by apply Forall_app | done].
Qed.

Lemma emits_only_error (P : ScopeError * string → Prop) err name s :
  P (err, name) → emits_only P s (error err name s).
Proof. intros HP. exists [(err, name)]. split; [by repeat constructor | done]. Qed.

Lemma emits_only_silent (P : ScopeError * string → Prop) s s' :
  errors s' = errors s → cout s' = cout s → emits_only P s s'.
Proof.
  intros He Ho. exists []. simpl. rewrite !app_nil_r. by split.
Qed.

Lemma emits_only_enter_scope P s : emits_only P s (enter_scope s).
Proof. by apply emits_only_silent. Qed.

Lemma emits_only_leave_scope P s : emits_only P s (leave_scope s).
Proof. by apply emits_only_silent. Qed.

Lemma emits_only_current_add P name type s :
  emits_only P s (current_add name type s).2.
Proof.
  apply emits_only_silent; unfold current_add;
    destruct (current s); try done; by destruct (add name type g).
Qed.

Lemma check_node_emits_only (node : option ASTNode) :
  ∀ s, emits_only node_error s (check_node node s).
Proof.
  assert (Herr : ∀ err name s, err ≠ FunctionRedefined →
            emits_only node_error s (error err name s)).
  { intros err name s Hne. apply emits_only_error. unfold node_error. simpl.
    destruct err; auto. done. }
  node_induction node; try reflexivity; auto.
  - etransitivity; [|apply IHvalue].
    destruct (current_in_scope name s);
      [by apply Herr | apply emits_only_current_add].
  - etransitivity; [apply emits_only_enter_scope|].
    etransitivity; [|apply emits_only_leave_scope].
    by apply (fold_left_preserves (emits_only node_error)).
  - etransitivity;
      [|by apply (fold_left_preserves (emits_only node_error))].
    destruct (decide (find name [global s] = "function"));
      [reflexivity | by apply Herr].
  - destruct (decide (find name (current s) = ""));
      [by apply Herr | reflexivity].
  - etransitivity; [apply IHlhs | apply IHrhs].
  - destruct (decide (find name (current (check_node value s)) = ""));
      [|apply IHvalue].
    etransitivity; [apply IHvalue | by apply Herr].
  - etransitivity; [apply IHcond|]. etransitivity; [apply IHthn | apply IHels].
  - etransitivity; [apply IHcond | apply IHbody].
  - etransitivity; [apply emits_only_enter_scope|].
    etransitivity; [|apply emits_only_leave_scope].
    etransitivity; [apply IHinit|]. etransitivity; [apply IHcond|].
    etransitivity; [apply IHincr | apply IHbody].
Qed.

Lemma check_function_emits_only func s :
  emits_only node_error s (check_function func s).
Proof.
  unfold check_function.
  etransitivity; [apply emits_only_enter_scope|].
  etransitivity; [|apply emits_only_leave_scope].
  etransitivity; [|apply check_node_emits_only].
  apply (fold_left_preserves (emits_only node_error)).
  apply Forall_forall. intros p _ s'. unfold declare_param.
  pose proof (emits_only_current_add node_error (var_name p) (var_type p) s').
  destruct (current_add _ _ s') as [[] s'']; simpl in *; [done|].
  etransitivity; [eassumption|]. apply (emits_only_error node_error).
  unfold node_error. simpl. auto.
Qed.

Lemma phase1_emits_only program s :
  emits_only declaration_error s (phase1 program s).
Proof.
  unfold phase1.
  transitivity (fold_left declare_global (globals program) s).
  - apply (fold_left_preserves (emits_only declaration_error)).
    apply Forall_forall. intros v _ s'. unfold declare_global.
    destruct (global_add _ _ s') as [[] s''] eqn:E; injection E as _ <-.
    + by apply emits_only_silent.
    + etransitivity; cycle 1.
      * apply (emits_only_error declaration_error). unfold declaration_error.
        simpl. auto.
      * by apply emits_only_silent.
  - apply (fold_left_preserves (emits_only declaration_error)).
    apply Forall_forall. intros fn _ s'. unfold declare_function.
    destruct (global_add _ _ s') as [[] s''] eqn:E; injection E as _ <-.
    + by apply emits_only_silent.
    + etransitivity; cycle 1.
      * apply (emits_only_error declaration_error). unfold declaration_error.
        simpl. auto.
      * by apply emits_only_silent.
Qed.

Lemma sum_list_with_ones {A : Type} (l : list A) :
  sum_list_with (fun _ => 1) l = length l.
Proof. induction l as [|a l IH]; simpl; [done | by rewrite IH]. Qed.

Lemma phase1_function_redefinitions program :
  length (filter (fun err => err = FunctionRedefined)
            (errors (phase1 program ScopeAnalyzer_new)))
  ≤ length (functions program).
Proof.
  unfold phase1.
  set (sg := fold_left declare_global (globals program) ScopeAnalyzer_new).
  assert (Hg : emits_only (fun ev => ev.1 = VariableRedefined)
                 ScopeAnalyzer_new sg).
  { apply (fold_left_preserves (emits_only _)).
    apply Forall_forall. intros v _ s'. unfold declare_global.
    destruct (global_add _ _ s') as [[] s''] eqn:E; injection E as _ <-.
    - by apply emits_only_silent.
    - etransitivity; cycle 1.
      + by apply (emits_only_error (fun ev => ev.1 = VariableRedefined)).
      + by apply emits_only_silent. }
  destruct Hg as (evg & HPg & Heg & _). simpl in Heg.
  assert (H0 : filter (fun err => err = FunctionRedefined) (errors sg) = []).
  { rewrite Heg. clear -HPg. induction HPg as [|[e n] l He _ IH]; [done|].
    simpl in *. rewrite filter_cons_False; [done|]. by rewrite He. }
  destruct (fold_left_emits (fun _ : FunctionNode => 1) declare_function
              (functions program)) with (s := sg)
    as (evf & Hlen & Hef & _).
  { apply Forall_forall. intros fn _ s'. apply declare_function_emits. }
  rewrite Hef, filter_app, length_app, H0. simpl.
  etransitivity; [apply length_filter|].
  rewrite length_fmap. by rewrite sum_list_with_ones in Hlen.
Qed.

(** The error vector of a run splits in two: first what phase 1
    recorded, which are redefinitions only, then what the bodies and
    the initializers gave, among which there is no
    [FunctionRedefined].  A function redefinition is only ever found
    by phase 1, so there are at most as many as there are functions. *)
Theorem errors_by_origin (program : ProgramNode) :
  ∃ declared checked : list ScopeError,
    errors (phase1 program ScopeAnalyzer_new) = declared ∧
    errors (analyze program) = declared ++ checked ∧
    Forall (fun err => err = VariableRedefined ∨ err = FunctionRedefined)
      declared ∧
    Forall (fun err => err = UndeclaredVariable ∨ err = UndefinedFunction ∨
                       err = VariableRedefined) checked ∧
    length (filter (fun err => err = FunctionRedefined) (errors (analyze program)))
    ≤ length (functions program).
Proof.
  set (s1 := phase1 program ScopeAnalyzer_new).
  destruct (phase1_emits_only program ScopeAnalyzer_new)
    as (ev1 & HP1 & He1 & _). fold s1 in He1. simpl in He1.
  assert (H23 : emits_only node_error s1 (analyze program)).
  { unfold analyze, check, phase3, phase2. simpl. fold s1.
    transitivity (fold_left (fun s fn => check_function fn s)
                    (functions program) s1).
    - apply (fold_left_preserves (emits_only node_error)).
      apply Forall_forall. intros fn _ s'. apply check_function_emits_only.
    - apply (fold_left_preserves (emits_only node_error)).
      apply Forall_forall. intros v _ s'. apply check_node_emits_only. }
  destruct H23 as (ev23 & HP23 & He23 & _).
  assert (Hchecked : Forall (fun err => err = UndeclaredVariable ∨
                       err = UndefinedFunction ∨ err = VariableRedefined)
                       ev23.*1).
  { apply Forall_fmap. eapply Forall_impl; [exact HP23|]. by intros [e n]. }
  exists (errors s1), (ev23.*1).
  split; [done|]. split; [done|]. split.
  { rewrite He1. apply Forall_fmap. eapply Forall_impl; [exact HP1|].
    by intros [e n]. }
  split; [done|].
  rewrite He23, filter_app, length_app.
  assert (H0 : filter (fun err => err = FunctionRedefined) ev23.*1 = []).
  { clear -Hchecked. induction Hchecked as [|e l He _ IH]; [done|].
    rewrite filter_cons_False; [done|]. by destruct He as [->|[->| ->]]. }
  rewrite H0. simpl. rewrite Nat.add_0_r.
  apply phase1_function_redefinitions.
Qed.

(** ** Global names are visible everywhere *)

#[global] Instance keeps_visible_preorder x : PreOrder (keeps_visible x).
Proof.
  split.
  - by intros s Hs.
  - intros s1 s2 s3 H12 H23 H1.
    destruct (H12 H1) as [H2 E12]. destruct (H23 H2) as [H3 E23].
    split; [done | by rewrite E23].
Qed.

Lemma visible_find x s : visible x s → find x (current s) ≠ "".
Proof.
  unfold visible, global. intros [HF Hg].
  induction HF as [|symbols parent Hsym _ IH]; simpl in *.
  - by destruct Hg.
  - destruct (symbols !! x) as [t|] eqn:E; [by intros -> |].
    apply IH. destruct parent; [by rewrite E in Hg; destruct Hg | done].
Qed.

Lemma undeclared_lines_error x err name s :
  (err, name) ≠ (UndeclaredVariable, x) →
  undeclared_lines x (error err name s) = undeclared_lines x s.
Proof.
  intros Hne. unfold undeclared_lines. rewrite count_line_error.
  destruct (decide (line (err, name) = line (UndeclaredVariable, x))) as [E|];
    [by apply line_inj in E | lia].
Qed.

Lemma keeps_visible_error x err name s :
  (err, name) ≠ (UndeclaredVariable, x) →
  keeps_visible x s (error err name s).
Proof. intros Hne Hs. split; [done | by apply undeclared_lines_error]. Qed.

Lemma current_add_cout name type s : cout (current_add name type s).2 = cout s.
Proof.
  unfold current_add. destruct (current s); [done|].
  by destruct (add name type g).
Qed.

Lemma keeps_visible_current_add x name type s :
  ¬ (name = x ∧ type = "") →
  keeps_visible x s (current_add name type s).2.
Proof.
  intros Htyped [HF Hg]. split; [split|].
  - revert HF. unfold current_add.
    destruct (current s) as [|symbols parent] eqn:Ecur; intros HF.
    { simpl. by rewrite Ecur. }
    pose proof (add_lookup name type symbols x) as Hl.
    destruct (add name type symbols) as [ok symbols']. simpl in *.
    inversion HF as [|? ? Hsym HF']; subst. constructor; [|done].
    rewrite Hl. destruct (symbols !! x); [done|].
    destruct (decide (name = x)); [|done].
    intros [= ->]. by apply Htyped.
  - destruct Hg as [t Hg]. exists t. eapply lookup_weaken; [exact Hg|].
    apply global_mono, chain_extends_current_add.
  - unfold undeclared_lines. by rewrite current_add_cout.
Qed.

Lemma visible_enter_scope x s : visible x s → visible x (enter_scope s).
Proof.
  intros [HF Hg]. split.
  - constructor; [by rewrite lookup_empty | done].
  - rewrite global_enter_scope; [done|]. destruct Hg as [t Hg].
    by eapply global_non_null.
Qed.

(** What holds inside a scope holds for the construct that opens and
    leaves it, since leaving gives back the chain. *)
Lemma keeps_visible_scoped x s s' :
  keeps_visible x (enter_scope s) s' →
  current (leave_scope s') = current s →
  keeps_visible x s (leave_scope s').
Proof.
  intros Hk Hcur Hs.
  destruct (Hk (visible_enter_scope x s Hs)) as [_ E].
  split; [|exact E].
  unfold visible, global in *. by rewrite Hcur.
Qed.

Lemma typed_not_empty (name x type : string) :
  negb (bool_decide (name = x) && bool_decide (type = "")) = true →
  ¬ (name = x ∧ type = "").
Proof.
  intros H [-> ->]. by rewrite !bool_decide_eq_true_2 in H.
Qed.

Lemma check_node_keeps_visible x (node : option ASTNode) :
  typed x node = true → ∀ s, keeps_visible x s (check_node node s).
Proof.
  assert (Hloop : ∀ l : list (option ASTNode),
            Forall (fun p => typed x p = true →
                      ∀ s, keeps_visible x s (check_node p s)) l →
            forallb (typed x) l = true →
            ∀ s, keeps_visible x s (fold_left (fun s p => check_node p s) l s)).
  { intros l IH Ht s. apply (fold_left_preserves (keeps_visible x)).
    apply forallb_Forall_true in Ht. clear s.
    induction IH as [|p l Hp _ IHl]; constructor;
      inversion Ht; subst; auto. }
  assert (Hname : ∀ name s,
            keeps_visible x s
              (if decide (find name (current s) = "")
               then error UndeclaredVariable name s else s)).
  { intros name s Hs. destruct (decide (find name (current s) = "")) as [E|];
      [|done]. apply keeps_visible_error; [|done].
    intros [= ->]. by apply (visible_find x s Hs). }
  induction node as
    [ | type name value IHvalue | statements IHstatements
    | name args IHargs | name | type value
    | op lhs rhs IHlhs IHrhs | name value IHvalue | value IHvalue
    | cond thn els IHcond IHthn IHels | cond body IHcond IHbody
    | init cond incr body IHinit IHcond IHincr IHbody | ]
    using ASTNode_pointer_ind; intros Htyped s;
    autorewrite with check_node_eq; try reflexivity.
  - change (negb (bool_decide (name = x) && bool_decide (type = ""))
            && typed x value = true) in Htyped.
    apply andb_true_iff in Htyped as [Hdecl Hvalue].
    etransitivity; [|by apply IHvalue].
    destruct (current_in_scope name s).
    + by apply keeps_visible_error.
    + apply keeps_visible_current_add. by apply typed_not_empty.
  - apply keeps_visible_scoped.
    + by apply Hloop.
    + rewrite <- check_node_block. apply check_node_block_current.
  - change (forallb (typed x) args = true) in Htyped.
    etransitivity; [|by apply Hloop].
    destruct (decide (find name [global s] = "function"));
      [reflexivity | by apply keeps_visible_error].
  - apply Hname.
  - change (typed x lhs && typed x rhs = true) in Htyped.
    apply andb_true_iff in Htyped as [H1 H2].
    etransitivity; [by apply IHlhs | by apply IHrhs].
  - etransitivity; [by apply IHvalue | apply Hname].
  - by apply IHvalue.
  - change (typed x cond && typed x thn && typed x els = true) in Htyped.
    apply andb_true_iff in Htyped as [H12 H3].
    apply andb_true_iff in H12 as [H1 H2].
    etransitivity; [by apply IHcond|].
    etransitivity; [by apply IHthn | by apply IHels].
  - change (typed x cond && typed x body = true) in Htyped.
    apply andb_true_iff in Htyped as [H1 H2].
    etransitivity; [by apply IHcond | by apply IHbody].
  - change (typed x init && typed x cond && typed x incr && typed x body
            = true) in Htyped.
    apply andb_true_iff in Htyped as [H123 H4].
    apply andb_true_iff in H123 as [H12 H3].
    apply andb_true_iff in H12 as [H1 H2].
    apply keeps_visible_scoped.
    + etransitivity; [by apply IHinit|].
      etransitivity; [by apply IHcond|].
      etransitivity; [by apply IHincr | by apply IHbody].
    + rewrite <- check_node_for. apply check_node_for_current.
Qed.

Lemma check_function_keeps_visible x func s :
  typed_function x func = true →
  keeps_visible x s (check_function func s).
Proof.
  unfold typed_function. intros Ht.
  apply andb_true_iff in Ht as [Hparams Hbody].
  apply keeps_visible_scoped.
  - etransitivity; [|by apply check_node_keeps_visible].
    apply (fold_left_preserves (keeps_visible x)).
    apply forallb_Forall_true in Hparams.
    eapply Forall_impl; [exact Hparams|]. intros p Hp s'.
    unfold declare_param, typed_param in *.
    pose proof (keeps_visible_current_add x (var_name p) (var_type p) s'
                  (typed_not_empty _ _ _ Hp)) as Hk.
    destruct (current_add _ _ s') as [[] s'']; simpl in *; [done|].
    etransitivity; [exact Hk | by apply keeps_visible_error].
  - apply check_function_current.
Qed.

Lemma phase1_undeclared_lines x program :
  undeclared_lines x (phase1 program ScopeAnalyzer_new) = 0.
Proof.
  destruct (phase1_emits_only program ScopeAnalyzer_new)
    as (evs & HP & _ & Ho).
  unfold undeclared_lines. rewrite Ho. simpl.
  apply count_line_zero. intros Hin.
  apply list_elem_of_fmap in Hin as (ev & Hline & Hev).
  apply line_inj in Hline. subst ev.
  rewrite Forall_forall in HP. by destruct (HP _ Hev).
Qed.

(** A name that a global variable or a function bears is never reported
    as an undeclared variable, wherever it is referred to or assigned
    (in a function declared before or after it, in any block, in a
    global initializer), provided no declaration of that name in the
    program has the empty string as its type tag.  This holds for the
    name of a function too: a reference to it as a variable is
    accepted. *)
Theorem global_names_are_visible_everywhere
    (program : ProgramNode) (x : string) :
  x ∈ var_name <$> globals program ∨ x ∈ fn_name <$> functions program →
  typed_program x program = true →
  line (UndeclaredVariable, x) ∉ cout (analyze program).
Proof.
  intros Hx Htyped. unfold typed_program in Htyped.
  apply andb_true_iff in Htyped as [Hglobals Hfunctions].
  apply forallb_Forall_true in Hglobals, Hfunctions.
  set (s1 := phase1 program ScopeAnalyzer_new).
  assert (H1 : visible x s1).
  { assert (Hlookup := phase1_lookup program x). fold s1 in Hlookup.
    assert (Hsingle : ∃ g1, current s1 = [g1]).
    { pose proof (phase1_length program ScopeAnalyzer_new) as Hlen.
      fold s1 in Hlen. destruct (current s1) as [|g1 [|? ?]]; try done.
      by exists g1. }
    destruct Hsingle as [g1 Hg1].
    assert (Hg : global s1 = g1) by (unfold global; by rewrite Hg1).
    split.
    - rewrite Hg1. constructor; [|constructor]. rewrite <- Hg, Hlookup.
      destruct (declared_type x (globals program)) as [t|] eqn:E.
      + apply declared_type_Some in E as (v & Hv & Hname & <-).
        rewrite Forall_forall in Hglobals. specialize (Hglobals v Hv).
        unfold typed_var in Hglobals.
        apply andb_true_iff in Hglobals as [Hdecl _].
        intros [= Hty]. by apply (typed_not_empty _ _ _ Hdecl).
      + by destruct (decide _).
    - rewrite Hlookup.
      destruct (declared_type x (globals program)) eqn:E; [done|].
      apply declared_type_None in E. destruct Hx as [Hx|Hx]; [done|].
      by rewrite decide_True. }
  assert (H2 : keeps_visible x s1 (phase2 program s1)).
  { unfold phase2. apply (fold_left_preserves (keeps_visible x)).
    eapply Forall_impl; [exact Hfunctions|]. intros fn Hfn s.
    by apply check_function_keeps_visible. }
  assert (H3 : keeps_visible x (phase2 program s1) (analyze program)).
  { unfold analyze, check, phase3. simpl. fold s1.
    apply (fold_left_preserves (keeps_visible x)).
    eapply Forall_impl; [exact Hglobals|]. intros v Hv s.
    unfold typed_var in Hv. apply andb_true_iff in Hv as [_ Hv].
    by apply check_node_keeps_visible. }
  destruct (H2 H1) as [H2' E2]. destruct (H3 H2') as [_ E3].
  apply count_line_zero. change (undeclared_lines x (analyze program) = 0).
  rewrite E3, E2. apply phase1_undeclared_lines.
Qed.

Lemma global_names_are_visible_everywhere_witness :
  getErrors (analyze reads_global) = [] ∧
  line (UndeclaredVariable, "limit") ∉ cout (analyze reads_global).
Proof.
  split; [by vm_compute|].
  apply (global_names_are_visible_everywhere reads_global "limit").
  - left. simpl. apply elem_of_cons. by left.
  - reflexivity.
Defined.

(** ** Calls of unknown names *)

Lemma extends_length sc sc' : extends sc sc' → length sc' = length sc.
Proof.
  destruct sc as [|c r], sc' as [|c' r']; simpl; try done. by intros [_ ->].
Qed.

Lemma current_add_length name type s :
  length (current (current_add name type s).2) = length (current s).
Proof. apply extends_length, chain_extends_current_add. Qed.

(** A declaration leaves a call of [f] unresolved when it is made below
    the global scope, or is not a declaration of [f] with the tag
    "function". *)
Lemma unresolved_current_add f name type s :
  2 ≤ length (current s) ∨ ¬ (name = f ∧ type = "function") →
  unresolved f s → unresolved f (current_add name type s).2.
Proof.
  unfold unresolved, global, current_add. intros Hdecl.
  destruct (current s) as [|c [|c1 r]] eqn:E; simpl.
  - by rewrite E.
  - destruct Hdecl as [Hlen|Hdecl]; [simpl in Hlen; lia|].
    pose proof (add_lookup name type c f) as Hl.
    destruct (add name type c) as [ok c']. simpl in *. rewrite Hl.
    destruct (c !! f); [done|].
    destruct (decide (name = f)); [|done].
    intros _ ->. by apply Hdecl.
  - by destruct (add name type c).
Qed.

Lemma not_function_tagged_decl (name f type : string) :
  negb (bool_decide (name = f) && bool_decide (type = "function")) = true →
  ¬ (name = f ∧ type = "function").
Proof.
  intros H [-> ->]. by rewrite !bool_decide_eq_true_2 in H.
Qed.

Lemma unresolved_enter_scope f n s :
  1 ≤ n → length (current s) = n ∧ unresolved f s →
  length (current (enter_scope s)) = S n ∧ unresolved f (enter_scope s).
Proof.
  intros Hn [Hlen Hf]. split; [simpl; lia|].
  unfold unresolved. rewrite global_enter_scope; [done|].
  destruct (current s); simpl in *; [lia | done].
Qed.

Lemma unresolved_restored f n s s' :
  length (current s) = n ∧ unresolved f s →
  current s' = current s →
  length (current s') = n ∧ unresolved f s'.
Proof. intros [Hlen Hf] Hcur. unfold unresolved, global in *. by rewrite Hcur. Qed.

(** While the global scope does not bind [f] to "function", every call
    of [f] that [check_node] walks is reported, and the global scope
    stays that way: below the global scope for any tree, in the global
    scope itself for a tree that does not declare [f] with the tag
    "function". *)
Lemma check_node_reports_calls f (node : option ASTNode) :
  ∀ n s,
    1 ≤ n →
    2 ≤ n ∨ not_function_tagged f node = true →
    length (current s) = n ∧ unresolved f s →
    (length (current (check_node node s)) = n ∧
     unresolved f (check_node node s)) ∧
    undefined_lines f (check_node node s)
    = undefined_lines f s + calls_to f node.
Proof.
  assert (Hloop : ∀ l : list (option ASTNode),
            Forall (fun p => ∀ n s, 1 ≤ n →
              2 ≤ n ∨ not_function_tagged f p = true →
              length (current s) = n ∧ unresolved f s →
              (length (current (check_node p s)) = n ∧
               unresolved f (check_node p s)) ∧
              undefined_lines f (check_node p s)
              = undefined_lines f s + calls_to f p) l →
            ∀ n s, 1 ≤ n →
              2 ≤ n ∨ forallb (not_function_tagged f) l = true →
              length (current s) = n ∧ unresolved f s →
              (length (current (fold_left (fun s p => check_node p s) l s)) = n
               ∧ unresolved f (fold_left (fun s p => check_node p s) l s)) ∧
              undefined_lines f (fold_left (fun s p => check_node p s) l s)
              = undefined_lines f s + sum_list_with (calls_to f) l).
  { intros l Hl n s Hn Ht Hs.
    apply (fold_left_measure
             (fun s => length (current s) = n ∧ unresolved f s)
             (undefined_lines f)); [|done].
    assert (Htag : Forall (fun p => 2 ≤ n ∨ not_function_tagged f p = true) l).
    { destruct Ht as [Ht|Ht].
      - apply Forall_forall. intros p _. by left.
      - apply forallb_Forall_true in Ht.
        eapply Forall_impl; [exact Ht|]. intros p Hp. by right. }
    clear s Hs Ht.
    induction Hl as [|p l Hp _ IH]; constructor;
      inversion Htag; subst; auto. }
  induction node as
    [ | type name value IHvalue | statements IHstatements
    | name args IHargs | name | type value
    | op lhs rhs IHlhs IHrhs | name value IHvalue | value IHvalue
    | cond thn els IHcond IHthn IHels | cond body IHcond IHbody
    | init cond incr body IHinit IHcond IHincr IHbody | ]
    using ASTNode_pointer_ind; intros n s Hn Htag Hs;
    autorewrite with check_node_eq.
  - split; [done | simpl; lia].
  - change (calls_to f (Some (VariableNode type name value)))
      with (calls_to f value).
    assert (Hvalue : 2 ≤ n ∨ not_function_tagged f value = true).
    { destruct Htag as [?|Htag]; [by left|]. right.
      change (negb (bool_decide (name = f) && bool_decide (type = "function"))
              && not_function_tagged f value = true) in Htag.
      by apply andb_true_iff in Htag as [_ ?]. }
    destruct Hs as [Hlen Hf].
    destruct (current_in_scope name s).
    + destruct (IHvalue n (error VariableRedefined name s)) as [HI E];
        [done..|]. split; [done|].
      by rewrite E, undefined_lines_error.
    + destruct (IHvalue n (current_add name type s).2) as [HI E];
        [done | done | |].
      { split; [by rewrite current_add_length|].
        apply unresolved_current_add; [|done].
        destruct Htag as [?|Htag]; [left; lia|]. right.
        change (negb (bool_decide (name = f) && bool_decide (type = "function"))
                && not_function_tagged f value = true) in Htag.
        apply andb_true_iff in Htag as [Hdecl _].
        by apply not_function_tagged_decl. }
      split; [done|]. by rewrite E, undefined_lines_current_add.
  - destruct (Hloop statements IHstatements (S n) (enter_scope s))
      as [_ E]; [lia | left; lia | by apply unresolved_enter_scope|].
    split.
    + apply (unresolved_restored f n s); [done|].
      rewrite <- check_node_block. apply check_node_block_current.
    + by rewrite undefined_lines_leave_scope, E.
  - change (calls_to f (Some (CallNode name args)))
      with ((if decide (name = f) then 1 else 0)
            + sum_list_with (calls_to f) args).
    destruct Hs as [Hlen Hf].
    destruct (decide (name = f)) as [->|Hne].
    + rewrite decide_False by done.
      destruct (Hloop args IHargs n (error UndefinedFunction f s))
        as [HI E]; [done..|]. split; [done|].
      rewrite E, undefined_lines_error_self. lia.
    + destruct (decide (find name [global s] = "function")).
      * destruct (Hloop args IHargs n s) as [HI E]; [done..|].
        split; [done|]. rewrite E. lia.
      * destruct (Hloop args IHargs n (error UndefinedFunction name s))
          as [HI E]; [done..|]. split; [done|].
        rewrite E, undefined_lines_error by congruence. lia.
  - destruct (decide (find name (current s) = ""));
      (split; [done|]); [rewrite undefined_lines_error by done|];
      simpl; lia.
  - split; [done | simpl; lia].
  - change (calls_to f (Some (BinaryOpNode op lhs rhs)))
      with (calls_to f lhs + calls_to f rhs).
    assert (H12 : (2 ≤ n ∨ not_function_tagged f lhs = true) ∧
                  (2 ≤ n ∨ not_function_tagged f rhs = true)).
    { destruct Htag as [?|Htag]; [by split; left|].
      change (not_function_tagged f lhs && not_function_tagged f rhs = true)
        in Htag.
      apply andb_true_iff in Htag as [? ?]. by split; right. }
    destruct H12 as [H1 H2].
    destruct (IHlhs n s Hn H1 Hs) as [HI1 E1].
    destruct (IHrhs n _ Hn H2 HI1) as [HI2 E2]. split; [done|]. lia.
  - change (calls_to f (Some (AssignmentNode name value)))
      with (calls_to f value).
    destruct (IHvalue n s Hn Htag Hs) as [HI E].
    destruct (decide (find name (current (check_node value s)) = ""));
      (split; [done|]); [rewrite undefined_lines_error by done|]; done.
  - by apply IHvalue.
  - change (calls_to f (Some (IfNode cond thn els)))
      with (calls_to f cond + calls_to f thn + calls_to f els).
    assert (H123 : (2 ≤ n ∨ not_function_tagged f cond = true) ∧
                   (2 ≤ n ∨ not_function_tagged f thn = true) ∧
                   (2 ≤ n ∨ not_function_tagged f els = true)).
    { destruct Htag as [?|Htag]; [by repeat split; left|].
      change (not_function_tagged f cond && not_function_tagged f thn
              && not_function_tagged f els = true) in Htag.
      apply andb_true_iff in Htag as [H12 ?].
      apply andb_true_iff in H12 as [? ?]. by repeat split; right. }
    destruct H123 as (H1 & H2 & H3).
    destruct (IHcond n s Hn H1 Hs) as [HI1 E1].
    destruct (IHthn n _ Hn H2 HI1) as [HI2 E2].
    destruct (IHels n _ Hn H3 HI2) as [HI3 E3]. split; [done|]. lia.
  - change (calls_to f (Some (WhileNode cond body)))
      with (calls_to f cond + calls_to f body).
    assert (H12 : (2 ≤ n ∨ not_function_tagged f cond = true) ∧
                  (2 ≤ n ∨ not_function_tagged f body = true)).
    { destruct Htag as [?|Htag]; [by split; left|].
      change (not_function_tagged f cond && not_function_tagged f body = true)
        in Htag.
      apply andb_true_iff in Htag as [? ?]. by split; right. }
    destruct H12 as [H1 H2].
    destruct (IHcond n s Hn H1 Hs) as [HI1 E1].
    destruct (IHbody n _ Hn H2 HI1) as [HI2 E2]. split; [done|]. lia.
  - change (calls_to f (Some (ForNode init cond incr body)))
      with (calls_to f init + calls_to f cond + calls_to f incr
            + calls_to f body).
    assert (Hin : 1 ≤ S n) by lia.
    assert (Hleft : ∀ p, 2 ≤ S n ∨ not_function_tagged f p = true)
      by (intros p; left; lia).
    destruct (IHinit (S n) (enter_scope s) Hin (Hleft _)) as [HI1 E1];
      [by apply unresolved_enter_scope|].
    destruct (IHcond (S n) _ Hin (Hleft _) HI1) as [HI2 E2].
    destruct (IHincr (S n) _ Hin (Hleft _) HI2) as [HI3 E3].
    destruct (IHbody (S n) _ Hin (Hleft _) HI3) as [HI4 E4].
    split.
    + apply (unresolved_restored f n s); [done|].
      rewrite <- check_node_for. apply check_node_for_current.
    + rewrite undefined_lines_leave_scope, E4, E3, E2, E1,
        undefined_lines_enter_scope. lia.
  - split; [done | simpl; lia].
Qed.

Lemma check_function_reports_calls f func s :
  length (current s) = 1 ∧ unresolved f s →
  (length (current (check_function func s)) = 1 ∧
   unresolved f (check_function func s)) ∧
  undefined_lines f (check_function func s)
  = undefined_lines f s + calls_to f (body func).
Proof.
  intros Hs. unfold check_function.
  set (s2 := fold_left declare_param (params func) (enter_scope s)).
  assert (H2 : length (current s2) = 2 ∧ unresolved f s2).
  { unfold s2. generalize (unresolved_enter_scope f 1 s (le_n 1) Hs).
    generalize (enter_scope s).
    induction (params func) as [|p ps IH]; intros s' Hs'; simpl; [done|].
    apply IH. destruct Hs' as [Hlen Hf]. unfold declare_param.
    pose proof (current_add_length (var_name p) (var_type p) s') as Hl.
    pose proof (unresolved_current_add f (var_name p) (var_type p) s') as Hu.
    destruct (current_add _ _ s') as [[] s'']; simpl in *.
    - split; [lia|]. apply Hu; [left; lia | done].
    - split; [lia|]. apply Hu; [left; lia | done]. }
  destruct (check_node_reports_calls f (body func) 2 s2) as [_ E];
    [lia | left; lia | done |].
  split.
  - apply (unresolved_restored f 1 s); [done|]. apply check_function_current.
  - rewrite undefined_lines_leave_scope, E. unfold s2.
    by rewrite declare_params_undefined_lines, undefined_lines_enter_scope.
Qed.

(** A name that neither a global variable nor a function bears cannot
    be called: every call of it that [check] walks, in a function body
    or in a global initializer, is reported as an undefined function,
    once per call.  (The global initializers are checked in the global
    scope itself; they are required not to declare the name with the
    type tag "function" there.) *)
Theorem unknown_calls_are_reported (program : ProgramNode) (f : string) :
  f ∉ var_name <$> globals program →
  f ∉ fn_name <$> functions program →
  forallb (fun var => not_function_tagged f (var_value var)) (globals program)
  = true →
  count_line (line (UndefinedFunction, f)) (cout (analyze program))
  = program_calls f program.
Proof.
  intros Hg Hfn Htag.
  set (s1 := phase1 program ScopeAnalyzer_new).
  assert (H1 : length (current s1) = 1 ∧ unresolved f s1).
  { split; [apply phase1_length|].
    unfold unresolved, s1. rewrite find_global, phase1_lookup.
    apply declared_type_None in Hg. rewrite Hg.
    by rewrite decide_False. }
  destruct (fold_left_measure
              (fun s => length (current s) = 1 ∧ unresolved f s)
              (undefined_lines f) (fun fn => calls_to f (body fn))
              (fun s fn => check_function fn s) (functions program))
    with (s := s1) as [H2 E2]; [|done|].
  { apply Forall_forall. intros fn _ s Hs.
    by apply check_function_reports_calls. }
  destruct (fold_left_measure
              (fun s => length (current s) = 1 ∧ unresolved f s)
              (undefined_lines f) (fun v => calls_to f (var_value v))
              (fun s v => check_node (var_value v) s) (globals program))
    with (s := phase2 program s1) as [_ E3]; [|done|].
  { apply forallb_Forall_true in Htag.
    eapply Forall_impl; [exact Htag|]. intros v Hv s Hs.
    apply check_node_reports_calls; [lia | by right | done]. }
  change (undefined_lines f (analyze program) = program_calls f program).
  unfold analyze, check, program_calls. simpl. fold s1.
  unfold phase3. rewrite E3. unfold phase2 at 1. rewrite E2.
  unfold s1. rewrite phase1_undefined_lines. lia.
Qed.

Lemma unknown_calls_are_reported_witness :
  program_calls "sum" calls_unknown = 3 ∧
  count_line (line (UndefinedFunction, "sum")) (cout (analyze calls_unknown))
  = program_calls "sum" calls_unknown.
Proof.
  split; [reflexivity|].
  apply (unknown_calls_are_reported calls_unknown "sum").
  - simpl. rewrite elem_of_cons. intros [H|H]; [done|].
    by apply not_elem_of_nil in H.
  - simpl. rewrite elem_of_cons. intros [H|H]; [done|].
    by apply not_elem_of_nil in H.
  - reflexivity.
Defined.

(** * The analyzer against the specified analysis *)

Lemma recorded_nothing s : recorded [] (current s) s = s.
Proof. destruct s. unfold recorded. simpl. by rewrite !app_nil_r. Qed.

Lemma recorded_recorded found1 found2 sc1 sc2 s :
  recorded found2 sc2 (recorded found1 sc1 s)
  = recorded (found1 ++ found2) sc2 s.
Proof. unfold recorded. simpl. by rewrite !fmap_app, !app_assoc. Qed.

Lemma recorded_error err name s :
  error err name s = recorded [(err, name)] (current s) s.
Proof. reflexivity. Qed.

Lemma implements_skip : implements (fun s => s) spec_skip.
Proof. intros s _. simpl. by rewrite recorded_nothing. Qed.

(** Sequencing: the second step starts in the scopes the first one
    leaves and adds its faults after those of the first. *)
Lemma implements_then f g p q :
  implements f p → implements g q →
  (∀ s, current s ≠ [] → current (f s) ≠ []) →
  implements (fun s => g (f s)) (spec_then p q).
Proof.
  intros Hf Hg Hnn s Hs. unfold spec_then.
  rewrite (Hg (f s)) by auto. rewrite (Hf s Hs).
  destruct (p (current s)) as [found1 sc1]. simpl.
  destruct (q sc1) as [found2 sc2]. simpl.
  apply recorded_recorded.
Qed.

Lemma implements_each {A : Type} (step : ScopeAnalyzer → A → ScopeAnalyzer)
    (p : A → Pass) (l : list A) :
  Forall (fun a => implements (fun s => step s a) (p a)) l →
  (∀ a s, current s ≠ [] → current (step s a) ≠ []) →
  implements (fold_left step l) (spec_each p l).
Proof.
  intros Hl Hnn. induction Hl as [|a l Ha _ IH]; simpl.
  - apply implements_skip.
  - apply (implements_then (fun s => step s a) (fold_left step l)); auto.
Qed.

Lemma implements_scoped f p :
  implements f p →
  implements (fun s => leave_scope (f (enter_scope s))) (spec_scoped p).
Proof.
  intros Hf s Hs. unfold spec_scoped. rewrite (Hf (enter_scope s)) by done.
  simpl. by destruct (p (∅ :: current s)).
Qed.

(** The steps that make a fault. *)
Lemma implements_declare name type :
  implements
    (fun s => if current_in_scope name s
              then error VariableRedefined name s
              else (current_add name type s).2)
    (spec_declare VariableRedefined name type).
Proof.
  intros s Hs. unfold current_in_scope, current_add, spec_declare, add, in_scope.
  destruct (current s) as [|symbols parent] eqn:E; [done|].
  destruct (symbols !! name) eqn:En; simpl.
  - by rewrite recorded_error, E.
  - destruct s. unfold recorded. simpl. by rewrite !app_nil_r.
Qed.

Lemma implements_declare_param param :
  implements (fun s => declare_param s param)
    (spec_declare VariableRedefined (var_name param) (var_type param)).
Proof.
  intros s Hs. unfold declare_param, current_add, spec_declare, add, in_scope.
  destruct (current s) as [|symbols parent] eqn:E; [done|].
  destruct (symbols !! var_name param) eqn:En; simpl.
  - done.
  - destruct s. unfold recorded. simpl. by rewrite !app_nil_r.
Qed.

Lemma implements_resolve name :
  implements
    (fun s => if decide (find name (current s) = "")
              then error UndeclaredVariable name s
              else s)
    (spec_resolve name).
Proof.
  intros s Hs. unfold spec_resolve.
  destruct (decide (find name (current s) = "")); simpl;
    [done | by rewrite recorded_nothing].
Qed.

Lemma find_global_function name s :
  find name [global s] = "function" ↔
  List.last (current s) ∅ !! name = Some "function".
Proof.
  rewrite find_global. unfold global.
  destruct (List.last (current s) ∅ !! name); simpl; split; congruence.
Qed.

Lemma implements_call name :
  implements
    (fun s => if decide (find name [global s] = "function")
              then s
              else error UndefinedFunction name s)
    (spec_call name).
Proof.
  intros s Hs. unfold spec_call.
  destruct (decide (find name [global s] = "function")) as [E|E];
    rewrite find_global_function in E.
  - rewrite decide_True by done. simpl. by rewrite recorded_nothing.
  - by rewrite decide_False.
Qed.

Lemma check_node_non_null node s :
  current s ≠ [] → current (check_node node s) ≠ [].
Proof. apply chain_extends_non_null, check_node_chain. Qed.

(** [check_node] does what the generic node check of the specification
    says, for every kind of node. *)
Lemma check_node_implements (node : option ASTNode) :
  implements (check_node node) (spec_node node).
Proof.
  assert (Heach : ∀ l : list (option ASTNode),
            Forall (fun p => implements (check_node p) (spec_node p)) l →
            implements (fold_left (fun s p => check_node p s) l)
              (spec_each spec_node l)).
  { intros l Hl.
    apply (implements_each (fun s p => check_node p s) spec_node); [done|].
    intros p s. apply check_node_non_null. }
  induction node as
    [ | type name value IHvalue | statements IHstatements
    | name args IHargs | name | type value
    | op lhs rhs IHlhs IHrhs | name value IHvalue | value IHvalue
    | cond thn els IHcond IHthn IHels | cond body IHcond IHbody
    | init cond incr body IHinit IHcond IHincr IHbody | ]
    using ASTNode_pointer_ind.
  - apply implements_skip.
  - change (spec_node (Some (VariableNode type name value)))
      with (spec_then (spec_declare VariableRedefined name type)
              (spec_node value)).
    apply (implements_then _ (check_node value) _ _
             (implements_declare name type) IHvalue).
    intros s Hs. destruct (current_in_scope name s); [done|].
    eapply chain_extends_non_null; [apply chain_extends_current_add | done].
  - change (spec_node (Some (BlockNode statements)))
      with (spec_scoped (spec_each spec_node statements)).
    apply (implements_scoped
             (fold_left (fun s p => check_node p s) statements)).
    by apply Heach.
  - change (spec_node (Some (CallNode name args)))
      with (spec_then (spec_call name) (spec_each spec_node args)).
    apply (implements_then _ (fold_left (fun s p => check_node p s) args) _ _
             (implements_call name) (Heach args IHargs)).
    intros s Hs. by destruct (decide _).
  - apply implements_resolve.
  - apply implements_skip.
  - change (spec_node (Some (BinaryOpNode op lhs rhs)))
      with (spec_then (spec_node lhs) (spec_node rhs)).
    apply (implements_then (check_node lhs) (check_node rhs)); auto.
    intros s. apply check_node_non_null.
  - change (spec_node (Some (AssignmentNode name value)))
      with (spec_then (spec_node value) (spec_resolve name)).
    apply (implements_then (check_node value) _ _ _
             IHvalue (implements_resolve name)).
    intros s. apply check_node_non_null.
  - exact IHvalue.
  - change (spec_node (Some (IfNode cond thn els)))
      with (spec_then (spec_node cond)
              (spec_then (spec_node thn) (spec_node els))).
    apply (implements_then (check_node cond)
             (fun s => check_node els (check_node thn s))); auto.
    + apply (implements_then (check_node thn) (check_node els)); auto.
      intros s. apply check_node_non_null.
    + intros s. apply check_node_non_null.
  - change (spec_node (Some (WhileNode cond body)))
      with (spec_then (spec_node cond) (spec_node body)).
    apply (implements_then (check_node cond) (check_node body)); auto.
    intros s. apply check_node_non_null.
  - change (spec_node (Some (ForNode init cond incr body)))
      with (spec_scoped
              (spec_then (spec_node init)
                 (spec_then (spec_node cond)
                    (spec_then (spec_node incr) (spec_node body))))).
    apply (implements_scoped
             (fun s => check_node body
                         (check_node incr (check_node cond (check_node init s))))).
    apply (implements_then (check_node init)
             (fun s => check_node body (check_node incr (check_node cond s))));
      auto; [|intros s; apply check_node_non_null].
    apply (implements_then (check_node cond)
             (fun s => check_node body (check_node incr s)));
      auto; [|intros s; apply check_node_non_null].
    apply (implements_then (check_node incr) (check_node body)); auto.
    intros s. apply check_node_non_null.
  - apply implements_skip.
Qed.

Lemma check_function_implements func :
  implements (check_function func) (spec_function func).
Proof.
  unfold spec_function.
  apply (implements_scoped
           (fun s => check_node (body func)
                       (fold_left declare_param (params func) s))).
  apply (implements_then (fold_left declare_param (params func))
           (check_node (body func))).
  - apply (implements_each declare_param).
    + apply Forall_forall. intros p _. apply implements_declare_param.
    + intros p s. apply chain_extends_non_null, declare_param_chain.
  - apply check_node_implements.
  - intros s Hs. eapply chain_extends_non_null; [|exact Hs].
    apply (fold_left_preserves chain_extends).
    apply Forall_forall. intros p _ s'. apply declare_param_chain.
Qed.

(** Phase 1 works on the scope [global] points to; when that is the
    current scope, as it is when [check] starts, its two loops are
    declarations into the current scope. *)
Lemma declare_global_implements var s g :
  current s = [g] →
  declare_global s var
  = recorded
      (spec_declare VariableRedefined (var_name var) (var_type var) [g]).1
      (spec_declare VariableRedefined (var_name var) (var_type var) [g]).2 s
  ∧ ∃ g', (spec_declare VariableRedefined (var_name var) (var_type var) [g]).2
          = [g'].
Proof.
  intros Hs.
  unfold declare_global, global_add, global, spec_declare, add, in_scope.
  rewrite Hs. simpl.
  destruct (g !! var_name var) eqn:E; simpl.
  - split; [|by eexists]. unfold error, recorded. simpl. done.
  - split; [|by eexists]. destruct s. unfold recorded. simpl in *.
    by rewrite !app_nil_r.
Qed.

Lemma declare_function_implements func s g :
  current s = [g] →
  declare_function s func
  = recorded
      (spec_declare FunctionRedefined (fn_name func) "function" [g]).1
      (spec_declare FunctionRedefined (fn_name func) "function" [g]).2 s
  ∧ ∃ g', (spec_declare FunctionRedefined (fn_name func) "function" [g]).2
          = [g'].
Proof.
  intros Hs.
  unfold declare_function, global_add, global, spec_declare, add, in_scope.
  rewrite Hs. simpl.
  destruct (g !! fn_name func) eqn:E; simpl.
  - split; [|by eexists]. unfold error, recorded. simpl. done.
  - split; [|by eexists]. destruct s. unfold recorded. simpl in *.
    by rewrite !app_nil_r.
Qed.

Lemma global_loop_implements {A : Type}
    (step : ScopeAnalyzer → A → ScopeAnalyzer) (p : A → Pass) (l : list A) :
  (∀ a s g, current s = [g] →
     step s a = recorded (p a [g]).1 (p a [g]).2 s ∧ ∃ g', (p a [g]).2 = [g']) →
  ∀ s g, current s = [g] →
    fold_left step l s
    = recorded (spec_each p l [g]).1 (spec_each p l [g]).2 s
    ∧ ∃ g', (spec_each p l [g]).2 = [g'].
Proof.
  intros Hstep. induction l as [|a l IH]; intros s g Hs; simpl.
  - split; [|by eexists]. by rewrite <- Hs, recorded_nothing.
  - destruct (Hstep a s g Hs) as [Ea [g1 Eg1]].
    unfold spec_then. destruct (p a [g]) as [found1 sc1]. simpl in *. subst sc1.
    destruct (IH (step s a) g1) as [El [g2 Eg2]]; [by rewrite Ea|].
    destruct (spec_each p l [g1]) as [found2 sc2]. simpl in *.
    split; [|by exists g2]. by rewrite El, Ea, recorded_recorded.
Qed.

(** One call of [check] on a new analyzer does what the specified
    analysis says from the empty global scope. *)
Lemma check_implements (program : ProgramNode) :
  analyze program
  = recorded (spec_program program [∅]).1 (spec_program program [∅]).2
      ScopeAnalyzer_new.
Proof.
  unfold analyze, check, phase3, phase2, phase1, spec_program, spec_then.
  cbn [snd].
  destruct (global_loop_implements declare_global
              (fun var => spec_declare VariableRedefined
                            (var_name var) (var_type var))
              (globals program)
              (fun var s g => declare_global_implements var s g)
              ScopeAnalyzer_new ∅ eq_refl) as [E1 [g1 Eg1]].
  fold (spec_globals program) in E1, Eg1 |- *.
  destruct (spec_globals program [∅]) as [found1 sc1].
  cbn [fst snd] in E1, Eg1. subst sc1. rewrite E1.
  destruct (global_loop_implements declare_function
              (fun func => spec_declare FunctionRedefined
                             (fn_name func) "function")
              (functions program)
              (fun func s g => declare_function_implements func s g)
              (recorded found1 [g1] ScopeAnalyzer_new) g1 eq_refl)
    as [E2 [g2 Eg2]].
  fold (spec_functions program) in E2, Eg2 |- *.
  destruct (spec_functions program [g1]) as [found2 sc2].
  cbn [fst snd] in E2, Eg2. subst sc2. rewrite E2, recorded_recorded.
  assert (E3 : implements
                 (fold_left (fun s func => check_function func s)
                    (functions program))
                 (spec_bodies program)).
  { apply (implements_each (fun s func => check_function func s)).
    - apply Forall_forall. intros func _. apply check_function_implements.
    - intros func s Hs. by rewrite check_function_current. }
  assert (E4 : implements
                 (fold_left (fun s var => check_node (var_value var) s)
                    (globals program))
                 (spec_initializers program)).
  { apply (implements_each (fun s var => check_node (var_value var) s)).
    - apply Forall_forall. intros var _. apply check_node_implements.
    - intros var s. apply check_node_non_null. }
  rewrite E3 by done. cbn [current recorded].
  destruct (spec_bodies program [g2]) as [found3 sc3] eqn:Ebodies.
  cbn [fst snd]. rewrite recorded_recorded.
  assert (Hsc3 : sc3 ≠ []).
  { pose proof (E3 (recorded (found1 ++ found2) [g2] ScopeAnalyzer_new)
                  ltac:(done)) as Hrun.
    cbn [current recorded] in Hrun. rewrite Ebodies in Hrun.
    apply (f_equal current) in Hrun.
    pose proof (phase2_current program
                  (recorded (found1 ++ found2) [g2] ScopeAnalyzer_new)) as Hc.
    unfold phase2 in Hc. rewrite Hc in Hrun. cbn [current recorded snd] in Hrun.
    by rewrite <- Hrun. }
  rewrite E4 by done. cbn [current recorded].
  destruct (spec_initializers program sc3) as [found4 sc4].
  cbn [fst snd]. rewrite recorded_recorded.
  by rewrite <- !app_assoc.
Qed.

(** ** Order and completeness of the errors *)

(** C6: the vector that one [check] returns is the faults of the
    analysis that the specification describes, all of them and in its
    order, and one line is printed for each.  That analysis goes on
    after a fault: through the globals and then the functions of
    phase 1, every function of phase 2 and every initializer of
    phase 3, each in declaration order, and inside a tree into every
    statement, operand, argument and branch.  The flag is true exactly
    when there is no fault. *)
Theorem check_records_every_fault_in_order (program : ProgramNode) :
  getErrors (analyze program) = (expected_faults program).*1 ∧
  cout (analyze program) = line <$> expected_faults program ∧
  ((check program ScopeAnalyzer_new).1 = true ↔ expected_faults program = []) ∧
  let '(declared_globals, sc1) := spec_globals program [∅] in
  let '(declared_functions, sc2) := spec_functions program sc1 in
  let '(in_bodies, sc3) := spec_bodies program sc2 in
  let '(in_initializers, _) := spec_initializers program sc3 in
  expected_faults program
  = declared_globals ++ declared_functions ++ in_bodies ++ in_initializers.
Proof.
  assert (Herr : getErrors (analyze program) = (expected_faults program).*1).
  { unfold getErrors. by rewrite check_implements. }
  split; [exact Herr|]. split; [by rewrite check_implements|]. split.
  - change ((check program ScopeAnalyzer_new).1)
      with (passed (analyze program)).
    unfold passed. unfold getErrors in Herr. rewrite Herr.
    destruct (expected_faults program); simpl; split; done.
  - unfold expected_faults, spec_program, spec_then.
    destruct (spec_globals program [∅]) as [found1 sc1].
    destruct (spec_functions program sc1) as [found2 sc2].
    destruct (spec_bodies program sc2) as [found3 sc3].
    by destruct (spec_initializers program sc3) as [found4 sc4].
Qed.

(** On [faults_everywhere] the seven faults are all there: the second
    [g], the second parameter [c], [d] in the condition, [u] in the
    first branch, [v] in the second, [w] after them, and [h] in the
    initializer of a global that was itself a redefinition. *)
Example faults_everywhere_are_all_recorded :
  expected_faults faults_everywhere
  = [(VariableRedefined, "g"); (VariableRedefined, "c");
     (UndeclaredVariable, "d"); (UndeclaredVariable, "u");
     (UndefinedFunction, "v"); (UndeclaredVariable, "w");
     (UndeclaredVariable, "h")] ∧
  getErrors (analyze faults_everywhere)
  = [VariableRedefined; VariableRedefined; UndeclaredVariable;
     UndeclaredVariable; UndefinedFunction; UndeclaredVariable;
     UndeclaredVariable] ∧
  cout (analyze faults_everywhere)
  = ["Error: Variable redefined: g"; "Error: Variable redefined: c";
     "Error: Undeclared variable: d"; "Error: Undeclared variable: u";
     "Error: Undefined function: v"; "Error: Undeclared variable: w";
     "Error: Undeclared variable: h"].
Proof. by vm_compute. Qed.

(** * Termination: stack and work *)

Lemma returns_pure f s : returns (run_pure f) s (f s) 0.
Proof. by exists 0. Qed.

Lemma returns_then c1 c2 s s1 s2 b1 b2 :
  returns c1 s s1 b1 → returns c2 s1 s2 b2 →
  returns (run_then c1 c2) s s2 (b1 + b2).
Proof.
  intros (n1 & E1 & H1) (n2 & E2 & H2). exists (n1 + n2).
  unfold run_then. rewrite E1, E2. split; [done | lia].
Qed.

Lemma returns_weaken c s s' b b' : b ≤ b' → returns c s s' b → returns c s s' b'.
Proof. intros Hb (n & E & H). exists n. split; [done | lia]. Qed.

Lemma max_list_with_ge {A : Type} (f : A → nat) (l : list A) (a : A) :
  a ∈ l → f a ≤ max_list_with f l.
Proof.
  induction 1 as [a l|a b l _ IH]; simpl; lia.
Qed.

(** [find] returns what [Scope::find] returns, after at most one call
    per scope of the chain, if the stack holds that many. *)
Lemma find_run_enough name sc : ∀ frames,
  length sc ≤ frames →
  ∃ n, find_run name sc frames = Some (find name sc, n) ∧ n ≤ length sc.
Proof.
  induction sc as [|symbols parent IH]; intros frames Hlen; simpl in *.
  - by exists 0.
  - destruct frames as [|frames']; [lia|].
    destruct (symbols !! name); [exists 1; split; [done | lia]|].
    destruct (IH frames') as (n & -> & Hn); [lia|].
    exists (S n). split; [done | lia].
Qed.

Lemma returns_resolve frames name s W :
  length (current s) ≤ frames → length (current s) ≤ W →
  returns (run_resolve frames name) s
    (if decide (find name (current s) = "")
     then error UndeclaredVariable name s else s) W.
Proof.
  intros Hf HW. unfold returns, run_resolve.
  destruct (find_run_enough name (current s) frames Hf) as (n & -> & Hn).
  exists n. split; [done | lia].
Qed.

Lemma returns_resolve_call frames name s W :
  1 ≤ frames → 1 ≤ W →
  returns (run_resolve_call frames name) s
    (if decide (find name [global s] = "function")
     then s else error UndefinedFunction name s) W.
Proof.
  intros Hf HW. unfold returns, run_resolve_call.
  destruct (find_run_enough name [global s] frames) as (n & -> & Hn); [done|].
  exists n. simpl in Hn. split; [done | lia].
Qed.

Lemma check_node_length node s :
  length (current (check_node node s)) = length (current s).
Proof. apply extends_length, check_node_chain. Qed.

Lemma within_guarded p frames s W :
  within p →
  2 * ast_height p + length (current s) ≤ frames →
  length (current s) + ast_height p ≤ W →
  returns (check_node_run_guarded p frames) s (check_node p s)
    (ast_size p * S W).
Proof.
  intros Hp Hf HW. destruct p as [n|]; [by apply Hp|].
  eapply returns_weaken; [|apply (returns_pure (fun s => s))]. lia.
Qed.

Lemma within_each (l : list (option ASTNode)) :
  Forall within l →
  ∀ frames s W,
    2 * max_list_with ast_height l + length (current s) ≤ frames →
    length (current s) + max_list_with ast_height l ≤ W →
    returns (run_each (fun p => check_node_run p frames) l) s
      (fold_left (fun s p => check_node p s) l s)
      (sum_list_with ast_size l * S W).
Proof.
  induction 1 as [|p l Hp _ IH]; intros frames s W Hf HW.
  - apply (returns_pure (fun s => s)).
  - cbn [max_list_with sum_list_with] in *. simpl fold_left.
    eapply returns_weaken; [|eapply returns_then].
    + rewrite Nat.mul_add_distr_r. reflexivity.
    + apply Hp; lia.
    + apply IH; rewrite check_node_length; lia.
Qed.

(** A call on a node that is not null, from what its body does. *)
Lemma returns_called node frames' s s' b b' :
  returns (check_node_run_nonnull node frames') s s' b → S b ≤ b' →
  returns (check_node_run (Some node) (S frames')) s s' b'.
Proof.
  intros (n & E & Hn) Hb. exists (S n). unfold check_node_run.
  rewrite E. split; [done | lia].
Qed.

Lemma check_node_within (node : option ASTNode) : within node.
Proof.
  induction node as
    [ | type name value IHvalue | statements IHstatements
    | name args IHargs | name | type value
    | op lhs rhs IHlhs IHrhs | name value IHvalue | value IHvalue
    | cond thn els IHcond IHthn IHels | cond body IHcond IHbody
    | init cond incr body IHinit IHcond IHincr IHbody | ]
    using ASTNode_pointer_ind; intros frames s W Hf HW.
  - destruct frames as [|frames']; [simpl in Hf; lia|].
    exists 1. split; [done|]. simpl. lia.
  - change (ast_height (Some (VariableNode type name value)))
      with (S (ast_height value)) in *.
    change (ast_size (Some (VariableNode type name value)))
      with (S (ast_size value)).
    destruct frames as [|frames']; [lia|].
    eapply returns_called.
    { change (check_node_run_nonnull (VariableNode type name value) frames')
        with (run_then
                (run_pure (fun s => if current_in_scope name s
                                    then error VariableRedefined name s
                                    else (current_add name type s).2))
                (check_node_run_guarded value frames')).
      rewrite check_node_variable.
      eapply returns_then; [apply returns_pure|].
      apply (within_guarded value frames' _ W); [done|..];
        destruct (current_in_scope name s);
        rewrite ?current_add_length; simpl in *; lia. }
    clear; first [lia | nia].
  - change (ast_height (Some (BlockNode statements)))
      with (S (max_list_with ast_height statements)) in *.
    change (ast_size (Some (BlockNode statements)))
      with (S (sum_list_with ast_size statements)).
    destruct frames as [|frames']; [lia|].
    eapply returns_called.
    { change (check_node_run_nonnull (BlockNode statements) frames')
        with (run_then (run_pure enter_scope)
                (run_then
                   (run_each (fun p => check_node_run p frames') statements)
                   (run_pure leave_scope))).
      rewrite check_node_block.
      eapply returns_then; [apply returns_pure|].
      eapply returns_then; [|apply returns_pure].
      apply (within_each statements IHstatements frames' _ W); simpl in *; lia. }
    clear; first [lia | nia].
  - change (ast_height (Some (CallNode name args)))
      with (S (max_list_with ast_height args)) in *.
    change (ast_size (Some (CallNode name args)))
      with (S (sum_list_with ast_size args)).
    destruct frames as [|frames']; [lia|].
    eapply returns_called.
    { change (check_node_run_nonnull (CallNode name args) frames')
        with (run_then (run_resolve_call frames' name)
                (run_each (fun p => check_node_run p frames') args)).
      rewrite check_node_call.
      eapply returns_then.
      - apply (returns_resolve_call frames' name s W); lia.
      - apply (within_each args IHargs frames' _ W);
          destruct (decide (find name [global s] = "function")); simpl in *; lia. }
    clear; first [lia | nia].
  - change (ast_height (Some (NameNode name))) with 1 in *.
    change (ast_size (Some (NameNode name))) with 1.
    destruct frames as [|frames']; [lia|].
    eapply returns_called.
    { change (check_node_run_nonnull (NameNode name) frames')
        with (run_resolve frames' name).
      rewrite check_node_name.
      apply (returns_resolve frames' name s W); lia. }
    clear; first [lia | nia].
  - destruct frames as [|frames']; [simpl in Hf; lia|].
    eapply returns_called; [apply (returns_pure (fun s => s))|].
    simpl. lia.
  - change (ast_height (Some (BinaryOpNode op lhs rhs)))
      with (S (Nat.max (ast_height lhs) (ast_height rhs))) in *.
    change (ast_size (Some (BinaryOpNode op lhs rhs)))
      with (S (ast_size lhs + ast_size rhs)).
    destruct frames as [|frames']; [lia|].
    eapply returns_called.
    { change (check_node_run_nonnull (BinaryOpNode op lhs rhs) frames')
        with (run_then (check_node_run lhs frames')
                (check_node_run rhs frames')).
      rewrite check_node_binary.
      eapply returns_then.
      - apply (IHlhs frames' s W); lia.
      - apply (IHrhs frames' _ W); rewrite check_node_length; lia. }
    clear; first [lia | nia].
  - change (ast_height (Some (AssignmentNode name value)))
      with (S (ast_height value)) in *.
    change (ast_size (Some (AssignmentNode name value)))
      with (S (ast_size value)).
    destruct frames as [|frames']; [lia|].
    eapply returns_called.
    { change (check_node_run_nonnull (AssignmentNode name value) frames')
        with (run_then (check_node_run value frames')
                (run_resolve frames' name)).
      rewrite check_node_assignment.
      eapply returns_then.
      - apply (IHvalue frames' s W); lia.
      - apply (returns_resolve frames' name _ W);
          rewrite check_node_length; lia. }
    clear; first [lia | nia].
  - change (ast_height (Some (ReturnNode value)))
      with (S (ast_height value)) in *.
    change (ast_size (Some (ReturnNode value))) with (S (ast_size value)).
    destruct frames as [|frames']; [lia|].
    eapply returns_called.
    { change (check_node_run_nonnull (ReturnNode value) frames')
        with (check_node_run_guarded value frames').
      rewrite check_node_return.
      apply (within_guarded value frames' s W); [done|..]; lia. }
    clear; first [lia | nia].
  - change (ast_height (Some (IfNode cond thn els)))
      with (S (Nat.max (Nat.max (ast_height cond) (ast_height thn))
                 (ast_height els))) in *.
    change (ast_size (Some (IfNode cond thn els)))
      with (S (ast_size cond + ast_size thn + ast_size els)).
    destruct frames as [|frames']; [lia|].
    eapply returns_called.
    { change (check_node_run_nonnull (IfNode cond thn els) frames')
        with (run_then (check_node_run cond frames')
                (run_then (check_node_run thn frames')
                   (check_node_run_guarded els frames'))).
      rewrite check_node_if.
      eapply returns_then; [|eapply returns_then].
      - apply (IHcond frames' s W); lia.
      - apply (IHthn frames' _ W); rewrite check_node_length; lia.
      - apply (within_guarded els frames' _ W); [done|..];
          rewrite !check_node_length; lia. }
    clear; first [lia | nia].
  - change (ast_height (Some (WhileNode cond body)))
      with (S (Nat.max (ast_height cond) (ast_height body))) in *.
    change (ast_size (Some (WhileNode cond body)))
      with (S (ast_size cond + ast_size body)).
    destruct frames as [|frames']; [lia|].
    eapply returns_called.
    { change (check_node_run_nonnull (WhileNode cond body) frames')
        with (run_then (check_node_run cond frames')
                (check_node_run body frames')).
      rewrite check_node_while.
      eapply returns_then.
      - apply (IHcond frames' s W); lia.
      - apply (IHbody frames' _ W); rewrite check_node_length; lia. }
    clear; first [lia | nia].
  - change (ast_height (Some (ForNode init cond incr body)))
      with (S (Nat.max (Nat.max (Nat.max (ast_height init) (ast_height cond))
                          (ast_height incr)) (ast_height body))) in *.
    change (ast_size (Some (ForNode init cond incr body)))
      with (S (ast_size init + ast_size cond + ast_size incr + ast_size body)).
    destruct frames as [|frames']; [lia|].
    eapply returns_called.
    { change (check_node_run_nonnull (ForNode init cond incr body) frames')
        with (run_then (run_pure enter_scope)
                (run_then (check_node_run_guarded init frames')
                   (run_then (check_node_run_guarded cond frames')
                      (run_then (check_node_run_guarded incr frames')
                         (run_then (check_node_run_guarded body frames')
                            (run_pure leave_scope)))))).
      rewrite check_node_for.
      eapply returns_then; [apply returns_pure|].
      eapply returns_then; [|eapply returns_then; [|eapply returns_then;
        [|eapply returns_then; [|apply returns_pure]]]].
      - apply (within_guarded init frames' _ W); [done|..]; unfold enter_scope; cbn [current length]; lia.
      - apply (within_guarded cond frames' _ W); [done|..];
          rewrite !check_node_length; unfold enter_scope; cbn [current length]; lia.
      - apply (within_guarded incr frames' _ W); [done|..];
          rewrite !check_node_length; unfold enter_scope; cbn [current length]; lia.
      - apply (within_guarded body frames' _ W); [done|..];
          rewrite !check_node_length; unfold enter_scope; cbn [current length]; lia. }
    clear; first [lia | nia].
  - destruct frames as [|frames']; [simpl in Hf; lia|].
    eapply returns_called; [apply (returns_pure (fun s => s))|].
    simpl. lia.
Qed.

Lemma declare_params_length ps s :
  length (current (fold_left declare_param ps s)) = length (current s).
Proof.
  apply extends_length, (fold_left_preserves chain_extends).
  apply Forall_forall. intros p _ s'. apply declare_param_chain.
Qed.

(** A call of [check_function] from the global scope. *)
Lemma check_function_returns func frames s H :
  length (current s) = 1 → ast_height (body func) ≤ H → 2 * H + 3 ≤ frames →
  returns (check_function_run func frames) s (check_function func s)
    (function_size func * (H + 3)).
Proof.
  intros Hs Hh Hf. destruct frames as [|frames']; [lia|].
  assert (Hin : length (current (fold_left declare_param (params func)
                                   (enter_scope s))) = 2).
  { rewrite declare_params_length. unfold enter_scope. cbn [current length].
    by rewrite Hs. }
  assert (Hbody : returns (check_node_run_guarded (body func) frames')
                    (fold_left declare_param (params func) (enter_scope s))
                    (check_node (body func)
                       (fold_left declare_param (params func) (enter_scope s)))
                    (ast_size (body func) * S (H + 2))).
  { apply within_guarded; [apply check_node_within|..]; rewrite Hin; lia. }
  destruct (returns_then (run_pure enter_scope) _ s _ _ 0 _
              (returns_pure enter_scope s)
              (returns_then (run_pure (fold_left declare_param (params func)))
                 _ _ _ _ 0 _
                 (returns_pure _ _)
                 (returns_then _ (run_pure leave_scope) _ _ _ _ 0
                    Hbody (returns_pure _ _))))
    as (n & E & Hn).
  exists (S n). unfold check_function_run. rewrite E. split; [done|].
  unfold function_size. nia.
Qed.

Lemma phase2_returns funcs frames H :
  Forall (fun func => ast_height (body func) ≤ H) funcs → 2 * H + 3 ≤ frames →
  ∀ s, length (current s) = 1 →
    returns (run_each (fun func => check_function_run func frames) funcs) s
      (fold_left (fun s func => check_function func s) funcs s)
      (sum_list_with function_size funcs * (H + 3)).
Proof.
  intros Hall Hf. induction Hall as [|func funcs Hh _ IH]; intros s Hs.
  - apply (returns_pure (fun s => s)).
  - cbn [sum_list_with fold_left]. rewrite Nat.mul_add_distr_r.
    apply (returns_then _ _ _ (check_function func s));
      [by apply check_function_returns|].
    apply IH. by rewrite check_function_current.
Qed.

Lemma phase3_returns vars frames H :
  Forall (fun var => ast_height (var_value var) ≤ H) vars →
  2 * H + 3 ≤ frames →
  ∀ s, length (current s) = 1 →
    returns
      (run_each (fun var => check_node_run_guarded (var_value var) frames) vars)
      s (fold_left (fun s var => check_node (var_value var) s) vars s)
      (sum_list_with var_size vars * (H + 3)).
Proof.
  intros Hall Hf. induction Hall as [|var vars Hh _ IH]; intros s Hs.
  - apply (returns_pure (fun s => s)).
  - cbn [sum_list_with fold_left]. rewrite Nat.mul_add_distr_r.
    apply (returns_then _ _ _ (check_node (var_value var) s)).
    + eapply returns_weaken;
        [|apply (within_guarded (var_value var) frames s (H + 1));
          [apply check_node_within | lia | lia]].
      unfold var_size. nia.
    + apply IH. by rewrite check_node_length.
Qed.

Lemma heights_below (program : ProgramNode) :
  Forall (fun func => ast_height (body func) ≤ program_height program)
    (functions program) ∧
  Forall (fun var => ast_height (var_value var) ≤ program_height program)
    (globals program).
Proof.
  unfold program_height. split; apply Forall_forall; intros a Ha.
  - pose proof (max_list_with_ge (fun func => ast_height (body func)) _ _ Ha).
    simpl in *. lia.
  - pose proof (max_list_with_ge (fun var => ast_height (var_value var)) _ _ Ha).
    simpl in *. lia.
Qed.

(** The stack that a tree of blocks needs. *)
Lemma nested_blocks_overflow n : ∀ frames s,
  frames ≤ n → check_node_run (Some (nested_blocks n)) frames s = None.
Proof.
  induction n as [|n IH]; intros frames s Hf.
  - by replace frames with 0 by lia.
  - destruct frames as [|frames']; [done|].
    unfold check_node_run. cbn [nested_blocks].
    change (check_node_run_nonnull (BlockNode [Some (nested_blocks n)]) frames')
      with (run_then (run_pure enter_scope)
              (run_then
                 (run_each (fun p => check_node_run p frames')
                    [Some (nested_blocks n)])
                 (run_pure leave_scope))).
    cbn [run_each]. unfold run_then, run_pure. rewrite IH; [done | lia].
Qed.

Lemma deep_program_overflow n frames s :
  frames ≤ n + 2 → check_run (deep_program n) frames s = None.
Proof.
  intros Hf. destruct frames as [|[|frames']]; [done..|].
  unfold check_run, deep_program. cbn [functions globals run_each].
  unfold check_function_run, check_node_run_guarded.
  cbn [functions globals body params fold_left].
  unfold run_then, run_pure.
  rewrite nested_blocks_overflow; [done | lia].
Qed.

(** The calls of [Scope::find] for a name that only the last scope of
    the chain binds. *)
Lemma find_run_walk name type g (pre : Scope) : ∀ frames,
  Forall (fun symbols => symbols !! name = None) pre →
  g !! name = Some type →
  length pre < frames →
  find_run name (pre ++ [g]) frames = Some (type, S (length pre)).
Proof.
  induction pre as [|symbols pre IH]; intros frames Hpre Hg Hf.
  - destruct frames as [|frames']; [lia|]. simpl. by rewrite Hg.
  - destruct frames as [|frames']; [simpl in Hf; lia|].
    apply Forall_cons in Hpre as [Hs Hpre]. simpl. rewrite Hs.
    rewrite IH; [done..|simpl in Hf; lia].
Qed.

Lemma reads_run m name type g pre frames s :
  current s = pre ++ [g] →
  Forall (fun symbols => symbols !! name = None) pre →
  g !! name = Some type → type ≠ "" →
  length pre + 2 ≤ frames →
  run_each (fun p => check_node_run p frames) (replicate m (Some (NameNode name))) s
  = Some (s, m * (length pre + 2)).
Proof.
  intros Hs Hpre Hg Hty Hf.
  assert (One : check_node_run (Some (NameNode name)) frames s
                = Some (s, length pre + 2)).
  { destruct frames as [|frames']; [lia|].
    unfold check_node_run.
    change (check_node_run_nonnull (NameNode name) frames')
      with (run_resolve frames' name).
    unfold run_resolve. rewrite Hs.
    rewrite (find_run_walk name type g pre frames') by (done || lia).
    destruct (decide (type = "")); [done|].
    do 2 f_equal. lia. }
  induction m as [|m IH]; [done|].
  cbn [replicate run_each]. unfold run_then. rewrite One.
  fold (@run_each (option ASTNode)). cbn [run_each] in IH.
  rewrite IH. do 2 f_equal.
Qed.

Lemma reads_under_run name type g m depth : ∀ pre frames s,
  current s = pre ++ [g] →
  Forall (fun symbols => symbols !! name = None) pre →
  g !! name = Some type → type ≠ "" →
  length pre + 2 * depth + 4 ≤ frames →
  check_node_run
    (Some (reads_under depth (replicate m (Some (NameNode name))))) frames s
  = Some (s, S depth + m * (length pre + depth + 3)).
Proof.
  induction depth as [|depth IH]; intros pre frames s Hs Hpre Hg Hty Hf;
    (destruct frames as [|frames']; [lia|]);
    unfold check_node_run; cbn [reads_under].
  - change (check_node_run_nonnull
              (BlockNode (replicate m (Some (NameNode name)))) frames')
      with (run_then (run_pure enter_scope)
              (run_then
                 (run_each (fun p => check_node_run p frames')
                    (replicate m (Some (NameNode name))))
                 (run_pure leave_scope))).
    unfold run_then at 1. unfold run_pure at 1. unfold run_then.
    rewrite (reads_run m name type g (∅ :: pre) frames' (enter_scope s));
      [|by (unfold enter_scope; cbn [current]; rewrite Hs)
       |by (apply Forall_cons; split; [apply lookup_empty | done])
       |done..|simpl; lia].
    unfold run_pure. rewrite leave_enter_scope. do 2 f_equal.
    simpl. lia.
  - change (check_node_run_nonnull
              (BlockNode
                 [Some (reads_under depth (replicate m (Some (NameNode name))))])
              frames')
      with (run_then (run_pure enter_scope)
              (run_then
                 (run_each (fun p => check_node_run p frames')
                    [Some (reads_under depth
                             (replicate m (Some (NameNode name))))])
                 (run_pure leave_scope))).
    unfold run_then at 1. unfold run_pure at 1. unfold run_then.
    cbn [run_each]. unfold run_then.
    rewrite (IH (∅ :: pre) frames' (enter_scope s));
      [|by (unfold enter_scope; cbn [current]; rewrite Hs)
       |by (apply Forall_cons; split; [apply lookup_empty | done])
       |done..|simpl; lia].
    unfold run_pure. rewrite leave_enter_scope. do 2 f_equal.
    simpl. lia.
Qed.

Lemma reads_under_size depth m name :
  ast_size (Some (reads_under depth (replicate m (Some (NameNode name)))))
  = depth + m + 1.
Proof.
  unfold ast_size. induction depth as [|depth IH].
  - cbn [reads_under ast_size_nonnull].
    induction m as [|m IHm]; [done|].
    cbn [replicate sum_list_with ast_size_nonnull] in *. lia.
  - cbn [reads_under ast_size_nonnull sum_list_with]. lia.
Qed.

Lemma deep_reads_size n : program_size (deep_reads n) = 2 * n + 4.
Proof.
  unfold program_size, deep_reads, function_size, var_size.
  cbn [globals functions params body var_value sum_list_with].
  rewrite reads_under_size. change (ast_size None) with 1. lia.
Qed.

(** The run of [check] on [deep_reads n]: each of the [n] reads walks
    the [n + 3] scopes between the innermost block and the global
    scope. *)
Lemma deep_reads_run n frames :
  2 * n + 7 ≤ frames →
  ∃ s', check_run (deep_reads n) frames ScopeAnalyzer_new
        = Some (true, s', n * n + 5 * n + 3).
Proof.
  intros Hf. destruct frames as [|[|frames']]; [lia..|].
  set (s1 := phase1 (deep_reads n) ScopeAnalyzer_new).
  assert (Herr : errors s1 = []) by (vm_compute; reflexivity).
  assert (Hx : global s1 !! "x" = Some "int") by (vm_compute; reflexivity).
  pose proof (phase1_length (deep_reads n) ScopeAnalyzer_new) as Hlen.
  fold s1 in Hlen. cbn [ScopeAnalyzer_new current length] in Hlen.
  unfold global in Hx.
  destruct (current s1) as [|g [|? ?]] eqn:Hcur; try discriminate Hlen.
  cbn [List.last] in Hx.
  exists s1. unfold check_run, deep_reads.
  cbn [functions globals run_each var_value].
  unfold check_function_run, check_node_run_guarded.
  cbn [functions globals body params fold_left].
  unfold run_then at 1. unfold run_pure at 1.
  fold (deep_reads n). fold s1.
  unfold run_then, run_pure.
  rewrite (reads_under_run "x" "int" g n n [∅] frames' (enter_scope s1));
    [|by (unfold enter_scope; cbn [current]; rewrite Hcur)
     |by (apply Forall_cons; split; [apply lookup_empty | done])
     |done|discriminate|simpl; lia].
  rewrite leave_enter_scope. unfold passed. rewrite Herr.
  do 2 f_equal. simpl. lia.
Qed.

(** ** Termination *)

(** C9, as the specification has it, fails twice.  A call of [check]
    does not return on every tree: [check_node] calls itself once per
    level of nesting, so on a stack that holds five nested calls the
    four blocks of [deep_program 3], in which [check] has nothing to
    report, overflow it, and whatever the stack holds some program
    overflows it.  And the work is not bounded by the size of the tree:
    on [reads_in_depth], of size 7, the four recursive functions are
    called 23 times, because every read walks the scope chain in
    [Scope::find]; no multiple of the size bounds the calls on every
    program. *)
Lemma deep_nesting_overflows_the_stack :
  (check (deep_program 3) ScopeAnalyzer_new).1 = true ∧
  check_run (deep_program 3) 5 ScopeAnalyzer_new = None ∧
  (¬ ∃ frames, ∀ program,
       is_Some (check_run program frames ScopeAnalyzer_new)) ∧
  program_size reads_in_depth = 7 ∧
  (∃ s', check_run reads_in_depth 20 ScopeAnalyzer_new = Some (false, s', 23)) ∧
  (¬ ∃ k, ∀ program frames flag s' calls,
       check_run program frames ScopeAnalyzer_new = Some (flag, s', calls) →
       calls ≤ k * program_size program).
Proof.
  split; [by vm_compute|].
  split; [by apply deep_program_overflow|].
  split.
  { intros [frames Hall]. specialize (Hall (deep_program frames)).
    rewrite deep_program_overflow in Hall by lia.
    by apply is_Some_None in Hall. }
  split; [by vm_compute|].
  split.
  { destruct (check_run reads_in_depth 20 ScopeAnalyzer_new)
      as [[[flag s'] calls]|] eqn:E; [|by vm_compute in E].
    exists s'.
    assert (Hflag : (check_run reads_in_depth 20 ScopeAnalyzer_new
                       ≫= fun r => Some (r.1.1, r.2)) = Some (false, 23))
      by (vm_compute; reflexivity).
    rewrite E in Hflag. simpl in Hflag. by injection Hflag as -> ->. }
  intros [k Hall].
  destruct (deep_reads_run (2 * k) (4 * k + 7)) as [s' E]; [lia|].
  apply Hall in E. rewrite deep_reads_size in E. nia.
Qed.

(** C9, amended: started in the global scope on a stack that holds
    twice the height of the program plus four nested calls of [check],
    [check_function], [check_node] and [Scope::find], a call of [check]
    returns, with the flag and the analyzer of [check].  The number of
    calls of these four functions is then at most one plus the size of
    the program times its height plus three: the walks of
    [Scope::find] up the scope chain are what the height pays for.  No
    program makes the run go on for ever; a run that does not return
    has overflowed the stack. *)
Theorem check_returns_on_a_deep_enough_stack
    (program : ProgramNode) (frames : nat) (s : ScopeAnalyzer) :
  length (current s) = 1 →
  2 * program_height program + 4 ≤ frames →
  ∃ calls,
    check_run program frames s
    = Some ((check program s).1, (check program s).2, calls) ∧
    calls ≤ 1 + program_size program * (program_height program + 3).
Proof.
  intros Hs Hf. destruct frames as [|frames']; [lia|].
  destruct (heights_below program) as [Hfuncs Hvars].
  assert (H1 : length (current (phase1 program s)) = 1)
    by (by rewrite phase1_length).
  assert (H2 : length (current (phase2 program (phase1 program s))) = 1)
    by (by rewrite phase2_current).
  destruct (returns_then (run_pure (phase1 program)) _ s _ _ 0 _
              (returns_pure _ _)
              (returns_then _ _ _ _ _ _ _
                 (phase2_returns (functions program) frames' _ Hfuncs
                    ltac:(lia) _ H1)
                 (phase3_returns (globals program) frames' _ Hvars
                    ltac:(lia) _ H2)))
    as (n & E & Hn).
  exists (S n). unfold check_run, check. cbn zeta. cbn [fst snd].
  unfold phase3, phase2 in *.
  rewrite E. split; [done|].
  unfold program_size. nia.
Qed.

Lemma check_returns_on_a_deep_enough_stack_witness :
  ∃ calls,
    check_run reads_in_depth 12 ScopeAnalyzer_new
    = Some ((check reads_in_depth ScopeAnalyzer_new).1,
            (check reads_in_depth ScopeAnalyzer_new).2, calls) ∧
    calls ≤ 1 + program_size reads_in_depth * (program_height reads_in_depth + 3).
Proof.
  apply (check_returns_on_a_deep_enough_stack reads_in_depth 12
           ScopeAnalyzer_new).
  - reflexivity.
  - vm_compute. lia.
Defined.
